(** * Session state machine of the llama.cpp wrapper

    A shallow embedding of [native/llama_cpp/llama_wrapper.cpp]: the
    [LlamaHandle] state bag, the sampler cache ([ensure_sampler]), prompt
    pre-fill ([wrapper_prepare_prompt]), incremental generation
    ([wrapper_get_next_token]) and teardown ([wrapper_free]).

    The llama.cpp runtime is an external library.  It is represented by an
    [Engine]: a record of response functions that may depend on the whole
    history of calls made so far, so any deterministic engine is an
    instance.  Every call into the runtime and every log line is appended
    to a chronological trace, which is what lets statements such as "the
    token is not submitted" or "the pipeline is rebuilt" be expressed. *)

From Stdlib Require Import ZArith String Ascii List Bool Lia.
From Stdlib Require Import Floats.SpecFloat.
From stdpp Require Import base option list gmap strings.
Import ListNotations.

Local Open Scope Z_scope.

(** ** Machine integers

    C [int] is 32 bits wide; arithmetic results are reduced into the signed
    range. *)

Definition INT_MAX : Z := 2147483647.
Definition INT_MIN : Z := -2147483648.

Definition wrap32 (z : Z) : Z := (z + 2147483648) mod 4294967296 - 2147483648.

Definition int_add (a b : Z) : Z := wrap32 (a + b).
Definition int_sub (a b : Z) : Z := wrap32 (a - b).

Definition in_int (z : Z) : Prop := INT_MIN <= z <= INT_MAX.

(** ** Floats

    [float temp, top_p] are IEEE-754 values.  Only [==] is ever applied to
    them, which is [SFeqb] of the Standard Library's IEEE specification:
    NaN is unequal to everything, itself included, and the two zeros are
    equal. *)

Definition float : Type := spec_float.

Definition float_eq (a b : float) : bool := SFeqb a b.

(** [-1.0f], [0.0f] and [1.2f] in binary32. *)
Definition f_minus_one : float := S754_finite true 8388608 (-23).
Definition f_zero : float := S754_zero false.
Definition f_1_2 : float := S754_finite false 10066330 (-23).

(** ** Batches, sampler chains, events *)

Definition llama_token : Type := Z.

(** One index of the parallel arrays [token], [pos], [n_seq_id],
    [seq_id[.][0]] and [logits] of a [llama_batch]. *)
Record BatchEntry : Type := mkEntry {
  token : llama_token;
  pos : Z;
  n_seq_id : Z;
  seq_id : Z;
  logits : bool
}.

(** [slots = None] is the state in which the array pointers are null. *)
Record llama_batch : Type := mkBatch {
  n_tokens : Z;
  slots : option (list BatchEntry)
}.

Inductive SamplerStage : Type :=
| Penalties (last_n : Z) (repeat freq present : float)
| Temp (t : float)
| TopK (k : Z)
| TopP (p : float) (min_keep : Z)
| Dist (seed : Z).

(** The [LOGI]/[LOGE] lines of the wrapper. *)
Inductive LogMsg : Type :=
| LogInit (model_path : string) (ctx threads : Z)
| LogInitModelFailed
| LogInitContextFailed
| LogInitSuccess
| LogPrepareClearing
| LogPrepareTokenizing
| LogPrepareNTokens (n : Z)
| LogPromptTooLong (n n_ctx safety : Z)
| LogPrepareChunk (i n : Z)
| LogPrepareDecodeFailed (i : Z)
| LogPrepareSuccess
| LogSamplerFailed
| LogContextFull (n_cur n_ctx : Z)
| LogMaxNewTokens
| LogStopSequence
| LogEmptyPiece (id : llama_token)
| LogEOS
| LogDecodeFailed (res : Z)
| LogFree.

(** Calls into the runtime that read or change its state, in the order
    they are made, interleaved with the log lines. *)
Inductive Event : Type :=
| EvBackendInit
| EvModelLoad (model_path : string) (use_mmap : bool)
| EvInitFromModel (n_ctx n_threads n_batch n_ubatch : Z)
| EvBatchInit (n : Z)
| EvMemoryClear
| EvDecode (entries : list BatchEntry) (res : Z)
| EvSample (id : llama_token)
| EvSamplerReset
| EvSamplerFree
| EvSamplerChainInit
| EvSamplerChainAdd (s : SamplerStage)
| EvBatchFree
| EvContextFree
| EvModelFree
| EvBackendFree
| EvDelete (addr : N)
| EvLog (m : LogMsg).

Definition Trace : Type := list Event.

(** ** The engine *)

Record Engine : Type := mkEngine {
  (** [llama_n_ctx(ctx)], a [uint32_t] *)
  llama_n_ctx : Z;
  (** the vocabulary's tokenisation of a text, by [add_special] and
      [parse_special] *)
  vocab_tokenize : string -> bool -> bool -> list llama_token;
  (** the bytes of a token rendered with [special = true], [lstrip = 0] *)
  vocab_piece : llama_token -> string;
  llama_vocab_is_eog : llama_token -> bool;
  (** return code of [llama_decode] for the submitted entries *)
  llama_decode : Trace -> list BatchEntry -> Z;
  llama_sampler_sample : Trace -> llama_token;
  (** whether [llama_sampler_chain_init] returns a non-null chain *)
  chain_init_ok : Trace -> bool;
  (** whether [llama_model_load_from_file] / [llama_init_from_model]
      return non-null *)
  model_load_ok : Trace -> string -> bool;
  context_init_ok : Trace -> bool
}.

(** [llama_tokenize]: the number of tokens on success; the negated number
    of tokens when [n_tokens_max] is too small, with nothing usable
    written. *)
Definition llama_tokenize (E : Engine) (text : string) (n_tokens_max : Z)
    (add_special parse_special : bool) : Z * list llama_token :=
  let toks := vocab_tokenize E text add_special parse_special in
  let n := Z.of_nat (length toks) in
  if n <=? n_tokens_max then (n, toks) else (- n, []).

(** [llama_token_to_piece]: the number of bytes written, without a
    terminator; the negated size needed when [length] is too small. *)
Definition llama_token_to_piece (E : Engine) (id : llama_token) (length : Z)
    : Z * string :=
  let piece := vocab_piece E id in
  let n := Z.of_nat (String.length piece) in
  if n <=? length then (n, piece) else (- n, EmptyString).

(** ** C strings *)

Definition NUL : ascii := Ascii.zero.

(** The string a [char *] denotes: the bytes before the first NUL. *)
Fixpoint c_str (buf : string) : string :=
  match buf with
  | EmptyString => EmptyString
  | String c rest =>
      if Ascii.eqb c NUL then EmptyString else String c (c_str rest)
  end.

Fixpoint starts_with (needle s : string) : bool :=
  match needle, s with
  | EmptyString, _ => true
  | String a needle', String b s' => Ascii.eqb a b && starts_with needle' s'
  | String _ _, EmptyString => false
  end.

(** [strstr]: the suffix at the first occurrence, [None] for a null
    result. *)
Fixpoint strstr (haystack needle : string) : option string :=
  if starts_with needle haystack then Some haystack
  else match haystack with
       | EmptyString => None
       | String _ rest => strstr rest needle
       end.

Definition LF : ascii := Ascii.ascii_of_nat 10.

(** The four literals of the stop word check, in source order. *)
Definition stop_sequences : list string :=
  [ "<|im_end|"%string;
    "<|im_start|>"%string;
    "<|user|>"%string;
    String.append "user" (String LF EmptyString) ].

(** ** The handle *)

(** [model], [ctx] and [vocab] record whether the pointer is non-null; the
    objects themselves live in the engine.  [smpl] holds the chain the
    sampler was assembled from. *)
Record LlamaHandle : Type := mkHandle {
  model : bool;
  ctx : bool;
  vocab : bool;
  batch : llama_batch;
  smpl : option (list SamplerStage);
  n_cur : Z;
  is_prepared : bool;
  batch_size : Z;
  last_temp : float;
  last_top_p : float;
  n_prompt : Z;
  n_gen : Z;
  max_new_tokens : Z
}.

(** The constructor [LlamaHandle()]. *)
Definition new_LlamaHandle : LlamaHandle :=
  {| model := false; ctx := false; vocab := false;
     batch := mkBatch 0 None;
     smpl := None; n_cur := 0; is_prepared := false; batch_size := 128;
     last_temp := f_minus_one; last_top_p := f_minus_one;
     n_prompt := 0; n_gen := 0; max_new_tokens := 128 |}.

Definition set_batch (h : LlamaHandle) (b : llama_batch) : LlamaHandle :=
  mkHandle (model h) (ctx h) (vocab h) b (smpl h) (n_cur h) (is_prepared h)
    (batch_size h) (last_temp h) (last_top_p h) (n_prompt h) (n_gen h)
    (max_new_tokens h).

Definition set_sampler (h : LlamaHandle) (s : option (list SamplerStage))
    (temp top_p : float) : LlamaHandle :=
  mkHandle (model h) (ctx h) (vocab h) (batch h) s (n_cur h) (is_prepared h)
    (batch_size h) temp top_p (n_prompt h) (n_gen h) (max_new_tokens h).

Definition set_n_cur (h : LlamaHandle) (v : Z) : LlamaHandle :=
  mkHandle (model h) (ctx h) (vocab h) (batch h) (smpl h) v (is_prepared h)
    (batch_size h) (last_temp h) (last_top_p h) (n_prompt h) (n_gen h)
    (max_new_tokens h).

Definition set_is_prepared (h : LlamaHandle) (v : bool) : LlamaHandle :=
  mkHandle (model h) (ctx h) (vocab h) (batch h) (smpl h) (n_cur h) v
    (batch_size h) (last_temp h) (last_top_p h) (n_prompt h) (n_gen h)
    (max_new_tokens h).

Definition set_n_gen (h : LlamaHandle) (v : Z) : LlamaHandle :=
  mkHandle (model h) (ctx h) (vocab h) (batch h) (smpl h) (n_cur h)
    (is_prepared h) (batch_size h) (last_temp h) (last_top_p h) (n_prompt h)
    v (max_new_tokens h).

(** The four assignments that end a successful pre-fill. *)
Definition set_session (h : LlamaHandle) (prompt gen limit : Z) (ready : bool)
    : LlamaHandle :=
  mkHandle (model h) (ctx h) (vocab h) (batch h) (smpl h) (n_cur h) ready
    (batch_size h) (last_temp h) (last_top_p h) prompt gen limit.

(** What a call can do besides returning. *)
Inductive Outcome (A : Type) : Type :=
| Ret (a : A)
| Undefined   (* a null or dangling pointer is dereferenced, or an array is
                 written out of bounds *)
| Diverges.   (* the call never returns *)
Arguments Ret {A} a.
Arguments Undefined {A}.
Arguments Diverges {A}.

(** A pointer is non-null. *)
Definition non_null {A : Type} (p : option A) : bool :=
  match p with Some _ => true | None => false end.

(** ** Sampler cache *)

Definition reset_batch_positions (handle : LlamaHandle) : LlamaHandle :=
  set_batch handle (mkBatch 0 (slots (batch handle))).

Definition sampler_chain (temp top_p : float) : list SamplerStage :=
  [ Penalties 64 f_1_2 f_zero f_zero; Temp temp; TopK 40; TopP top_p 1;
    Dist 1234 ].

Definition ensure_sampler (E : Engine) (handle : LlamaHandle) (tr : Trace)
    (temp top_p : float) : bool * LlamaHandle * Trace :=
  if non_null (smpl handle)
     && float_eq temp (last_temp handle)
     && float_eq top_p (last_top_p handle)
  then (true, handle, tr ++ [EvSamplerReset])
  else
    let tr1 := if non_null (smpl handle) then tr ++ [EvSamplerFree] else tr in
    let tr2 := tr1 ++ [EvSamplerChainInit] in
    if chain_init_ok E tr1 then
      let chain := sampler_chain temp top_p in
      (true, set_sampler handle (Some chain) temp top_p,
       tr2 ++ map EvSamplerChainAdd chain)
    else
      (false,
       set_sampler handle None (last_temp handle) (last_top_p handle), tr2).

(** ** Prompt pre-fill *)

(** The inner [for (j = 0; j < n_eval; j++)] loop, [k] iterations from
    index [j].  [None] when an index outside the arrays would be written,
    or the arrays are null. *)
Fixpoint fill_chunk (tokens : list llama_token) (i cur n_eval : Z) (k : nat)
    (j : Z) (b : llama_batch) : option llama_batch :=
  match k with
  | O => Some b
  | S k' =>
      match slots b with
      | None => None
      | Some arr =>
          if (0 <=? j) && (j <? Z.of_nat (length arr)) then
            let e := {| token := nth (Z.to_nat (int_add i j)) tokens 0;
                        pos := int_add cur j;
                        n_seq_id := 1;
                        seq_id := 0;
                        logits := j =? int_sub n_eval 1 |} in
            fill_chunk tokens i cur n_eval k' (int_add j 1)
              (mkBatch (int_add (n_tokens b) 1)
                 (Some (<[Z.to_nat j := e]> arr)))
          else None
      end
  end.

(** The entries a [llama_decode] call reads from a batch. *)
Definition submitted (b : llama_batch) : list BatchEntry :=
  match slots b with
  | Some arr => take (Z.to_nat (n_tokens b)) arr
  | None => []
  end.

(** The outer [for (i = 0; i < n_tokens; i += batch_size)] loop from index
    [i], unrolled at most [fuel] times.  The result carries whether every
    chunk was accepted.  [wrapper_prepare_prompt] gives it [n_tokens + 1]
    rounds, which [prefill_runs] shows to be enough whenever [batch_size]
    is positive; with a [batch_size] of 0 or less the loop makes no
    progress and the fuel runs out. *)
Fixpoint prefill (E : Engine) (fuel : nat) (tokens : list llama_token)
    (n_tok i : Z) (handle : LlamaHandle) (tr : Trace)
    : Outcome (bool * LlamaHandle * Trace) :=
  match fuel with
  | O => Diverges
  | S fuel' =>
      if i <? n_tok then
        let n_eval := if int_sub n_tok i >? batch_size handle
                      then batch_size handle else int_sub n_tok i in
        let handle := reset_batch_positions handle in
        match fill_chunk tokens i (n_cur handle) n_eval (Z.to_nat n_eval) 0
                (batch handle) with
        | None => Undefined
        | Some b =>
            let handle := set_batch handle b in
            let tr := tr ++ [EvLog (LogPrepareChunk i n_tok)] in
            let res := llama_decode E tr (submitted b) in
            let tr := tr ++ [EvDecode (submitted b) res] in
            if negb (res =? 0) then
              Ret (false, handle, tr ++ [EvLog (LogPrepareDecodeFailed i)])
            else
              prefill E fuel' tokens n_tok (int_add i (batch_size handle))
                (set_n_cur handle (int_add (n_cur handle) n_eval)) tr
        end
      else Ret (true, handle, tr)
  end.

(** The two-phase tokenisation shared by [wrapper_tokenize] and
    [wrapper_prepare_prompt]: a first attempt with [cap] slots, a second
    one sized by the negative answer. *)
Definition tokenize_two_phase (E : Engine) (text : string) (cap : Z)
    (add_special parse_special : bool) : Z * list llama_token :=
  let '(n, toks) := llama_tokenize E text cap add_special parse_special in
  if n <? 0 then llama_tokenize E text (- n) add_special parse_special
  else (n, toks).

(** The body of [wrapper_prepare_prompt] after the null check. *)
Definition prepare_prompt (E : Engine) (handle : LlamaHandle) (tr : Trace)
    (prompt : string) : Outcome (bool * LlamaHandle * Trace) :=
  let handle := set_is_prepared handle false in
  if negb (ctx handle) || negb (vocab handle) then Undefined else
  let tr := tr ++ [EvLog LogPrepareClearing; EvMemoryClear;
                   EvLog LogPrepareTokenizing] in
  let '(n_tok, toks) :=
    tokenize_two_phase E prompt (Z.of_nat (String.length prompt) + 1)
      true true in
  let tokens := take (Z.to_nat n_tok) toks in
  let tr := tr ++ [EvLog (LogPrepareNTokens n_tok)] in
  let n_ctx := wrap32 (llama_n_ctx E) in
  let safety := 128 in
  if n_tok >=? int_sub n_ctx safety then
    Ret (false, handle, tr ++ [EvLog (LogPromptTooLong n_tok n_ctx safety)])
  else
    let handle := set_n_cur handle 0 in
    match prefill E (S (Z.to_nat n_tok)) tokens n_tok 0 handle tr with
    | Ret (true, handle, tr) =>
        let handle :=
          set_session handle (n_cur handle) 0
            (Z.max 16 (int_sub (int_sub n_ctx (n_cur handle)) safety))
            true in
        let tr := if non_null (smpl handle) then tr ++ [EvSamplerReset]
                  else tr in
        Ret (true, handle, tr ++ [EvLog LogPrepareSuccess])
    | other => other
    end.

(** ** Incremental generation *)

(** Whether one of the stop words occurs in [out_buf]. *)
Definition stop_word_found (out_buf : string) : bool :=
  existsb (fun w => non_null (strstr out_buf w)) stop_sequences.

(** The body of [wrapper_get_next_token] after the null check.  The second
    component of the result is what the call left in [out_buf], as a C
    string, when it wrote there. *)
Definition get_next_token (E : Engine) (handle : LlamaHandle) (tr : Trace)
    (temp top_p : float) (out_buf_size : Z)
    : Outcome (Z * option string * LlamaHandle * Trace) :=
  if negb (is_prepared handle) then Ret (-2, None, handle, tr) else
  let '(ok, handle, tr) := ensure_sampler E handle tr temp top_p in
  if negb ok then Ret (-3, None, handle, tr ++ [EvLog LogSamplerFailed]) else
  if negb (ctx handle) then Undefined else
  let n_ctx := wrap32 (llama_n_ctx E) in
  if n_cur handle >=? int_sub n_ctx 4 then
    Ret (0, None, handle,
         tr ++ [EvLog (LogContextFull (n_cur handle) n_ctx)])
  else if n_gen handle >=? max_new_tokens handle then
    Ret (0, None, handle, tr ++ [EvLog LogMaxNewTokens])
  else if negb (vocab handle) then Undefined
  else
    let id := llama_sampler_sample E tr in
    let tr := tr ++ [EvSample id] in
    let '(n, written) :=
      llama_token_to_piece E id (int_sub out_buf_size 1) in
    let out_buf := if n >? 0 then Some (c_str written) else None in
    if (n >? 0) && stop_word_found (c_str written) then
      Ret (0, out_buf, handle, tr ++ [EvLog LogStopSequence])
    else
      let tr := if n >? 0 then tr else tr ++ [EvLog (LogEmptyPiece id)] in
      if llama_vocab_is_eog E id then
        Ret (0, out_buf, handle, tr ++ [EvLog LogEOS])
      else
        match slots (batch handle) with
        | None => Undefined
        | Some [] => Undefined
        | Some (_ :: arr) =>
            let e := {| token := id; pos := n_cur handle; n_seq_id := 1;
                        seq_id := 0; logits := true |} in
            let b := mkBatch 1 (Some (e :: arr)) in
            let handle := set_batch handle b in
            let res := llama_decode E tr (submitted b) in
            let tr := tr ++ [EvDecode (submitted b) res] in
            if negb (res =? 0) then
              Ret (-4, out_buf, handle, tr ++ [EvLog (LogDecodeFailed res)])
            else
              Ret (n, out_buf,
                   set_n_gen (set_n_cur handle (int_add (n_cur handle) 1))
                     (int_add (n_gen handle) 1),
                   tr)
        end.

(** The body of [wrapper_tokenize] after the null check. *)
Definition tokenize (E : Engine) (handle : LlamaHandle) (text : string)
    : Outcome Z :=
  if negb (vocab handle) then Undefined else
  Ret (fst (tokenize_two_phase E text (Z.of_nat (String.length text) + 4)
              false false)).

(** ** The C interface

    A handle pointer is an address; [new LlamaHandle()] takes the next
    unused address and [delete] removes the object from the heap.  A
    non-null pointer that is not in the heap is dangling. *)

Record World : Type := mkWorld {
  heap : gmap N LlamaHandle;
  next_addr : N;
  trace : Trace
}.

Definition null : N := 0%N.

Definition empty_world : World := mkWorld ∅ 1%N [].

(** [llama_batch_init(n, 0, 1)]: [n] slots of unspecified content. *)
Definition llama_batch_init (n : Z) : llama_batch :=
  mkBatch 0 (Some (replicate (Z.to_nat n) (mkEntry 0 0 0 0 false))).

Definition wrapper_init (E : Engine) (w : World) (model_path : string)
    (ctx_size threads : Z) (use_mmap : bool) : Outcome (N * World) :=
  let requested_ctx := if ctx_size >? 0 then ctx_size else 1024 in
  let requested_threads := if threads >? 0 then threads else 4 in
  let tr := trace w ++ [EvLog (LogInit model_path requested_ctx
                                 requested_threads); EvBackendInit] in
  let loaded := model_load_ok E tr model_path in
  let tr := tr ++ [EvModelLoad model_path use_mmap] in
  if negb loaded then
    Ret (null, mkWorld (heap w) (next_addr w)
                 (tr ++ [EvLog LogInitModelFailed]))
  else
    let n_batch := Z.min 128 requested_ctx in
    let n_ubatch := Z.min 64 requested_ctx in
    let created := context_init_ok E tr in
    let tr := tr ++ [EvInitFromModel requested_ctx requested_threads n_batch
                       n_ubatch] in
    if negb created then
      Ret (null, mkWorld (heap w) (next_addr w)
                   (tr ++ [EvLog LogInitContextFailed; EvModelFree]))
    else
      let h := new_LlamaHandle in
      let size := Z.min 128 n_batch in
      let handle :=
        mkHandle true true true (llama_batch_init size) (smpl h) (n_cur h)
          (is_prepared h) size (last_temp h) (last_top_p h) (n_prompt h)
          (n_gen h) (max_new_tokens h) in
      Ret (next_addr w,
           mkWorld (<[next_addr w := handle]> (heap w))
             (N.succ (next_addr w))
             (tr ++ [EvBatchInit size; EvLog LogInitSuccess])).

Definition wrapper_tokenize (E : Engine) (w : World) (handle_ptr : N)
    (text : string) : Outcome (Z * World) :=
  if N.eqb handle_ptr null then Ret (-1, w) else
  match heap w !! handle_ptr with
  | None => Undefined
  | Some handle =>
      match tokenize E handle text with
      | Ret n => Ret (n, w)
      | Undefined => Undefined
      | Diverges => Diverges
      end
  end.

Definition wrapper_prepare_prompt (E : Engine) (w : World) (handle_ptr : N)
    (prompt : string) : Outcome (bool * World) :=
  if N.eqb handle_ptr null then Ret (false, w) else
  match heap w !! handle_ptr with
  | None => Undefined
  | Some handle =>
      match prepare_prompt E handle (trace w) prompt with
      | Ret (r, handle', tr) =>
          Ret (r, mkWorld (<[handle_ptr := handle']> (heap w)) (next_addr w)
                    tr)
      | Undefined => Undefined
      | Diverges => Diverges
      end
  end.

Definition wrapper_get_next_token (E : Engine) (w : World) (handle_ptr : N)
    (temp top_p : float) (out_buf_size : Z)
    : Outcome (Z * option string * World) :=
  if N.eqb handle_ptr null then Ret (-1, None, w) else
  match heap w !! handle_ptr with
  | None => Undefined
  | Some handle =>
      match get_next_token E handle (trace w) temp top_p out_buf_size with
      | Ret (r, out, handle', tr) =>
          Ret (r, out,
               mkWorld (<[handle_ptr := handle']> (heap w)) (next_addr w) tr)
      | Undefined => Undefined
      | Diverges => Diverges
      end
  end.

(** The engine calls of [wrapper_free], in source order. *)
Definition free_events (handle : LlamaHandle) (handle_ptr : N) : Trace :=
  [EvLog LogFree]
  ++ (if non_null (smpl handle) then [EvSamplerFree] else [])
  ++ (if non_null (slots (batch handle)) then [EvBatchFree] else [])
  ++ (if ctx handle then [EvContextFree] else [])
  ++ (if model handle then [EvModelFree] else [])
  ++ [EvDelete handle_ptr; EvBackendFree].

Definition wrapper_free (w : World) (handle_ptr : N) : Outcome World :=
  if N.eqb handle_ptr null then Ret w else
  match heap w !! handle_ptr with
  | None => Undefined
  | Some handle =>
      Ret (mkWorld (delete handle_ptr (heap w)) (next_addr w)
             (trace w ++ free_events handle handle_ptr))
  end.

(** ** Runs *)

(** The calls a host can make. *)
Inductive Call : Type :=
| CallInit (model_path : string) (ctx_size threads : Z) (use_mmap : bool)
| CallTokenize (handle_ptr : N) (text : string)
| CallPrepare (handle_ptr : N) (prompt : string)
| CallNext (handle_ptr : N) (temp top_p : float) (out_buf_size : Z)
| CallFree (handle_ptr : N).

Definition after {A : Type} (o : Outcome (A * World)) : Outcome World :=
  match o with
  | Ret (_, w) => Ret w
  | Undefined => Undefined
  | Diverges => Diverges
  end.

Definition step (E : Engine) (w : World) (c : Call) : Outcome World :=
  match c with
  | CallInit path c t m => after (wrapper_init E w path c t m)
  | CallTokenize p text => after (wrapper_tokenize E w p text)
  | CallPrepare p prompt => after (wrapper_prepare_prompt E w p prompt)
  | CallNext p temp top_p size =>
      after (wrapper_get_next_token E w p temp top_p size)
  | CallFree p => wrapper_free w p
  end.

(** The worlds a host can bring about from the empty one. *)
Inductive reachable (E : Engine) : World -> Prop :=
| reachable_start : reachable E empty_world
| reachable_step w c w' :
    reachable E w -> step E w c = Ret w' -> reachable E w'.

(** A sequence of [wrapper_get_next_token] calls on one handle; the result
    lists the return values. *)
Fixpoint run_next (E : Engine) (w : World) (handle_ptr : N)
    (calls : list (float * float * Z)) : Outcome (list Z * World) :=
  match calls with
  | [] => Ret ([], w)
  | (temp, top_p, size) :: rest =>
      match wrapper_get_next_token E w handle_ptr temp top_p size with
      | Ret (r, _, w1) =>
          match run_next E w1 handle_ptr rest with
          | Ret (rs, w2) => Ret (r :: rs, w2)
          | other => other
          end
      | Undefined => Undefined
      | Diverges => Diverges
      end
  end.

(** ** A small engine to run the wrapper on

    One token per prompt byte; token 2 is the end-of-generation token,
    token 7 renders as the empty string, token 8 as a turn marker and
    every other token as two letters.  Decoding and allocation never fail;
    the sampler draws a fixed token. *)

Definition toy_piece (id : llama_token) : string :=
  if id =? 2 then "</s>"%string
  else if id =? 7 then EmptyString
  else if id =? 8 then "<|im_start|>"%string
  else "ab"%string.

Definition toy_engine (n_ctx : Z) (drawn : llama_token) : Engine :=
  {| llama_n_ctx := n_ctx;
     vocab_tokenize := fun text _ _ =>
       map (fun c => Z.of_nat (nat_of_ascii c)) (list_ascii_of_string text);
     vocab_piece := toy_piece;
     llama_vocab_is_eog := fun id => id =? 2;
     llama_decode := fun _ _ => 0;
     llama_sampler_sample := fun _ => drawn;
     chain_init_ok := fun _ => true;
     model_load_ok := fun _ _ => true;
     context_init_ok := fun _ => true |}.

(** The toy engine, except that the context cannot take a chunk that
    starts at position 128 or later. *)
Definition flaky_engine (n_ctx : Z) (drawn : llama_token) : Engine :=
  let E := toy_engine n_ctx drawn in
  {| llama_n_ctx := llama_n_ctx E;
     vocab_tokenize := vocab_tokenize E;
     vocab_piece := vocab_piece E;
     llama_vocab_is_eog := llama_vocab_is_eog E;
     llama_decode := fun _ entries =>
       match entries with
       | e :: _ => if pos e >=? 128 then 1 else 0
       | [] => 0
       end;
     llama_sampler_sample := llama_sampler_sample E;
     chain_init_ok := chain_init_ok E;
     model_load_ok := model_load_ok E;
     context_init_ok := context_init_ok E |}.

(** The chunks submitted in a stretch of the trace: for each
    [llama_decode], the number of entries, the first position, the
    indices that ask for logits, and the return code. *)
Definition chunk_summary (evs : Trace) : list (nat * Z * list nat * Z) :=
  omap (fun e =>
          match e with
          | EvDecode entries res =>
              Some (length entries,
                    match entries with e0 :: _ => pos e0 | [] => -1 end,
                    omap (fun '(k, e1) => if logits e1 then Some k else None)
                      (imap pair entries),
                    res)
          | _ => None
          end) evs.

(** A prompt of [n] bytes. *)
Fixpoint prompt_of_length (n : nat) : string :=
  match n with
  | O => EmptyString
  | S n' => String "x" (prompt_of_length n')
  end.

(** [0.5f] and [0.75f] in binary32, and a NaN. *)
Definition f_half : float := S754_finite false 8388608 (-24).
Definition f_three_quarters : float := S754_finite false 12582912 (-24).
Definition f_nan : float := S754_nan.

(** ** Vocabulary of the statements *)

(** The call extended the trace by an accepted single-token submission:
    the last thing it did was a [llama_decode] that returned 0. *)
Definition token_accepted (before after : Trace) : Prop :=
  exists mid entries, after = before ++ mid ++ [EvDecode entries 0].

Definition is_sampler_event (e : Event) : bool :=
  match e with
  | EvSamplerReset | EvSamplerFree | EvSamplerChainInit
  | EvSamplerChainAdd _ => true
  | _ => false
  end.

(** Events that read or advance the context: sampling from its logits,
    submitting a batch, clearing its memory. *)
Definition touches_context (e : Event) : bool :=
  match e with
  | EvDecode _ _ | EvSample _ | EvMemoryClear => true
  | _ => false
  end.

(** How often the sampling pipeline is constructed, and how often it is
    merely reset, in a stretch of the trace. *)
Fixpoint rebuilds (evs : Trace) : nat :=
  match evs with
  | [] => O
  | EvSamplerChainInit :: rest => S (rebuilds rest)
  | _ :: rest => rebuilds rest
  end.

Fixpoint resets (evs : Trace) : nat :=
  match evs with
  | [] => O
  | EvSamplerReset :: rest => S (resets rest)
  | _ :: rest => resets rest
  end.

(** The test that opens [ensure_sampler]: a pipeline exists and both
    requested values compare equal to the cached ones. *)
Definition cache_hit (h : LlamaHandle) (temp top_p : float) : bool :=
  non_null (smpl h) && float_eq temp (last_temp h)
  && float_eq top_p (last_top_p h).

(** The number of slots of the batch arrays. *)
Definition capacity (h : LlamaHandle) : option nat :=
  match slots (batch h) with
  | Some arr => Some (length arr)
  | None => None
  end.

(** What [wrapper_init] establishes for good. *)
Definition initialised (h : LlamaHandle) : Prop :=
  model h = true /\ ctx h = true /\ vocab h = true /\
  1 <= batch_size h <= 128 /\
  capacity h = Some (Z.to_nat (batch_size h)).

(** The counters stay machine integers and add up while the session is
    ready. *)
Definition counters_ok (h : LlamaHandle) : Prop :=
  in_int (n_cur h) /\
  0 <= n_gen h <= max_new_tokens h /\
  16 <= max_new_tokens h <= INT_MAX /\
  (is_prepared h = true -> n_cur h = n_prompt h + n_gen h).

(** The context window is a positive [int]. *)
Definition context_ok (E : Engine) : Prop := 0 < llama_n_ctx E <= INT_MAX.

(** The cursor against the window, and what a successful prepare derived
    from the window. *)
Definition within_context (E : Engine) (h : LlamaHandle) : Prop :=
  0 <= n_cur h < llama_n_ctx E /\
  (is_prepared h = true ->
     0 <= n_prompt h < llama_n_ctx E - 128 /\
     max_new_tokens h = Z.max 16 (llama_n_ctx E - n_prompt h - 128)).

(** ** The paths through [get_next_token]

    One constructor per [return] of the function, with the conditions
    under which it is taken. *)

(** What the call leaves in [out_buf], and the log line of the [else]
    branch of the piece test. *)
Definition shown (n : Z) (written : string) : option string :=
  if n >? 0 then Some (c_str written) else None.

Definition piece_log (n : Z) (id : llama_token) : Trace :=
  if n >? 0 then [] else [EvLog (LogEmptyPiece id)].

(** The entry written to slot 0 of the batch. *)
Definition next_entry (id : llama_token) (h : LlamaHandle) : BatchEntry :=
  {| token := id; pos := n_cur h; n_seq_id := 1; seq_id := 0;
     logits := true |}.

Section Paths.
Variables (E : Engine) (h : LlamaHandle) (tr : Trace).
Variables (temp top_p : float) (out_buf_size : Z).

(** The call gets as far as drawing token [id], whose piece is reported
    as [(n, written)], with the sampler configured as in [h1]. *)
Definition samples (h1 : LlamaHandle) (tr1 : Trace) (id : llama_token)
    (n : Z) (written : string) : Prop :=
  is_prepared h = true /\
  ensure_sampler E h tr temp top_p = (true, h1, tr1) /\
  ctx h = true /\ vocab h = true /\
  n_cur h < int_sub (wrap32 (llama_n_ctx E)) 4 /\
  n_gen h < max_new_tokens h /\
  id = llama_sampler_sample E tr1 /\
  llama_token_to_piece E id (int_sub out_buf_size 1) = (n, written).

(** The stop word check did not end the call. *)
Definition no_stop_word (n : Z) (written : string) : Prop :=
  n <= 0 \/ stop_word_found (c_str written) = false.

Inductive next_outcome : Z -> option string -> LlamaHandle -> Trace -> Prop :=
| next_not_prepared :
    is_prepared h = false ->
    next_outcome (-2) None h tr
| next_sampler_failed h1 tr1 :
    is_prepared h = true ->
    ensure_sampler E h tr temp top_p = (false, h1, tr1) ->
    next_outcome (-3) None h1 (tr1 ++ [EvLog LogSamplerFailed])
| next_context_full h1 tr1 :
    is_prepared h = true ->
    ensure_sampler E h tr temp top_p = (true, h1, tr1) ->
    ctx h = true ->
    int_sub (wrap32 (llama_n_ctx E)) 4 <= n_cur h ->
    next_outcome 0 None h1
      (tr1 ++ [EvLog (LogContextFull (n_cur h) (wrap32 (llama_n_ctx E)))])
| next_limit h1 tr1 :
    is_prepared h = true ->
    ensure_sampler E h tr temp top_p = (true, h1, tr1) ->
    ctx h = true ->
    n_cur h < int_sub (wrap32 (llama_n_ctx E)) 4 ->
    max_new_tokens h <= n_gen h ->
    next_outcome 0 None h1 (tr1 ++ [EvLog LogMaxNewTokens])
| next_stop_word h1 tr1 id n written :
    samples h1 tr1 id n written ->
    0 < n -> stop_word_found (c_str written) = true ->
    next_outcome 0 (Some (c_str written)) h1
      (tr1 ++ [EvSample id; EvLog LogStopSequence])
| next_eog h1 tr1 id n written :
    samples h1 tr1 id n written ->
    no_stop_word n written ->
    llama_vocab_is_eog E id = true ->
    next_outcome 0 (shown n written) h1
      (tr1 ++ [EvSample id] ++ piece_log n id ++ [EvLog LogEOS])
| next_decode_failed h1 tr1 id n written old arr res :
    samples h1 tr1 id n written ->
    no_stop_word n written ->
    llama_vocab_is_eog E id = false ->
    slots (batch h) = Some (old :: arr) ->
    res = llama_decode E (tr1 ++ [EvSample id] ++ piece_log n id)
            [next_entry id h] ->
    res <> 0 ->
    next_outcome (-4) (shown n written)
      (set_batch h1 (mkBatch 1 (Some (next_entry id h :: arr))))
      (tr1 ++ [EvSample id] ++ piece_log n id
           ++ [EvDecode [next_entry id h] res; EvLog (LogDecodeFailed res)])
| next_advanced h1 tr1 id n written old arr :
    samples h1 tr1 id n written ->
    no_stop_word n written ->
    llama_vocab_is_eog E id = false ->
    slots (batch h) = Some (old :: arr) ->
    llama_decode E (tr1 ++ [EvSample id] ++ piece_log n id)
      [next_entry id h] = 0 ->
    next_outcome n (shown n written)
      (set_n_gen
         (set_n_cur
            (set_batch h1 (mkBatch 1 (Some (next_entry id h :: arr))))
            (int_add (n_cur h) 1))
         (int_add (n_gen h) 1))
      (tr1 ++ [EvSample id] ++ piece_log n id
           ++ [EvDecode [next_entry id h] 0]).
End Paths.

(** The number of tokens of a prompt, as [wrapper_prepare_prompt]
    tokenises it. *)
Definition prompt_tokens (E : Engine) (prompt : string) : list llama_token :=
  vocab_tokenize E prompt true true.

Definition token_count (E : Engine) (prompt : string) : Z :=
  Z.of_nat (length (prompt_tokens E prompt)).

(** The trace at the start of the pre-fill loop. *)
Definition prepare_prefix (E : Engine) (tr : Trace) (prompt : string)
    : Trace :=
  (tr ++ [EvLog LogPrepareClearing; EvMemoryClear;
          EvLog LogPrepareTokenizing])
  ++ [EvLog (LogPrepareNTokens (token_count E prompt))].

(** What holds of every world a host can bring about: null is no
    address of the heap, addresses are handed out in increasing order, and
    every live handle is initialised with sound counters. *)
Definition world_ok (w : World) : Prop :=
  (0 < next_addr w)%N /\
  forall p h, heap w !! p = Some h ->
    (0 < p < next_addr w)%N /\ initialised h /\ counters_ok h.

(** A sequence of calls from a given world. *)
Fixpoint run_calls (E : Engine) (w : World) (calls : list Call)
    : Outcome World :=
  match calls with
  | [] => Ret w
  | c :: rest =>
      match step E w c with
      | Ret w1 => run_calls E w1 rest
      | other => other
      end
  end.

(** The toy session: a 256-token window, a three-token prompt pre-filled
    into the handle at address 1. *)
Definition toy_calls : list Call :=
  [ CallInit "model.gguf" 256 4 true; CallPrepare 1 (prompt_of_length 3) ].

Definition world_of (o : Outcome World) : World :=
  match o with Ret w => w | _ => empty_world end.

Definition toy_world (E : Engine) : World :=
  world_of (run_calls E empty_world toy_calls).

Definition handle_at (w : World) (p : N) : LlamaHandle :=
  default new_LlamaHandle (heap w !! p).

(** The number of submissions the engine accepted in a stretch of the
    trace. *)
Fixpoint accepted_decodes (evs : Trace) : Z :=
  match evs with
  | [] => 0
  | EvDecode _ res :: rest =>
      (if res =? 0 then 1 else 0) + accepted_decodes rest
  | _ :: rest => accepted_decodes rest
  end.

(** Decoding never fails; building a sampler chain never fails. *)
Definition decode_reliable (E : Engine) : Prop :=
  forall t b, llama_decode E t b = 0.

Definition sampler_reliable (E : Engine) : Prop :=
  forall t, chain_init_ok E t = true.

(** [marker] is a substring of [text]. *)
Definition occurs_in (marker text : string) : Prop :=
  exists pre post, text = String.append pre (String.append marker post).

Definition is_decode (e : Event) : bool :=
  match e with EvDecode _ _ => true | _ => false end.

Definition is_sample (e : Event) : bool :=
  match e with EvSample _ => true | _ => false end.

(** The last thing the call did was to log [m]. *)
Definition stopped_by (m : LogMsg) (before after : Trace) : Prop :=
  exists evs, after = before ++ evs ++ [EvLog m].

(** The log lines of the four stop paths: context exhaustion, length
    limit, stop word, end-of-generation token. *)
Definition is_stop_log (m : LogMsg) : bool :=
  match m with
  | LogContextFull _ _ | LogMaxNewTokens | LogStopSequence | LogEOS => true
  | _ => false
  end.

(** The stops that come after a token was drawn. *)
Definition is_sampled_stop (m : LogMsg) : bool :=
  match m with
  | LogStopSequence | LogEOS => true
  | _ => false
  end.

(** ** Vocabulary of the properties of the remaining code *)

(** How many events of a stretch of the trace satisfy [f]. *)
Fixpoint count_if (f : Event -> bool) (evs : Trace) : nat :=
  match evs with
  | [] => O
  | e :: rest => if f e then S (count_if f rest) else count_if f rest
  end.

Definition is_memory_clear (e : Event) : bool :=
  match e with EvMemoryClear => true | _ => false end.

Definition is_backend_init (e : Event) : bool :=
  match e with EvBackendInit => true | _ => false end.

Definition is_backend_free (e : Event) : bool :=
  match e with EvBackendFree => true | _ => false end.

(** [llama_init_from_model] is called exactly when a model was loaded,
    and [llama_batch_init] exactly when a context was created. *)
Definition is_model_loaded (e : Event) : bool :=
  match e with EvInitFromModel _ _ _ _ => true | _ => false end.

Definition is_context_created (e : Event) : bool :=
  match e with EvBatchInit _ => true | _ => false end.

Definition is_model_free (e : Event) : bool :=
  match e with EvModelFree => true | _ => false end.

Definition is_context_free (e : Event) : bool :=
  match e with EvContextFree => true | _ => false end.

Definition is_batch_free (e : Event) : bool :=
  match e with EvBatchFree => true | _ => false end.

Definition is_delete (e : Event) : bool :=
  match e with EvDelete _ => true | _ => false end.

Definition is_sampler_free (e : Event) : bool :=
  match e with EvSamplerFree => true | _ => false end.

(** The last stage of a pipeline is added exactly when its construction
    succeeded. *)
Definition is_sampler_built (e : Event) : bool :=
  match e with EvSamplerChainAdd (Dist _) => true | _ => false end.

(** The handles of the heap that hold a sampler. *)
Definition with_sampler (m : gmap N LlamaHandle) : gmap N LlamaHandle :=
  filter (fun kv => non_null (smpl kv.2) = true) m.

(** The submissions of a stretch of the trace, with their return codes. *)
Definition decode_batches (evs : Trace) : list (list BatchEntry * Z) :=
  omap (fun e => match e with
                 | EvDecode entries res => Some (entries, res)
                 | _ => None
                 end) evs.

(** A well-formed pre-fill chunk: between one and [size] entries of
    sequence 0, of which the last one alone asks for logits. *)
Definition chunk_ok (size : Z) (entries : list BatchEntry) : Prop :=
  1 <= Z.of_nat (length entries) <= size /\
  map logits entries = replicate (pred (length entries)) false ++ [true] /\
  Forall (fun e => n_seq_id e = 1 /\ seq_id e = 0) entries.

(** The entries the context was given and accepted since its memory was
    last cleared, after [acc]. *)
Fixpoint accepted_entries_from (acc : list BatchEntry) (evs : Trace)
    : list BatchEntry :=
  match evs with
  | [] => acc
  | EvMemoryClear :: rest => accepted_entries_from [] rest
  | EvDecode entries res :: rest =>
      accepted_entries_from (if res =? 0 then acc ++ entries else acc) rest
  | _ :: rest => accepted_entries_from acc rest
  end.

Definition accepted_entries (tr : Trace) : list BatchEntry :=
  accepted_entries_from [] tr.

(** Entry [j] of the chunk that starts at prompt index [i] with the
    cursor at [cur] and holds [n_eval] entries. *)
Definition chunk_entry (tokens : list llama_token) (i cur n_eval j : Z)
    : BatchEntry :=
  {| token := nth (Z.to_nat (i + j)) tokens 0; pos := cur + j;
     n_seq_id := 1; seq_id := 0; logits := j =? n_eval - 1 |}.

(** Token and position of an entry. *)
Definition placed (e : BatchEntry) : llama_token * Z := (token e, pos e).

(** The events by which the wrapper acquires or releases something of
    the runtime, and the two log lines of a failed [wrapper_init]. *)
Definition is_init_failure (e : Event) : bool :=
  match e with
  | EvLog LogInitModelFailed | EvLog LogInitContextFailed => true
  | _ => false
  end.

Definition is_ledger_event (e : Event) : bool :=
  match e with
  | EvBackendInit | EvInitFromModel _ _ _ _ | EvBatchInit _
  | EvSamplerFree | EvSamplerChainAdd _ | EvBatchFree | EvContextFree
  | EvModelFree | EvBackendFree | EvDelete _ => true
  | other => is_init_failure other
  end.

(** Whether a handle holds a sampler, as a number. *)
Definition held_sampler (h : LlamaHandle) : nat :=
  if non_null (smpl h) then 1%nat else 0%nat.

(** Every acquisition in [tr] is matched by a release in [tr] or by one
    of the [held] things. *)
Definition balanced (acquire release : Event -> bool) (tr : Trace)
    (held : nat) : Prop :=
  count_if acquire tr = (count_if release tr + held)%nat.

(** The books of a world: models, contexts, batch arrays, handle objects
    and samplers are each released or held by a live handle; the backend
    is initialised once per live handle, per release and per failed
    [wrapper_init]. *)
Definition resources_balanced (w : World) : Prop :=
  balanced is_model_loaded is_model_free (trace w) (size (heap w)) /\
  balanced is_context_created is_context_free (trace w) (size (heap w)) /\
  balanced is_context_created is_batch_free (trace w) (size (heap w)) /\
  balanced is_context_created is_delete (trace w) (size (heap w)) /\
  balanced is_sampler_built is_sampler_free (trace w)
    (size (with_sampler (heap w))) /\
  count_if is_backend_init (trace w)
  = (count_if is_backend_free (trace w)
     + count_if is_init_failure (trace w) + size (heap w))%nat.

(** How many of the results of a run satisfy [f]. *)
Fixpoint count_results (f : Z -> bool) (rs : list Z) : Z :=
  match rs with
  | [] => 0
  | r :: rest => (if f r then 1 else 0) + count_results f rest
  end.

(** * Properties *)

(** ** Machine integers *)

Lemma wrap32_range (z : Z) : in_int (wrap32 z).
Proof.
  unfold in_int, wrap32, INT_MIN, INT_MAX.
  pose proof (Z.mod_pos_bound (z + 2147483648) 4294967296 eq_refl). lia.
Qed.

Lemma wrap32_id (z : Z) : in_int z -> wrap32 z = z.
Proof.
  unfold in_int, wrap32, INT_MIN, INT_MAX. intros Hz.
  rewrite Z.mod_small by lia. lia.
Qed.

Lemma int_add_id (a b : Z) : in_int (a + b) -> int_add a b = a + b.
Proof. apply wrap32_id. Qed.

Lemma int_sub_id (a b : Z) : in_int (a - b) -> int_sub a b = a - b.
Proof. apply wrap32_id. Qed.

(** ** Sampler cache *)

Lemma set_sampler_self (h : LlamaHandle) :
  set_sampler h (smpl h) (last_temp h) (last_top_p h) = h.
Proof. destruct h; reflexivity. Qed.

(** [ensure_sampler] writes [smpl], [last_temp] and [last_top_p] only. *)
Lemma ensure_sampler_handle E h tr temp top_p ok h1 tr1 :
  ensure_sampler E h tr temp top_p = (ok, h1, tr1) ->
  h1 = set_sampler h (smpl h1) (last_temp h1) (last_top_p h1).
Proof.
  unfold ensure_sampler. intros H.
  repeat match type of H with
         | context [if ?c then _ else _] => destruct c
         end; inversion H; subst; clear H; simpl;
    try reflexivity; symmetry; apply set_sampler_self.
Qed.

(** It extends the trace, with sampler events only. *)
Lemma ensure_sampler_trace E h tr temp top_p ok h1 tr1 :
  ensure_sampler E h tr temp top_p = (ok, h1, tr1) ->
  exists evs, tr1 = tr ++ evs /\ forallb is_sampler_event evs = true
              /\ forallb (fun e => negb (touches_context e)) evs = true.
Proof.
  unfold ensure_sampler. intros H.
  repeat match type of H with
         | context [if ?c then _ else _] => destruct c
         end; inversion H; subst; clear H;
    rewrite <- ?app_assoc; eexists; (split; [reflexivity | split; reflexivity]).
Qed.

(** A successful return leaves a pipeline in place. *)
Lemma ensure_sampler_ok E h tr temp top_p h1 tr1 :
  ensure_sampler E h tr temp top_p = (true, h1, tr1) ->
  non_null (smpl h1) = true.
Proof.
  unfold ensure_sampler. intros H.
  destruct (non_null (smpl h)) eqn:Hs; simpl in H;
    repeat match type of H with
           | context [if ?c then _ else _] => destruct c
           end; inversion H; subst; clear H; auto.
Qed.

(** ** The paths of [get_next_token] *)

Lemma set_sampler_fields h s t p :
  model (set_sampler h s t p) = model h /\
  ctx (set_sampler h s t p) = ctx h /\
  vocab (set_sampler h s t p) = vocab h /\
  batch (set_sampler h s t p) = batch h /\
  n_cur (set_sampler h s t p) = n_cur h /\
  is_prepared (set_sampler h s t p) = is_prepared h /\
  batch_size (set_sampler h s t p) = batch_size h /\
  n_prompt (set_sampler h s t p) = n_prompt h /\
  n_gen (set_sampler h s t p) = n_gen h /\
  max_new_tokens (set_sampler h s t p) = max_new_tokens h.
Proof. repeat split. Qed.

(** Everything but the sampler fields is as before [ensure_sampler]. *)
Lemma ensure_sampler_fields E h tr temp top_p ok h1 tr1 :
  ensure_sampler E h tr temp top_p = (ok, h1, tr1) ->
  model h1 = model h /\ ctx h1 = ctx h /\ vocab h1 = vocab h /\
  batch h1 = batch h /\ n_cur h1 = n_cur h /\
  is_prepared h1 = is_prepared h /\ batch_size h1 = batch_size h /\
  n_prompt h1 = n_prompt h /\ n_gen h1 = n_gen h /\
  max_new_tokens h1 = max_new_tokens h.
Proof.
  intros H. apply ensure_sampler_handle in H. rewrite H.
  apply set_sampler_fields.
Qed.

Lemma get_next_token_paths E h tr temp top_p size r out h' tr' :
  get_next_token E h tr temp top_p size = Ret (r, out, h', tr') ->
  next_outcome E h tr temp top_p size r out h' tr'.
Proof.
  unfold get_next_token.
  destruct (is_prepared h) eqn:Hp; simpl.
  2:{ intros H; inversion H; subst. now constructor. }
  destruct (ensure_sampler E h tr temp top_p) as [[ok h1] tr1] eqn:Hes.
  pose proof (ensure_sampler_fields _ _ _ _ _ _ _ _ Hes)
    as (_ & Hc & Hv & Hb & Hcur & _ & _ & _ & Hgen & Hmax).
  destruct ok; simpl.
  2:{ intros H; inversion H; subst. now constructor. }
  rewrite Hc, Hv, Hcur, Hgen, Hmax, Hb.
  destruct (ctx h) eqn:Hctx; simpl; [|discriminate].
  destruct (Z.geb_spec (n_cur h) (int_sub (wrap32 (llama_n_ctx E)) 4))
    as [Hfull | Hroom].
  { intros H; inversion H; subst. constructor; auto; lia. }
  destruct (Z.geb_spec (n_gen h) (max_new_tokens h)) as [Hmaxed | Hleft].
  { intros H; inversion H; subst. constructor; auto; lia. }
  destruct (vocab h) eqn:Hvoc; simpl; [|discriminate].
  destruct (llama_token_to_piece E (llama_sampler_sample E tr1)
              (int_sub size 1)) as [n written] eqn:Hpiece.
  assert (Hs : samples E h tr temp top_p size h1 tr1
                 (llama_sampler_sample E tr1) n written).
  { unfold samples; repeat split; auto. }
  destruct ((n >? 0) && stop_word_found (c_str written)) eqn:Hstop.
  { apply andb_true_iff in Hstop as [Hn Hw]. rewrite Hn.
    intros H; inversion H; subst. rewrite <- app_assoc.
    eapply next_stop_word; eauto. lia. }
  assert (Hns : no_stop_word n written).
  { unfold no_stop_word. apply andb_false_iff in Hstop as [Hn | Hw]; auto.
    left. lia. }
  assert (Htr : (if n >? 0 then tr1 ++ [EvSample (llama_sampler_sample E tr1)]
                 else (tr1 ++ [EvSample (llama_sampler_sample E tr1)])
                        ++ [EvLog (LogEmptyPiece (llama_sampler_sample E tr1))])
                = tr1 ++ [EvSample (llama_sampler_sample E tr1)]
                      ++ piece_log n (llama_sampler_sample E tr1)).
  { unfold piece_log. destruct (n >? 0); rewrite <- ?app_assoc;
      simpl; rewrite ?app_nil_r; reflexivity. }
  rewrite Htr. clear Htr.
  destruct (llama_vocab_is_eog E (llama_sampler_sample E tr1)) eqn:Heog.
  { intros H; inversion H; subst. rewrite <- !app_assoc.
    eapply next_eog; eauto. }
  destruct (slots (batch h)) as [[|old arr]|] eqn:Hslots; try discriminate.
  unfold submitted; simpl. fold (next_entry (llama_sampler_sample E tr1) h).
  destruct (llama_decode E _ _ =? 0) eqn:Hres; simpl.
  - apply Z.eqb_eq in Hres. intros H; inversion H; subst.
    rewrite <- !app_assoc. simpl.
    replace (next_entry (llama_sampler_sample E tr1) h1)
      with (next_entry (llama_sampler_sample E tr1) h)
      by (unfold next_entry; now rewrite Hcur).
    rewrite Hres.
    eapply next_advanced; eauto.
  - apply Z.eqb_neq in Hres. intros H; inversion H; subst.
    rewrite <- !app_assoc. simpl.
    eapply next_decode_failed; eauto.
Qed.

Lemma piece_trace (n : Z) (id : llama_token) (tr1 : Trace) :
  (if n >? 0 then tr1 ++ [EvSample id]
   else (tr1 ++ [EvSample id]) ++ [EvLog (LogEmptyPiece id)])
  = tr1 ++ [EvSample id] ++ piece_log n id.
Proof.
  unfold piece_log. destruct (n >? 0); rewrite <- ?app_assoc; simpl;
    rewrite ?app_nil_r; reflexivity.
Qed.

Lemma no_stop_word_test (n : Z) (written : string) :
  no_stop_word n written ->
  (n >? 0) && stop_word_found (c_str written) = false.
Proof.
  intros [Hn | Hw]; apply andb_false_iff; [left; lia | now right].
Qed.

(** Conversely, each path is a run of the function. *)
Lemma paths_get_next_token E h tr temp top_p size r out h' tr' :
  next_outcome E h tr temp top_p size r out h' tr' ->
  get_next_token E h tr temp top_p size = Ret (r, out, h', tr').
Proof.
  unfold get_next_token.
  intros [ Hp
         | h1 tr1 Hp Hes
         | h1 tr1 Hp Hes Hc Hfull
         | h1 tr1 Hp Hes Hc Hroom Hmaxed
         | h1 tr1 id n written Hs Hn Hw
         | h1 tr1 id n written Hs Hns Heog
         | h1 tr1 id n written old arr res Hs Hns Heog Hslots Hres Hne
         | h1 tr1 id n written old arr Hs Hns Heog Hslots Hres ].
  - now rewrite Hp.
  - now rewrite Hp, Hes.
  - rewrite Hp, Hes; simpl.
    pose proof (ensure_sampler_fields _ _ _ _ _ _ _ _ Hes)
      as (_ & Hc1 & Hv1 & _ & Hcur & _).
    rewrite Hc1, Hc, Hcur; simpl.
    destruct (Z.geb_spec (n_cur h) (int_sub (wrap32 (llama_n_ctx E)) 4));
      [reflexivity | lia].
  - rewrite Hp, Hes; simpl.
    pose proof (ensure_sampler_fields _ _ _ _ _ _ _ _ Hes)
      as (_ & Hc1 & Hv1 & _ & Hcur & _ & _ & _ & Hgen & Hmax).
    rewrite Hc1, Hc, Hcur, Hgen, Hmax; simpl.
    destruct (Z.geb_spec (n_cur h) (int_sub (wrap32 (llama_n_ctx E)) 4));
      [lia |].
    destruct (Z.geb_spec (n_gen h) (max_new_tokens h)); [reflexivity | lia].
  - destruct Hs as (Hp & Hes & Hc & Hv & Hroom & Hleft & Hid & Hpiece).
    rewrite Hp, Hes; simpl.
    pose proof (ensure_sampler_fields _ _ _ _ _ _ _ _ Hes)
      as (_ & Hc1 & Hv1 & _ & Hcur & _ & _ & _ & Hgen & Hmax).
    rewrite Hc1, Hv1, Hc, Hv, Hcur, Hgen, Hmax; simpl.
    destruct (Z.geb_spec (n_cur h) (int_sub (wrap32 (llama_n_ctx E)) 4));
      [lia |].
    destruct (Z.geb_spec (n_gen h) (max_new_tokens h)); [lia |].
    rewrite <- Hid, Hpiece, Hw.
    replace (n >? 0) with true by lia. simpl.
    now rewrite <- app_assoc.
  - destruct Hs as (Hp & Hes & Hc & Hv & Hroom & Hleft & Hid & Hpiece).
    rewrite Hp, Hes; simpl.
    pose proof (ensure_sampler_fields _ _ _ _ _ _ _ _ Hes)
      as (_ & Hc1 & Hv1 & _ & Hcur & _ & _ & _ & Hgen & Hmax).
    rewrite Hc1, Hv1, Hc, Hv, Hcur, Hgen, Hmax; simpl.
    destruct (Z.geb_spec (n_cur h) (int_sub (wrap32 (llama_n_ctx E)) 4));
      [lia |].
    destruct (Z.geb_spec (n_gen h) (max_new_tokens h)); [lia |].
    rewrite <- Hid, Hpiece, (no_stop_word_test _ _ Hns), piece_trace, Heog.
    now rewrite <- !app_assoc.
  - destruct Hs as (Hp & Hes & Hc & Hv & Hroom & Hleft & Hid & Hpiece).
    rewrite Hp, Hes; simpl.
    pose proof (ensure_sampler_fields _ _ _ _ _ _ _ _ Hes)
      as (_ & Hc1 & Hv1 & Hb & Hcur & _ & _ & _ & Hgen & Hmax).
    rewrite Hc1, Hv1, Hc, Hv, Hcur, Hgen, Hmax, Hb; simpl.
    destruct (Z.geb_spec (n_cur h) (int_sub (wrap32 (llama_n_ctx E)) 4));
      [lia |].
    destruct (Z.geb_spec (n_gen h) (max_new_tokens h)); [lia |].
    rewrite <- Hid, Hpiece, (no_stop_word_test _ _ Hns), piece_trace, Heog.
    rewrite Hslots. unfold submitted; simpl. rewrite ?Hcur, take_0.
    fold (next_entry id h). simpl in Hres. rewrite <- Hres.
    replace (res =? 0) with false by (symmetry; now apply Z.eqb_neq).
    simpl. now rewrite <- !app_assoc.
  - destruct Hs as (Hp & Hes & Hc & Hv & Hroom & Hleft & Hid & Hpiece).
    rewrite Hp, Hes; simpl.
    pose proof (ensure_sampler_fields _ _ _ _ _ _ _ _ Hes)
      as (_ & Hc1 & Hv1 & Hb & Hcur & _ & _ & _ & Hgen & Hmax).
    rewrite Hc1, Hv1, Hc, Hv, Hcur, Hgen, Hmax, Hb; simpl.
    destruct (Z.geb_spec (n_cur h) (int_sub (wrap32 (llama_n_ctx E)) 4));
      [lia |].
    destruct (Z.geb_spec (n_gen h) (max_new_tokens h)); [lia |].
    rewrite <- Hid, Hpiece, (no_stop_word_test _ _ Hns), piece_trace, Heog.
    rewrite Hslots. unfold submitted; simpl. rewrite ?Hcur, take_0.
    fold (next_entry id h). simpl in Hres. rewrite Hres. simpl.
    now rewrite <- !app_assoc.
Qed.

(** ** Pre-fill *)

(** Filling a chunk keeps the arrays' size. *)
Lemma fill_chunk_slots tokens i cur n_eval k : forall j b b',
  fill_chunk tokens i cur n_eval k j b = Some b' ->
  length <$> slots b' = length <$> slots b.
Proof.
  induction k as [|k IH]; simpl; intros j b b' H.
  - now inversion H.
  - destruct (slots b) as [arr|] eqn:Hs; [|discriminate].
    destruct ((0 <=? j) && (j <? Z.of_nat (length arr))); [|discriminate].
    apply IH in H. rewrite H. simpl. now rewrite length_insert.
Qed.

(** It cannot write out of bounds while the indices fit the arrays. *)
Lemma fill_chunk_defined tokens i cur n_eval k : forall j b arr,
  slots b = Some arr ->
  0 <= j -> j + Z.of_nat k <= Z.of_nat (length arr) ->
  Z.of_nat (length arr) <= 128 ->
  exists b', fill_chunk tokens i cur n_eval k j b = Some b'.
Proof.
  induction k as [|k IH]; simpl; intros j b arr Hs Hj Hk Hcap.
  - eauto.
  - rewrite Hs.
    replace ((0 <=? j) && (j <? Z.of_nat (length arr))) with true
      by (symmetry; apply andb_true_iff; split; lia).
    rewrite int_add_id by (unfold in_int, INT_MIN, INT_MAX; lia).
    eapply IH; simpl; eauto; rewrite ?length_insert; lia.
Qed.

(** The loop writes the batch and the cursor, nothing else, and extends
    the trace. *)
Lemma prefill_frame E fuel tokens n_tok : forall i h tr ok h' tr',
  prefill E fuel tokens n_tok i h tr = Ret (ok, h', tr') ->
  h' = set_n_cur (set_batch h (batch h')) (n_cur h') /\
  capacity h' = capacity h /\
  (in_int (n_cur h) -> in_int (n_cur h')) /\
  exists evs, tr' = tr ++ evs.
Proof.
  induction fuel as [|fuel IH]; simpl; intros i h tr ok h' tr' H;
    [discriminate|].
  destruct (i <? n_tok).
  2:{ inversion H; subst. split; [|split; [|split]]; auto.
      - destruct h'; reflexivity.
      - exists []. now rewrite app_nil_r. }
  match type of H with
  | context [fill_chunk ?a ?b ?c ?d ?e ?f ?g] =>
      destruct (fill_chunk a b c d e f g) as [b1|] eqn:Hfill
  end; [|discriminate].
  apply fill_chunk_slots in Hfill. simpl in Hfill.
  match type of H with
  | context [negb ?c] => destruct c
  end; simpl in H.
  - apply IH in H as (Hh & Hcap & Hint & evs & Htr).
    split; [|split; [|split]].
    + rewrite Hh. destruct h; reflexivity.
    + rewrite Hcap. unfold capacity. simpl.
      destruct (slots b1), (slots (batch h)); simpl in *; congruence.
    + intros _. apply Hint. simpl. apply wrap32_range.
    + rewrite Htr, <- !app_assoc. eauto.
  - inversion H; subst. split; [|split; [|split]].
    + destruct h; reflexivity.
    + unfold capacity. simpl.
      destruct (slots b1), (slots (batch h)); simpl in *; congruence.
    + auto.
    + rewrite <- !app_assoc. eauto.
Qed.

(** With a positive batch size and arrays of that size the loop returns
    within [n_tok + 1] rounds, and the cursor ends at the number of
    tokens consumed. *)
Lemma prefill_runs E fuel tokens n_tok : forall i h tr,
  1 <= batch_size h <= 128 ->
  capacity h = Some (Z.to_nat (batch_size h)) ->
  0 <= i -> n_tok <= INT_MAX - 128 ->
  n_cur h = Z.min i n_tok ->
  (Z.to_nat (n_tok - i) < fuel)%nat ->
  exists ok h' tr',
    prefill E fuel tokens n_tok i h tr = Ret (ok, h', tr') /\
    n_cur h <= n_cur h' <= Z.max (n_cur h) n_tok /\
    (ok = true -> n_cur h' = Z.max (n_cur h) n_tok) /\
    ((forall t b, llama_decode E t b = 0) -> ok = true).
Proof.
  induction fuel as [|fuel IH]; simpl; intros i h tr Hbs Hcap Hi Hn Hcur Hf;
    [lia|].
  destruct (Z.ltb_spec i n_tok) as [Hlt | Hge].
  2:{ exists true, h, tr. repeat split; auto; lia. }
  assert (Hsub : int_sub n_tok i = n_tok - i)
    by (apply int_sub_id; unfold in_int, INT_MIN, INT_MAX in *; lia).
  rewrite Hsub.
  set (n_eval := if n_tok - i >? batch_size h then batch_size h
                 else n_tok - i).
  assert (Heval : 0 < n_eval <= batch_size h /\ n_eval <= n_tok - i).
  { unfold n_eval. destruct (Z.gtb_spec (n_tok - i) (batch_size h)); lia. }
  unfold capacity in Hcap.
  destruct (slots (batch h)) as [arr|] eqn:Hslots; [|discriminate].
  injection Hcap as Hcap.
  destruct (fill_chunk_defined tokens i (n_cur h) n_eval (Z.to_nat n_eval) 0
              (mkBatch 0 (Some arr)) arr eq_refl) as [b1 Hfill]; try lia.
  rewrite Hfill.
  pose proof (fill_chunk_slots _ _ _ _ _ _ _ _ Hfill) as Hlen.
  simpl in Hlen.
  assert (Hadd : int_add (n_cur h) n_eval = n_cur h + n_eval)
    by (apply int_add_id; unfold in_int, INT_MIN, INT_MAX in *; lia).
  assert (Hnext : int_add i (batch_size h) = i + batch_size h)
    by (apply int_add_id; unfold in_int, INT_MIN, INT_MAX in *; lia).
  match goal with
  | |- context [negb ?c] => destruct c eqn:Hres
  end; simpl.
  - rewrite Hadd, Hnext.
    match goal with
    | |- context [prefill E fuel tokens n_tok ?i' ?h1 ?t1] =>
        destruct (IH i' h1 t1) as (ok & h' & tr' & Hrun & Hb & Hok & Hall)
    end; simpl; auto; try lia.
    { unfold capacity; simpl. destruct (slots b1); simpl in *; [|discriminate].
      f_equal. injection Hlen as ->. exact Hcap. }
    { unfold n_eval. destruct (Z.gtb_spec (n_tok - i) (batch_size h)); lia. }
    simpl in *. exists ok, h', tr'. repeat split; auto; try lia.
    intros Hy. rewrite (Hok Hy). lia.
  - eexists false, _, _. split; [reflexivity|]. simpl.
    split; [lia|]. split; [discriminate|].
    intros Hall. rewrite Hall in Hres. discriminate.
Qed.

(** ** Prepare *)

(** Two attempts always end with the full tokenisation. *)
Lemma tokenize_two_phase_full E text cap a p :
  tokenize_two_phase E text cap a p
  = (Z.of_nat (length (vocab_tokenize E text a p)), vocab_tokenize E text a p).
Proof.
  unfold tokenize_two_phase, llama_tokenize.
  set (toks := vocab_tokenize E text a p).
  destruct (Z.leb_spec (Z.of_nat (length toks)) cap) as [Hfit | Hsmall].
  - replace (Z.of_nat (length toks) <? 0) with false by (symmetry; lia).
    reflexivity.
  - destruct (Z.ltb_spec (- Z.of_nat (length toks)) 0) as [Hneg | Hzero].
    + replace (Z.of_nat (length toks) <=? - - Z.of_nat (length toks))
        with true by (symmetry; lia).
      reflexivity.
    + assert (Hlen : length toks = 0%nat) by lia.
      rewrite Hlen. destruct toks; [reflexivity | discriminate].
Qed.

(** The three ways [prepare_prompt] returns. *)
Lemma prepare_prompt_cases E h tr prompt ok h' tr' :
  prepare_prompt E h tr prompt = Ret (ok, h', tr') ->
  let T := token_count E prompt in
  let C := wrap32 (llama_n_ctx E) in
  ctx h = true /\ vocab h = true /\
  ((int_sub C 128 <= T /\ ok = false /\ h' = set_is_prepared h false /\
    tr' = prepare_prefix E tr prompt ++ [EvLog (LogPromptTooLong T C 128)])
   \/
   (T < int_sub C 128 /\
    exists okp hp trp,
      prefill E (S (Z.to_nat T)) (prompt_tokens E prompt) T 0
        (set_n_cur (set_is_prepared h false) 0) (prepare_prefix E tr prompt)
      = Ret (okp, hp, trp) /\
      ((okp = false /\ ok = false /\ h' = hp /\ tr' = trp) \/
       (okp = true /\ ok = true /\
        h' = set_session hp (n_cur hp) 0
               (Z.max 16 (int_sub (int_sub C (n_cur hp)) 128)) true /\
        tr' = (if non_null (smpl hp) then trp ++ [EvSamplerReset] else trp)
              ++ [EvLog LogPrepareSuccess])))).
Proof.
  unfold prepare_prompt.
  change (ctx (set_is_prepared h false)) with (ctx h).
  change (vocab (set_is_prepared h false)) with (vocab h).
  destruct (ctx h) eqn:Hc; cbn [negb orb]; [|discriminate].
  destruct (vocab h) eqn:Hv; cbn [negb orb]; [|discriminate].
  rewrite tokenize_two_phase_full. cbv beta iota zeta.
  fold (prompt_tokens E prompt). fold (token_count E prompt).
  fold (prepare_prefix E tr prompt).
  replace (take (Z.to_nat (token_count E prompt)) (prompt_tokens E prompt))
    with (prompt_tokens E prompt)
    by (unfold token_count; now rewrite Nat2Z.id, firstn_all).
  intros H. split; [reflexivity|]. split; [reflexivity|].
  destruct (Z.geb_spec (token_count E prompt)
              (int_sub (wrap32 (llama_n_ctx E)) 128)) as [Hlong | Hfits].
  - left. inversion H; subst. repeat split; auto; lia.
  - right. split; [lia|].
    match type of H with
    | context [prefill ?a ?b ?c ?d ?e ?f ?g] =>
        destruct (prefill a b c d e f g) as [[[okp hp] trp]| |] eqn:Hpre
    end; try discriminate.
    exists okp, hp, trp. split; [reflexivity|].
    destruct okp; inversion H; subst; [right | left]; repeat split; auto.
Qed.

(** ** Accepted submissions *)

Lemma accepted_last (tr evs : Trace) :
  token_accepted tr (tr ++ evs)
  <-> exists entries, last evs = Some (EvDecode entries 0).
Proof.
  split.
  - intros (mid & entries & H). apply app_inv_head in H. subst evs.
    exists entries. apply last_snoc.
  - intros (entries & H). apply last_Some in H as [mid ->].
    now exists mid, entries.
Qed.

Lemma not_accepted_same (tr : Trace) : ~ token_accepted tr tr.
Proof.
  intros (mid & entries & H).
  rewrite <- (app_nil_r tr) in H at 1. apply app_inv_head in H.
  destruct mid; discriminate.
Qed.

(** Brings a goal about [token_accepted tr (tr ++ ...)] down to the last
    event of the extension. *)
Ltac trace_end :=
  rewrite <- ?app_assoc; unfold piece_log;
  repeat match goal with
         | |- context [if ?c then _ else _] => destruct c
         end;
  simpl; rewrite accepted_last, last_app_cons; simpl.

(** ** What a generation step does to the counters *)

Lemma get_next_token_counters E h tr temp top_p size r out h' tr' :
  get_next_token E h tr temp top_p size = Ret (r, out, h', tr') ->
  in_int (n_cur h) -> 0 <= n_gen h -> max_new_tokens h <= INT_MAX ->
  is_prepared h' = is_prepared h /\
  n_prompt h' = n_prompt h /\
  max_new_tokens h' = max_new_tokens h /\
  ((n_cur h' = n_cur h /\ n_gen h' = n_gen h /\ ~ token_accepted tr tr'
    /\ r <= 0) \/
   (n_cur h' = n_cur h + 1 /\ n_gen h' = n_gen h + 1 /\
    token_accepted tr tr' /\
    is_prepared h = true /\
    n_cur h < int_sub (wrap32 (llama_n_ctx E)) 4 /\
    n_gen h < max_new_tokens h)).
Proof.
  intros H Hcur Hgen Hmax. apply get_next_token_paths in H.
  destruct H as
    [ Hp
    | h1 tr1 Hp Hes
    | h1 tr1 Hp Hes Hc Hfull
    | h1 tr1 Hp Hes Hc Hroom Hmaxed
    | h1 tr1 id n written Hs Hn Hw
    | h1 tr1 id n written Hs Hns Heog
    | h1 tr1 id n written old arr res Hs Hns Heog Hslots Hres Hne
    | h1 tr1 id n written old arr Hs Hns Heog Hslots Hres ];
    try (destruct Hs as (Hp & Hes & Hc & Hv & Hroom & Hleft & Hid & Hpiece)).
  1:{ repeat split; auto. left. repeat split; auto; try lia.
      apply not_accepted_same. }
  all: pose proof (ensure_sampler_fields _ _ _ _ _ _ _ _ Hes)
      as (_ & _ & _ & _ & Hcur1 & Hp1 & _ & Hpr1 & Hgen1 & Hmax1);
    destruct (ensure_sampler_trace _ _ _ _ _ _ _ _ Hes)
      as (evs & -> & _ & _);
    simpl; (split; [exact Hp1|]); (split; [exact Hpr1|]);
    (split; [exact Hmax1|]).
  1-6: left; (split; [exact Hcur1|]); (split; [exact Hgen1|]);
    (split; [|lia]);
    trace_end; intros (entries & Hlast); congruence.
  right.
  assert (Hup : int_sub (wrap32 (llama_n_ctx E)) 4 <= INT_MAX)
    by apply wrap32_range.
  rewrite !int_add_id by (unfold in_int, INT_MIN, INT_MAX in *; lia).
  repeat split; auto; trace_end; eauto.
Qed.

(** ** What the calls leave alone *)

Lemma get_next_token_frame E h tr temp top_p size r out h' tr' :
  get_next_token E h tr temp top_p size = Ret (r, out, h', tr') ->
  model h' = model h /\ ctx h' = ctx h /\ vocab h' = vocab h /\
  batch_size h' = batch_size h /\ capacity h' = capacity h.
Proof.
  intros H. apply get_next_token_paths in H.
  destruct H as
    [ Hp
    | h1 tr1 Hp Hes
    | h1 tr1 Hp Hes Hc Hfull
    | h1 tr1 Hp Hes Hc Hroom Hmaxed
    | h1 tr1 id n written Hs Hn Hw
    | h1 tr1 id n written Hs Hns Heog
    | h1 tr1 id n written old arr res Hs Hns Heog Hslots Hres Hne
    | h1 tr1 id n written old arr Hs Hns Heog Hslots Hres ];
    try (destruct Hs as (Hp & Hes & Hc & Hv & Hroom & Hleft & Hid & Hpiece));
    [ now repeat split | .. ];
    pose proof (ensure_sampler_fields _ _ _ _ _ _ _ _ Hes)
      as (Hm1 & Hc1 & Hv1 & Hb1 & _ & _ & Hbs1 & _);
    unfold capacity; simpl; rewrite ?Hb1, ?Hslots; repeat split; auto.
Qed.

Lemma prefill_fields E fuel tokens n_tok i h tr ok h' tr' :
  prefill E fuel tokens n_tok i h tr = Ret (ok, h', tr') ->
  model h' = model h /\ ctx h' = ctx h /\ vocab h' = vocab h /\
  smpl h' = smpl h /\ is_prepared h' = is_prepared h /\
  batch_size h' = batch_size h /\ last_temp h' = last_temp h /\
  last_top_p h' = last_top_p h /\ n_prompt h' = n_prompt h /\
  n_gen h' = n_gen h /\ max_new_tokens h' = max_new_tokens h.
Proof.
  intros H. apply prefill_frame in H as (Hh & _). rewrite Hh.
  repeat split.
Qed.

Lemma prepare_prompt_frame E h tr prompt ok h' tr' :
  prepare_prompt E h tr prompt = Ret (ok, h', tr') ->
  in_int (n_cur h) ->
  model h' = model h /\ ctx h' = ctx h /\ vocab h' = vocab h /\
  batch_size h' = batch_size h /\ capacity h' = capacity h /\
  smpl h' = smpl h /\ last_temp h' = last_temp h /\
  last_top_p h' = last_top_p h /\
  in_int (n_cur h') /\
  (ok = false -> is_prepared h' = false /\ n_prompt h' = n_prompt h /\
                 n_gen h' = n_gen h /\
                 max_new_tokens h' = max_new_tokens h) /\
  (ok = true -> is_prepared h' = true /\ n_prompt h' = n_cur h' /\
                n_gen h' = 0 /\
                max_new_tokens h' =
                  Z.max 16 (int_sub (int_sub (wrap32 (llama_n_ctx E))
                                       (n_cur h')) 128) /\
                token_count E prompt < int_sub (wrap32 (llama_n_ctx E)) 128).
Proof.
  intros H Hcur.
  apply prepare_prompt_cases in H as (_ & _ & Hcases). cbv zeta in Hcases.
  destruct Hcases as
    [ (Hlong & -> & -> & ->)
    | (Hfits & okp & hp & trp & Hpre & Hend) ].
  { repeat split; auto; try discriminate; apply Hcur. }
  pose proof (prefill_fields _ _ _ _ _ _ _ _ _ _ Hpre)
    as (Hm & Hc & Hv & Hs & Hp & Hbs & Hlt & Hlp & Hpr & Hg & Hmx).
  apply prefill_frame in Hpre as (_ & Hcap & Hint & _).
  simpl in *.
  assert (Hint' : in_int (n_cur hp))
    by (apply Hint; unfold in_int, INT_MIN, INT_MAX; lia).
  destruct Hend as [ (-> & -> & -> & ->) | (-> & -> & -> & ->) ].
  - repeat split; auto; try discriminate; apply Hint'.
  - unfold capacity in *. simpl.
    repeat split; auto; try discriminate; apply Hint'.
Qed.

(** ** Invariants of the handle *)

Lemma get_next_token_initialised E h tr temp top_p size r out h' tr' :
  get_next_token E h tr temp top_p size = Ret (r, out, h', tr') ->
  initialised h -> initialised h'.
Proof.
  intros H (Hm & Hc & Hv & Hbs & Hcap). unfold initialised.
  apply get_next_token_frame in H as (-> & -> & -> & -> & ->).
  repeat split; auto; lia.
Qed.

Lemma get_next_token_counters_ok E h tr temp top_p size r out h' tr' :
  get_next_token E h tr temp top_p size = Ret (r, out, h', tr') ->
  counters_ok h -> counters_ok h'.
Proof.
  intros H (Hcur & Hgen & Hmax & Hsum).
  destruct (get_next_token_counters _ _ _ _ _ _ _ _ _ _ H)
    as (Hp & Hpr & Hmx
        & [ (Hc & Hg & _ & _) | (Hc & Hg & _ & _ & Hroom & Hleft) ]);
    try lia; auto.
  - unfold counters_ok. rewrite Hp, Hpr, Hmx, Hc, Hg. auto.
  - unfold counters_ok. rewrite Hp, Hpr, Hmx, Hc, Hg.
    pose proof (wrap32_range (wrap32 (llama_n_ctx E) - 4)) as Hr.
    unfold int_sub in Hroom. unfold in_int, INT_MIN, INT_MAX in *.
    repeat split; try lia. intros Hy. specialize (Hsum Hy). lia.
Qed.

Lemma prepare_prompt_initialised E h tr prompt ok h' tr' :
  prepare_prompt E h tr prompt = Ret (ok, h', tr') ->
  in_int (n_cur h) -> initialised h -> initialised h'.
Proof.
  intros H Hcur (Hm & Hc & Hv & Hbs & Hcap). unfold initialised.
  apply prepare_prompt_frame in H as (-> & -> & -> & -> & -> & _);
    [repeat split; auto; lia | exact Hcur].
Qed.

Lemma prepare_prompt_counters_ok E h tr prompt ok h' tr' :
  prepare_prompt E h tr prompt = Ret (ok, h', tr') ->
  counters_ok h -> counters_ok h'.
Proof.
  intros H (Hcur & Hgen & Hmax & Hsum).
  apply prepare_prompt_frame in H
    as (_ & _ & _ & _ & _ & _ & _ & _ & Hint & Hno & Hyes); auto.
  destruct ok.
  - destruct (Hyes eq_refl) as (Hp & Hpr & Hg & Hmx & _).
    unfold counters_ok. rewrite Hp, Hpr, Hg, Hmx.
    set (L := int_sub (int_sub (wrap32 (llama_n_ctx E)) (n_cur h')) 128).
    assert (Hr : in_int L) by apply wrap32_range.
    unfold in_int, INT_MIN, INT_MAX in *.
    repeat split; lia.
  - destruct (Hno eq_refl) as (Hp & Hpr & Hg & Hmx).
    unfold counters_ok. rewrite Hp, Hg, Hmx.
    repeat split; auto; try lia; try apply Hint; discriminate.
Qed.

(** ** Invariants of the world *)

(** [wrapper_init] returns null and leaves the heap alone, or returns the
    next address, bound to a fresh handle with between 1 and 128 batch
    slots. *)
Lemma wrapper_init_cases E w path c t m :
  (exists tr, wrapper_init E w path c t m
              = Ret (null, mkWorld (heap w) (next_addr w) tr))
  \/
  (exists size tr,
     1 <= size <= 128 /\
     wrapper_init E w path c t m
     = Ret (next_addr w,
            mkWorld
              (<[next_addr w :=
                   mkHandle true true true (llama_batch_init size) None 0
                     false size f_minus_one f_minus_one 0 0 128]> (heap w))
              (N.succ (next_addr w)) tr)).
Proof.
  unfold wrapper_init.
  destruct (model_load_ok E _ path); cbn [negb]; [|left; eauto].
  destruct (context_init_ok E _); cbn [negb]; [|left; eauto].
  right. eexists _, _. split; [|reflexivity].
  destruct (Z.gtb_spec c 0); lia.
Qed.

Lemma step_ok E w c w' :
  world_ok w -> step E w c = Ret w' -> world_ok w'.
Proof.
  intros (Hnext & Hlive) Hstep.
  destruct c as [path c t m | p text | p prompt | p temp top_p size | p];
    cbn [step] in Hstep.
  - destruct (wrapper_init_cases E w path c t m)
      as [ (tr & Hinit) | (size & tr & Hsize & Hinit) ];
      rewrite Hinit in Hstep;
      cbn [after] in Hstep; inversion Hstep; subst; clear Hstep;
      split; simpl; auto; try lia.
    intros p h Hp. destruct (decide (p = next_addr w)) as [-> | Hne].
    + rewrite lookup_insert_eq in Hp. inversion Hp; subst; clear Hp.
      split; [lia|]. split.
      * unfold initialised, capacity, llama_batch_init;
          cbn [model ctx vocab batch_size batch slots].
        rewrite length_replicate. repeat split; auto; lia.
      * unfold counters_ok, in_int, INT_MIN, INT_MAX;
          cbn [n_cur n_gen max_new_tokens is_prepared n_prompt].
        repeat split; try lia; discriminate.
    + rewrite lookup_insert_ne in Hp by auto.
      destruct (Hlive p h Hp) as (Hr & Hi & Hc). split; [lia | auto].
  - unfold wrapper_tokenize in Hstep.
    destruct (N.eqb p null); [inversion Hstep; subst; now split|].
    destruct (heap w !! p); [|discriminate].
    destruct (tokenize E l text); inversion Hstep; subst. now split.
  - unfold wrapper_prepare_prompt in Hstep.
    destruct (N.eqb p null); [inversion Hstep; subst; now split|].
    destruct (heap w !! p) as [h|] eqn:Hp; [|discriminate].
    destruct (prepare_prompt E h (trace w) prompt) as [[[ok h'] tr']| |] eqn:Hrun;
      inversion Hstep; subst; clear Hstep.
    destruct (Hlive p h Hp) as (Hr & Hi & Hc).
    split; simpl; auto. intros q hq Hq.
    destruct (decide (q = p)) as [-> | Hne].
    + rewrite lookup_insert_eq in Hq. inversion Hq; subst; clear Hq.
      split; auto. split.
      * eapply prepare_prompt_initialised; eauto. apply Hc.
      * eapply prepare_prompt_counters_ok; eauto.
    + rewrite lookup_insert_ne in Hq by auto. auto.
  - unfold wrapper_get_next_token in Hstep.
    destruct (N.eqb p null); [inversion Hstep; subst; now split|].
    destruct (heap w !! p) as [h|] eqn:Hp; [|discriminate].
    destruct (get_next_token E h (trace w) temp top_p size)
      as [[[[r out] h'] tr']| |] eqn:Hrun;
      inversion Hstep; subst; clear Hstep.
    destruct (Hlive p h Hp) as (Hr & Hi & Hc).
    split; simpl; auto. intros q hq Hq.
    destruct (decide (q = p)) as [-> | Hne].
    + rewrite lookup_insert_eq in Hq. inversion Hq; subst; clear Hq.
      split; auto. split.
      * eapply get_next_token_initialised; eauto.
      * eapply get_next_token_counters_ok; eauto.
    + rewrite lookup_insert_ne in Hq by auto. auto.
  - unfold wrapper_free in Hstep.
    destruct (N.eqb p null); [inversion Hstep; subst; now split|].
    destruct (heap w !! p) as [h|] eqn:Hp; [|discriminate].
    inversion Hstep; subst; clear Hstep. split; simpl; auto.
    intros q hq Hq. apply lookup_delete_Some in Hq as [_ Hq]. auto.
Qed.

Lemma reachable_ok E w : reachable E w -> world_ok w.
Proof.
  induction 1 as [| w c w' _ IH Hstep].
  - split; simpl; [lia|]. intros p h Hp. rewrite lookup_empty in Hp.
    discriminate.
  - eapply step_ok; eauto.
Qed.

Lemma run_calls_reachable E calls : forall w w',
  reachable E w -> run_calls E w calls = Ret w' -> reachable E w'.
Proof.
  induction calls as [|c rest IH]; simpl; intros w w' Hw H.
  - inversion H; subst; assumption.
  - destruct (step E w c) as [w1| |] eqn:Hstep; try discriminate.
    apply (IH w1); [|exact H]. eapply reachable_step; eauto.
Qed.

(** ** The C interface on a live handle *)

Lemma wrapper_get_next_token_live E w p h temp top_p size :
  p <> null -> heap w !! p = Some h ->
  wrapper_get_next_token E w p temp top_p size
  = match get_next_token E h (trace w) temp top_p size with
    | Ret (r, out, h', tr) =>
        Ret (r, out, mkWorld (<[p := h']> (heap w)) (next_addr w) tr)
    | Undefined => Undefined
    | Diverges => Diverges
    end.
Proof.
  intros Hp Hh. unfold wrapper_get_next_token.
  destruct (N.eqb_spec p null); [contradiction|]. now rewrite Hh.
Qed.

Lemma wrapper_prepare_prompt_live E w p h prompt :
  p <> null -> heap w !! p = Some h ->
  wrapper_prepare_prompt E w p prompt
  = match prepare_prompt E h (trace w) prompt with
    | Ret (r, h', tr) =>
        Ret (r, mkWorld (<[p := h']> (heap w)) (next_addr w) tr)
    | Undefined => Undefined
    | Diverges => Diverges
    end.
Proof.
  intros Hp Hh. unfold wrapper_prepare_prompt.
  destruct (N.eqb_spec p null); [contradiction|]. now rewrite Hh.
Qed.

(** A call on a live handle, seen from the handle. *)
Lemma wrapper_get_next_token_inv E w p h temp top_p size r out w' :
  p <> null -> heap w !! p = Some h ->
  wrapper_get_next_token E w p temp top_p size = Ret (r, out, w') ->
  exists h',
    get_next_token E h (trace w) temp top_p size = Ret (r, out, h', trace w')
    /\ heap w' = <[p := h']> (heap w) /\ next_addr w' = next_addr w.
Proof.
  intros Hp Hh H. rewrite (wrapper_get_next_token_live _ _ _ h) in H by auto.
  destruct (get_next_token E h (trace w) temp top_p size)
    as [[[[r0 out0] h'] tr']| |]; inversion H; subst. eauto.
Qed.

Lemma wrapper_prepare_prompt_inv E w p h prompt ok w' :
  p <> null -> heap w !! p = Some h ->
  wrapper_prepare_prompt E w p prompt = Ret (ok, w') ->
  exists h',
    prepare_prompt E h (trace w) prompt = Ret (ok, h', trace w')
    /\ heap w' = <[p := h']> (heap w) /\ next_addr w' = next_addr w.
Proof.
  intros Hp Hh H. rewrite (wrapper_prepare_prompt_live _ _ _ h) in H by auto.
  destruct (prepare_prompt E h (trace w) prompt)
    as [[[ok0 h'] tr']| |]; inversion H; subst. eauto.
Qed.

Lemma live_not_null w p h :
  world_ok w -> heap w !! p = Some h -> p <> null.
Proof.
  intros (_ & Hlive) Hh. destruct (Hlive p h Hh) as (Hr & _).
  unfold null. lia.
Qed.

(** A run of generation steps stays within the reachable worlds and on a
    live handle. *)
Lemma run_next_reachable E p calls : forall w rs w',
  reachable E w -> run_next E w p calls = Ret (rs, w') -> reachable E w'.
Proof.
  induction calls as [|[[temp top_p] size] rest IH]; simpl; intros w rs w' Hw H.
  - inversion H; subst; assumption.
  - destruct (wrapper_get_next_token E w p temp top_p size)
      as [[[r out] w1]| |] eqn:Hcall; try discriminate.
    destruct (run_next E w1 p rest) as [[rs1 w2]| |] eqn:Hrest;
      inversion H; subst.
    apply (IH w1 rs1); [|exact Hrest].
    apply reachable_step with (w := w) (c := CallNext p temp top_p size);
      auto.
    simpl. now rewrite Hcall.
Qed.

Lemma run_next_live E p calls : forall w rs w' h,
  p <> null -> heap w !! p = Some h ->
  run_next E w p calls = Ret (rs, w') ->
  exists h', heap w' !! p = Some h'.
Proof.
  induction calls as [|[[temp top_p] size] rest IH]; simpl;
    intros w rs w' h Hp Hh H.
  - inversion H; subst. eauto.
  - destruct (wrapper_get_next_token E w p temp top_p size)
      as [[[r out] w1]| |] eqn:Hcall; try discriminate.
    destruct (run_next E w1 p rest) as [[rs1 w2]| |] eqn:Hrest;
      inversion H; subst.
    destruct (wrapper_get_next_token_inv _ _ _ _ _ _ _ _ _ _ Hp Hh Hcall)
      as (h1 & _ & Hheap & _).
    apply (IH w1 rs1 w' h1); auto. rewrite Hheap. apply lookup_insert_eq.
Qed.

(** A generation step on a live handle of a sound world, seen from the
    counters. *)
Lemma wrapper_get_next_token_counters E w p h temp top_p size r out w' :
  world_ok w -> heap w !! p = Some h ->
  wrapper_get_next_token E w p temp top_p size = Ret (r, out, w') ->
  exists h',
    heap w' !! p = Some h' /\
    is_prepared h' = is_prepared h /\
    n_prompt h' = n_prompt h /\
    max_new_tokens h' = max_new_tokens h /\
    ((n_cur h' = n_cur h /\ n_gen h' = n_gen h
      /\ ~ token_accepted (trace w) (trace w') /\ r <= 0) \/
     (n_cur h' = n_cur h + 1 /\ n_gen h' = n_gen h + 1 /\
      token_accepted (trace w) (trace w') /\
      is_prepared h = true /\
      n_cur h < int_sub (wrap32 (llama_n_ctx E)) 4 /\
      n_gen h < max_new_tokens h)).
Proof.
  intros Hok Hh H.
  pose proof (live_not_null _ _ _ Hok Hh) as Hp.
  destruct Hok as (_ & Hlive).
  destruct (Hlive p h Hh) as (_ & _ & Hcur & Hgen & Hmax & _).
  destruct (wrapper_get_next_token_inv _ _ _ _ _ _ _ _ _ _ Hp Hh H)
    as (h' & Hrun & Hheap & _).
  exists h'. split; [rewrite Hheap; apply lookup_insert_eq|].
  eapply get_next_token_counters; eauto; lia.
Qed.

(** Generation never changes readiness, the prompt length or the limit. *)
Lemma run_next_session E p calls : forall w rs w' h,
  reachable E w -> heap w !! p = Some h ->
  run_next E w p calls = Ret (rs, w') ->
  exists h',
    heap w' !! p = Some h' /\ is_prepared h' = is_prepared h /\
    n_prompt h' = n_prompt h /\ max_new_tokens h' = max_new_tokens h /\
    n_gen h <= n_gen h'.
Proof.
  induction calls as [|[[temp top_p] size] rest IH]; simpl;
    intros w rs w' h Hw Hh H.
  - inversion H; subst. exists h. repeat split; auto; lia.
  - destruct (wrapper_get_next_token E w p temp top_p size)
      as [[[r out] w1]| |] eqn:Hcall; try discriminate.
    destruct (run_next E w1 p rest) as [[rs1 w2]| |] eqn:Hrest;
      inversion H; subst.
    destruct (wrapper_get_next_token_counters _ _ _ _ _ _ _ _ _ _
                (reachable_ok _ _ Hw) Hh Hcall)
      as (h1 & Hh1 & Hp1 & Hpr1 & Hmx1 & Hstep).
    assert (Hw1 : reachable E w1).
    { apply reachable_step with (w := w) (c := CallNext p temp top_p size);
        auto. simpl. now rewrite Hcall. }
    destruct (IH w1 rs1 w' h1 Hw1 Hh1 Hrest)
      as (h' & Hh' & Hp' & Hpr' & Hmx' & Hg').
    exists h'. repeat split; try congruence.
    destruct Hstep as [(_ & Hg & _) | (_ & Hg & _)]; lia.
Qed.

(** C1. While the session is ready, the position cursor equals the prompt
    token count plus the generated token count.  This holds of every live
    handle in every world a host can reach; a successful prepare sets the
    cursor to the prompt count with nothing generated; a generation call
    whose token the engine accepts adds exactly one to the cursor and to
    the generated count, and every other call leaves both alone; so the
    equality survives any sequence of generation calls. *)
Theorem cursor_is_prompt_plus_generated E w p h :
  reachable E w -> heap w !! p = Some h ->
  (is_prepared h = true -> n_cur h = n_prompt h + n_gen h) /\
  (forall prompt w',
     wrapper_prepare_prompt E w p prompt = Ret (true, w') ->
     exists h', heap w' !! p = Some h' /\ is_prepared h' = true /\
                n_cur h' = n_prompt h' /\ n_gen h' = 0) /\
  (forall temp top_p size r out w',
     wrapper_get_next_token E w p temp top_p size = Ret (r, out, w') ->
     exists h', heap w' !! p = Some h' /\
       is_prepared h' = is_prepared h /\ n_prompt h' = n_prompt h /\
       ((token_accepted (trace w) (trace w') /\
         n_cur h' = n_cur h + 1 /\ n_gen h' = n_gen h + 1) \/
        (~ token_accepted (trace w) (trace w') /\
         n_cur h' = n_cur h /\ n_gen h' = n_gen h))) /\
  (forall calls rs w',
     run_next E w p calls = Ret (rs, w') -> is_prepared h = true ->
     exists h', heap w' !! p = Some h' /\ is_prepared h' = true /\
                n_cur h' = n_prompt h' + n_gen h').
Proof.
  intros Hw Hh.
  pose proof (reachable_ok _ _ Hw) as Hok.
  pose proof (live_not_null _ _ _ Hok Hh) as Hp.
  split; [|split; [|split]].
  - destruct Hok as (_ & Hlive).
    destruct (Hlive p h Hh) as (_ & _ & _ & _ & _ & Hsum). exact Hsum.
  - intros prompt w' Hcall.
    destruct (wrapper_prepare_prompt_inv _ _ _ _ _ _ _ Hp Hh Hcall)
      as (h' & Hrun & Hheap & _).
    exists h'. split; [rewrite Hheap; apply lookup_insert_eq|].
    destruct Hok as (_ & Hlive).
    destruct (Hlive p h Hh) as (_ & _ & Hcur & _).
    apply prepare_prompt_frame in Hrun
      as (_ & _ & _ & _ & _ & _ & _ & _ & _ & _ & Hyes); auto.
    destruct (Hyes eq_refl) as (Hr & Hpr & Hg & _). auto.
  - intros temp top_p size r out w' Hcall.
    destruct (wrapper_get_next_token_counters _ _ _ _ _ _ _ _ _ _ Hok Hh Hcall)
      as (h' & Hh' & Hp' & Hpr' & _ & Hstep).
    exists h'. repeat split; auto.
    destruct Hstep as [(Hc & Hg & Hna & _) | (Hc & Hg & Hacc & _)]; auto.
  - intros calls rs w' Hrun Hready.
    destruct (run_next_session _ _ _ _ _ _ _ Hw Hh Hrun)
      as (h' & Hh' & Hp' & _).
    exists h'. split; [exact Hh'|]. split; [congruence|].
    pose proof (reachable_ok _ _ (run_next_reachable _ _ _ _ _ _ Hw Hrun))
      as (_ & Hlive').
    destruct (Hlive' p h' Hh') as (_ & _ & _ & _ & _ & Hsum).
    apply Hsum. congruence.
Qed.

Lemma toy_world_reachable (n_ctx : Z) (drawn : llama_token) :
  run_calls (toy_engine n_ctx drawn) empty_world toy_calls
  = Ret (toy_world (toy_engine n_ctx drawn)) ->
  reachable (toy_engine n_ctx drawn) (toy_world (toy_engine n_ctx drawn)).
Proof.
  intros H. eapply run_calls_reachable; [constructor | exact H].
Qed.

Lemma cursor_is_prompt_plus_generated_witness :
  let E := toy_engine 256 9 in
  reachable E (toy_world E) /\
  heap (toy_world E) !! 1%N = Some (handle_at (toy_world E) 1) /\
  is_prepared (handle_at (toy_world E) 1) = true /\
  n_cur (handle_at (toy_world E) 1)
  = n_prompt (handle_at (toy_world E) 1) + n_gen (handle_at (toy_world E) 1).
Proof.
  intros E.
  assert (Hw : reachable E (toy_world E))
    by (apply toy_world_reachable; vm_compute; reflexivity).
  assert (Hh : heap (toy_world E) !! 1%N = Some (handle_at (toy_world E) 1))
    by (vm_compute; reflexivity).
  assert (Hp : is_prepared (handle_at (toy_world E) 1) = true)
    by (vm_compute; reflexivity).
  split; [exact Hw|]. split; [exact Hh|]. split; [exact Hp|].
  exact (proj1 (cursor_is_prompt_plus_generated E (toy_world E) 1%N
                  (handle_at (toy_world E) 1) Hw Hh) Hp).
Defined.

(** ** Prepare, forwards *)

(** [prepare_prompt] with the tokenisation carried out. *)
Lemma prepare_prompt_eq E h tr prompt :
  prepare_prompt E h tr prompt
  = if negb (ctx h) || negb (vocab h) then Undefined else
    if token_count E prompt >=? int_sub (wrap32 (llama_n_ctx E)) 128 then
      Ret (false, set_is_prepared h false,
           prepare_prefix E tr prompt
             ++ [EvLog (LogPromptTooLong (token_count E prompt)
                          (wrap32 (llama_n_ctx E)) 128)])
    else
      match prefill E (S (Z.to_nat (token_count E prompt)))
              (prompt_tokens E prompt) (token_count E prompt) 0
              (set_n_cur (set_is_prepared h false) 0)
              (prepare_prefix E tr prompt) with
      | Ret (true, hp, trp) =>
          Ret (true,
               set_session hp (n_cur hp) 0
                 (Z.max 16 (int_sub (int_sub (wrap32 (llama_n_ctx E))
                                       (n_cur hp)) 128)) true,
               (if non_null (smpl hp) then trp ++ [EvSamplerReset] else trp)
                 ++ [EvLog LogPrepareSuccess])
      | other => other
      end.
Proof.
  unfold prepare_prompt.
  change (ctx (set_is_prepared h false)) with (ctx h).
  change (vocab (set_is_prepared h false)) with (vocab h).
  destruct (negb (ctx h) || negb (vocab h)); [reflexivity|].
  rewrite tokenize_two_phase_full. cbv beta iota zeta.
  fold (prompt_tokens E prompt). fold (token_count E prompt).
  fold (prepare_prefix E tr prompt).
  replace (take (Z.to_nat (token_count E prompt)) (prompt_tokens E prompt))
    with (prompt_tokens E prompt)
    by (unfold token_count; now rewrite Nat2Z.id, firstn_all).
  reflexivity.
Qed.

Lemma context_ok_int E : context_ok E -> wrap32 (llama_n_ctx E) = llama_n_ctx E.
Proof.
  intros H. apply wrap32_id. unfold context_ok, in_int, INT_MIN, INT_MAX in *.
  lia.
Qed.

(** On an initialised handle and a sound window, prepare returns; it
    fails when the prompt does not leave the safety margin, succeeds when
    it does and the engine accepts every chunk, and the cursor ends within
    the prompt. *)
Lemma prepare_prompt_runs E h tr prompt :
  context_ok E -> initialised h ->
  exists ok h' tr',
    prepare_prompt E h tr prompt = Ret (ok, h', tr') /\
    (llama_n_ctx E - 128 <= token_count E prompt ->
       ok = false /\ n_cur h' = n_cur h) /\
    (token_count E prompt < llama_n_ctx E - 128 ->
       0 <= n_cur h' <= token_count E prompt /\
       (ok = true -> n_cur h' = token_count E prompt) /\
       (decode_reliable E -> ok = true)).
Proof.
  intros Hctx (Hm & Hc & Hv & Hbs & Hcap).
  rewrite prepare_prompt_eq, Hc, Hv, context_ok_int by auto. cbn [negb orb].
  assert (HT : 0 <= token_count E prompt) by (unfold token_count; lia).
  unfold context_ok, INT_MAX in Hctx.
  rewrite int_sub_id by (unfold in_int, INT_MIN, INT_MAX; lia).
  destruct (Z.geb_spec (token_count E prompt) (llama_n_ctx E - 128))
    as [Hlong | Hfits].
  { eexists _, _, _. split; [reflexivity|]. split; [auto | lia]. }
  destruct (prefill_runs E (S (Z.to_nat (token_count E prompt)))
              (prompt_tokens E prompt) (token_count E prompt) 0
              (set_n_cur (set_is_prepared h false) 0)
              (prepare_prefix E tr prompt))
    as (okp & hp & trp & Hrun & Hb & Hok & Hall);
    try (simpl; unfold INT_MAX; lia); auto.
  rewrite Hrun. simpl in Hb, Hok.
  destruct okp.
  - eexists _, _, _. split; [reflexivity|]. split; [lia|]. intros _.
    simpl. specialize (Hok eq_refl). repeat split; auto; lia.
  - eexists _, _, _. split; [reflexivity|]. split; [lia|]. intros _.
    repeat split; try lia; try discriminate. exact Hall.
Qed.

(** ** The cursor against the window *)

Lemma prepare_prompt_within E h tr prompt ok h' tr' :
  context_ok E -> initialised h -> counters_ok h -> within_context E h ->
  prepare_prompt E h tr prompt = Ret (ok, h', tr') ->
  within_context E h'.
Proof.
  intros Hctx Hi Hc (Hcur & Hprep) Hrun.
  destruct (prepare_prompt_runs E h tr prompt Hctx Hi)
    as (ok0 & h0 & tr0 & Hrun0 & Hlong & Hfits).
  rewrite Hrun in Hrun0. inversion Hrun0; subst ok0 h0 tr0; clear Hrun0.
  apply prepare_prompt_frame in Hrun
    as (_ & _ & _ & _ & _ & _ & _ & _ & _ & Hno & Hyes); [|apply Hc].
  rewrite (context_ok_int E Hctx) in *.
  unfold context_ok, INT_MAX in Hctx.
  assert (HT : 0 <= token_count E prompt) by (unfold token_count; lia).
  destruct (Z.le_gt_cases (llama_n_ctx E - 128) (token_count E prompt))
    as [Hl | Hf].
  - destruct (Hlong Hl) as (-> & Hsame).
    destruct (Hno eq_refl) as (Hp & _).
    split; [lia|]. rewrite Hp. discriminate.
  - destruct (Hfits Hf) as (Hb & Hy & _).
    split; [lia|]. intros Hp'.
    destruct ok; [|destruct (Hno eq_refl) as (Hp & _); congruence].
    destruct (Hyes eq_refl) as (_ & Hpr & _ & Hmx & _).
    rewrite Hpr, Hmx, (Hy eq_refl).
    rewrite (int_sub_id (llama_n_ctx E))
      by (unfold in_int, INT_MIN, INT_MAX; lia).
    rewrite int_sub_id by (unfold in_int, INT_MIN, INT_MAX; lia).
    repeat split; lia.
Qed.

Lemma get_next_token_within E h tr temp top_p size r out h' tr' :
  context_ok E -> counters_ok h -> within_context E h ->
  get_next_token E h tr temp top_p size = Ret (r, out, h', tr') ->
  within_context E h'.
Proof.
  intros Hctx (Hcur & Hgen & Hmax & _) (Hc & Hprep) Hrun.
  destruct (get_next_token_counters _ _ _ _ _ _ _ _ _ _ Hrun)
    as (Hp & Hpr & Hmx & Hstep); try lia; auto.
  unfold within_context. rewrite Hp, Hpr, Hmx.
  split; [|exact Hprep].
  destruct Hstep as [(-> & _) | (-> & _ & _ & _ & Hroom & _)]; [lia|].
  rewrite (context_ok_int E Hctx) in Hroom.
  unfold context_ok, INT_MAX in Hctx.
  rewrite int_sub_id in Hroom by (unfold in_int, INT_MIN, INT_MAX; lia).
  lia.
Qed.

Lemma step_within E w c w' :
  context_ok E -> world_ok w ->
  (forall p h, heap w !! p = Some h -> within_context E h) ->
  step E w c = Ret w' ->
  forall p h, heap w' !! p = Some h -> within_context E h.
Proof.
  intros Hctx Hok Hin Hstep q hq Hq.
  destruct c as [path c t m | p text | p prompt | p temp top_p size | p];
    cbn [step] in Hstep.
  - destruct (wrapper_init_cases E w path c t m)
      as [ (tr & Hinit) | (size & tr & Hsize & Hinit) ];
      rewrite Hinit in Hstep;
      cbn [after] in Hstep; inversion Hstep; subst; clear Hstep;
      simpl in Hq; eauto.
    destruct (decide (q = next_addr w)) as [-> | Hne].
    + rewrite lookup_insert_eq in Hq. inversion Hq; subst; clear Hq.
      unfold within_context, context_ok in *; simpl.
      split; [lia | discriminate].
    + rewrite lookup_insert_ne in Hq by auto. eauto.
  - unfold wrapper_tokenize in Hstep.
    destruct (N.eqb p null); [inversion Hstep; subst; eauto|].
    destruct (heap w !! p); [|discriminate].
    destruct (tokenize E l text); inversion Hstep; subst. eauto.
  - unfold wrapper_prepare_prompt in Hstep.
    destruct (N.eqb p null); [inversion Hstep; subst; eauto|].
    destruct (heap w !! p) as [h|] eqn:Hp; [|discriminate].
    destruct (prepare_prompt E h (trace w) prompt) as [[[ok h'] tr']| |] eqn:Hrun;
      inversion Hstep; subst; clear Hstep.
    destruct Hok as (_ & Hlive).
    destruct (Hlive p h Hp) as (_ & Hi & Hc). simpl in Hq.
    destruct (decide (q = p)) as [-> | Hne].
    + rewrite lookup_insert_eq in Hq. inversion Hq; subst; clear Hq.
      eapply prepare_prompt_within; eauto.
    + rewrite lookup_insert_ne in Hq by auto. eauto.
  - unfold wrapper_get_next_token in Hstep.
    destruct (N.eqb p null); [inversion Hstep; subst; eauto|].
    destruct (heap w !! p) as [h|] eqn:Hp; [|discriminate].
    destruct (get_next_token E h (trace w) temp top_p size)
      as [[[[r out] h'] tr']| |] eqn:Hrun;
      inversion Hstep; subst; clear Hstep.
    destruct Hok as (_ & Hlive).
    destruct (Hlive p h Hp) as (_ & Hi & Hc). simpl in Hq.
    destruct (decide (q = p)) as [-> | Hne].
    + rewrite lookup_insert_eq in Hq. inversion Hq; subst; clear Hq.
      eapply get_next_token_within; eauto.
    + rewrite lookup_insert_ne in Hq by auto. eauto.
  - unfold wrapper_free in Hstep.
    destruct (N.eqb p null); [inversion Hstep; subst; eauto|].
    destruct (heap w !! p) as [h|] eqn:Hp; [|discriminate].
    inversion Hstep; subst; clear Hstep. simpl in Hq.
    apply lookup_delete_Some in Hq as [_ Hq]. eauto.
Qed.

Lemma reachable_within E w :
  context_ok E -> reachable E w ->
  forall p h, heap w !! p = Some h -> within_context E h.
Proof.
  intros Hctx. induction 1 as [| w c w' Hw IH Hstep].
  - intros p h Hp. simpl in Hp. rewrite lookup_empty in Hp. discriminate.
  - eapply step_within; eauto. now apply reachable_ok with (E := E).
Qed.

(** ** The guards of [get_next_token] *)

(** A ready session at a guard: the call returns 0 as soon as the sampler
    is in place, the counters stay, and nothing is sampled or submitted. *)
Lemma get_next_token_guarded E h tr temp top_p size :
  is_prepared h = true -> ctx h = true ->
  int_sub (wrap32 (llama_n_ctx E)) 4 <= n_cur h
  \/ max_new_tokens h <= n_gen h ->
  exists r h' evs,
    get_next_token E h tr temp top_p size = Ret (r, None, h', tr ++ evs) /\
    (r = 0 /\ fst (fst (ensure_sampler E h tr temp top_p)) = true
     \/ r = -3 /\ fst (fst (ensure_sampler E h tr temp top_p)) = false) /\
    h' = snd (fst (ensure_sampler E h tr temp top_p)) /\
    forallb (fun e => negb (touches_context e)) evs = true.
Proof.
  intros Hp Hc Hguard.
  destruct (ensure_sampler E h tr temp top_p) as [[ok h1] tr1] eqn:Hes.
  destruct (ensure_sampler_trace _ _ _ _ _ _ _ _ Hes) as (evs & Htr & _ & Hevs).
  destruct ok.
  - destruct (Z.le_gt_cases (int_sub (wrap32 (llama_n_ctx E)) 4) (n_cur h))
      as [Hfull | Hroom].
    + exists 0, h1,
        (evs ++ [EvLog (LogContextFull (n_cur h) (wrap32 (llama_n_ctx E)))]).
      split; [|split; [left; auto | split; [reflexivity|]]].
      * rewrite app_assoc, <- Htr. apply paths_get_next_token.
        now apply next_context_full.
      * rewrite forallb_app, Hevs. reflexivity.
    + exists 0, h1, (evs ++ [EvLog LogMaxNewTokens]).
      split; [|split; [left; auto | split; [reflexivity|]]].
      * rewrite app_assoc, <- Htr. apply paths_get_next_token.
        apply next_limit; auto. lia.
      * rewrite forallb_app, Hevs. reflexivity.
  - exists (-3), h1, (evs ++ [EvLog LogSamplerFailed]).
    split; [|split; [right; auto | split; [reflexivity|]]].
    + rewrite app_assoc, <- Htr. apply paths_get_next_token.
      now apply next_sampler_failed.
    + rewrite forallb_app, Hevs. reflexivity.
Qed.

(** C8. The position cursor stays below the context capacity.  In every
    world a host can reach, every live handle has its cursor within the
    window; a prepare that succeeds had a prompt of fewer than capacity -
    128 tokens and leaves the cursor at that count; a generation call
    moves the cursor by at most one, and only from below capacity - 4; at
    or above capacity - 4 a ready session returns 0 once the sampler is
    in place, without sampling, submitting or clearing anything. *)
Theorem cursor_below_capacity E w :
  context_ok E -> reachable E w ->
  (forall p h, heap w !! p = Some h -> 0 <= n_cur h < llama_n_ctx E) /\
  (forall p h prompt w',
     heap w !! p = Some h ->
     wrapper_prepare_prompt E w p prompt = Ret (true, w') ->
     token_count E prompt < llama_n_ctx E - 128 /\
     exists h', heap w' !! p = Some h' /\ n_cur h' = token_count E prompt) /\
  (forall p h temp top_p size r out w',
     heap w !! p = Some h ->
     wrapper_get_next_token E w p temp top_p size = Ret (r, out, w') ->
     exists h', heap w' !! p = Some h' /\
       (n_cur h' = n_cur h \/
        n_cur h' = n_cur h + 1 /\ n_cur h < llama_n_ctx E - 4)) /\
  (forall h tr temp top_p size,
     is_prepared h = true -> ctx h = true ->
     llama_n_ctx E - 4 <= n_cur h ->
     exists r h' evs,
       get_next_token E h tr temp top_p size = Ret (r, None, h', tr ++ evs) /\
       (r = 0 /\ fst (fst (ensure_sampler E h tr temp top_p)) = true
        \/ r = -3 /\ fst (fst (ensure_sampler E h tr temp top_p)) = false) /\
       n_cur h' = n_cur h /\ n_gen h' = n_gen h /\
       forallb (fun e => negb (touches_context e)) evs = true).
Proof.
  intros Hctx Hw.
  pose proof (reachable_ok _ _ Hw) as Hok.
  assert (Hsub : forall k, 0 <= k <= 128 ->
                   int_sub (wrap32 (llama_n_ctx E)) k = llama_n_ctx E - k).
  { intros k Hk. rewrite (context_ok_int E Hctx).
    apply int_sub_id. unfold context_ok, in_int, INT_MIN, INT_MAX in *. lia. }
  split; [|split; [|split]].
  - intros p h Hh. apply (reachable_within E w Hctx Hw p h Hh).
  - intros p h prompt w' Hh Hcall.
    pose proof (live_not_null _ _ _ Hok Hh) as Hp.
    destruct (wrapper_prepare_prompt_inv _ _ _ _ _ _ _ Hp Hh Hcall)
      as (h' & Hrun & Hheap & _).
    destruct Hok as (_ & Hlive). destruct (Hlive p h Hh) as (_ & Hi & Hc).
    destruct (prepare_prompt_runs E h (trace w) prompt Hctx Hi)
      as (ok0 & h0 & tr0 & Hrun0 & Hlong & Hfits).
    rewrite Hrun in Hrun0. inversion Hrun0; subst ok0 h0 tr0; clear Hrun0.
    destruct (Z.le_gt_cases (llama_n_ctx E - 128) (token_count E prompt))
      as [Hl | Hf]; [destruct (Hlong Hl); discriminate|].
    split; [exact Hf|]. exists h'.
    split; [rewrite Hheap; apply lookup_insert_eq|].
    apply (Hfits Hf). reflexivity.
  - intros p h temp top_p size r out w' Hh Hcall.
    destruct (wrapper_get_next_token_counters _ _ _ _ _ _ _ _ _ _ Hok Hh Hcall)
      as (h' & Hh' & _ & _ & _ & Hstep).
    exists h'. split; [exact Hh'|].
    destruct Hstep as [(Hc & _) | (Hc & _ & _ & _ & Hroom & _)]; [now left|].
    right. rewrite Hsub in Hroom by lia. auto.
  - intros h tr temp top_p size Hp Hc Hfull.
    destruct (get_next_token_guarded E h tr temp top_p size Hp Hc)
      as (r & h' & evs & Hrun & Hr & Hh' & Hevs).
    { left. rewrite Hsub by lia. exact Hfull. }
    exists r, h', evs. repeat split; auto.
    + subst h'.
      destruct (ensure_sampler E h tr temp top_p) as [[ok h1] tr1] eqn:Hes.
      now apply ensure_sampler_fields in Hes.
    + subst h'.
      destruct (ensure_sampler E h tr temp top_p) as [[ok h1] tr1] eqn:Hes.
      now apply ensure_sampler_fields in Hes.
Qed.

Lemma cursor_below_capacity_witness :
  let E := toy_engine 256 9 in
  context_ok E /\ reachable E (toy_world E) /\
  0 <= n_cur (handle_at (toy_world E) 1) < 256.
Proof.
  intros E.
  assert (Hctx : context_ok E) by (unfold context_ok, INT_MAX; simpl; lia).
  assert (Hw : reachable E (toy_world E))
    by (apply toy_world_reachable; vm_compute; reflexivity).
  split; [exact Hctx|]. split; [exact Hw|].
  apply (proj1 (cursor_below_capacity E (toy_world E) Hctx Hw) 1%N).
  vm_compute; reflexivity.
Defined.

(** ** A session that is not ready *)

Lemma world_insert_same (w : World) (p : N) (h : LlamaHandle) :
  heap w !! p = Some h ->
  mkWorld (<[p := h]> (heap w)) (next_addr w) (trace w) = w.
Proof. intros Hh. rewrite insert_id by exact Hh. destruct w; reflexivity. Qed.

Lemma wrapper_get_next_token_not_prepared E w p h temp top_p size :
  p <> null -> heap w !! p = Some h -> is_prepared h = false ->
  wrapper_get_next_token E w p temp top_p size = Ret (-2, None, w).
Proof.
  intros Hp Hh Hn. rewrite (wrapper_get_next_token_live _ _ _ h) by auto.
  unfold get_next_token. rewrite Hn. cbn [negb].
  now rewrite world_insert_same.
Qed.

Lemma run_next_not_prepared E w p h calls :
  p <> null -> heap w !! p = Some h -> is_prepared h = false ->
  run_next E w p calls = Ret (map (fun _ => -2) calls, w).
Proof.
  intros Hp Hh Hn. induction calls as [|[[temp top_p] size] rest IH]; simpl.
  - reflexivity.
  - rewrite (wrapper_get_next_token_not_prepared _ _ _ h) by auto.
    now rewrite IH.
Qed.

(** C6. A prepare that fails leaves the session not ready.  On a live
    handle prepare always returns, and its result is the readiness it
    leaves behind; it returns false whenever the prompt has at least
    capacity - 128 tokens; and after any false return, chunk decode
    failures included, every generation call is refused with -2 and
    changes nothing, however many are made, so only another prepare can
    make the session ready again. *)
Theorem failed_prepare_leaves_not_ready E w p h prompt :
  reachable E w -> heap w !! p = Some h -> context_ok E ->
  (exists ok w' h',
     wrapper_prepare_prompt E w p prompt = Ret (ok, w') /\
     heap w' !! p = Some h' /\ is_prepared h' = ok) /\
  (llama_n_ctx E - 128 <= token_count E prompt ->
   exists w', wrapper_prepare_prompt E w p prompt = Ret (false, w')) /\
  (forall w',
     wrapper_prepare_prompt E w p prompt = Ret (false, w') ->
     exists h', heap w' !! p = Some h' /\ is_prepared h' = false /\
       (forall temp top_p size,
          wrapper_get_next_token E w' p temp top_p size
          = Ret (-2, None, w')) /\
       (forall calls,
          run_next E w' p calls = Ret (map (fun _ => -2) calls, w'))).
Proof.
  intros Hw Hh Hctx.
  pose proof (reachable_ok _ _ Hw) as Hok.
  pose proof (live_not_null _ _ _ Hok Hh) as Hp.
  destruct Hok as (_ & Hlive). destruct (Hlive p h Hh) as (_ & Hi & Hc).
  destruct (prepare_prompt_runs E h (trace w) prompt Hctx Hi)
    as (ok & h' & tr' & Hrun & Hlong & Hfits).
  assert (Hcall : wrapper_prepare_prompt E w p prompt
                  = Ret (ok, mkWorld (<[p := h']> (heap w)) (next_addr w) tr')).
  { rewrite (wrapper_prepare_prompt_live _ _ _ h) by auto. now rewrite Hrun. }
  pose proof (prepare_prompt_frame _ _ _ _ _ _ _ Hrun (proj1 Hc))
    as (_ & _ & _ & _ & _ & _ & _ & _ & _ & Hno & Hyes).
  split; [|split].
  - exists ok, (mkWorld (<[p := h']> (heap w)) (next_addr w) tr'), h'.
    split; [exact Hcall|]. split; [apply lookup_insert_eq|].
    destruct ok; [apply (Hyes eq_refl) | apply (Hno eq_refl)].
  - intros Hl. destruct (Hlong Hl) as (-> & _). eauto.
  - intros w' Hfail. rewrite Hcall in Hfail. inversion Hfail; subst ok w'.
    destruct (Hno eq_refl) as (Hn & _).
    exists h'. simpl. split; [apply lookup_insert_eq|]. split; [exact Hn|].
    split.
    + intros temp top_p size.
      apply (wrapper_get_next_token_not_prepared _ _ _ h'); auto.
      apply lookup_insert_eq.
    + intros calls. apply (run_next_not_prepared _ _ _ h'); auto.
      apply lookup_insert_eq.
Qed.

Lemma failed_prepare_leaves_not_ready_witness :
  let E := toy_engine 256 9 in
  reachable E (toy_world E) /\
  heap (toy_world E) !! 1%N = Some (handle_at (toy_world E) 1) /\
  context_ok E /\
  exists w',
    wrapper_prepare_prompt E (toy_world E) 1 (prompt_of_length 200)
    = Ret (false, w').
Proof.
  intros E.
  assert (Hctx : context_ok E) by (unfold context_ok, INT_MAX; simpl; lia).
  assert (Hw : reachable E (toy_world E))
    by (apply toy_world_reachable; vm_compute; reflexivity).
  assert (Hh : heap (toy_world E) !! 1%N = Some (handle_at (toy_world E) 1))
    by (vm_compute; reflexivity).
  split; [exact Hw|]. split; [exact Hh|]. split; [exact Hctx|].
  apply (proj1 (proj2 (failed_prepare_leaves_not_ready E (toy_world E) 1%N
                         (handle_at (toy_world E) 1) (prompt_of_length 200)
                         Hw Hh Hctx))).
  vm_compute. discriminate.
Defined.

(** ** Counting accepted submissions *)

Lemma accepted_decodes_app (a b : Trace) :
  accepted_decodes (a ++ b) = accepted_decodes a + accepted_decodes b.
Proof.
  induction a as [|e a IH]; simpl; [reflexivity|].
  destruct e; auto. rewrite IH. lia.
Qed.

Lemma accepted_decodes_untouched (evs : Trace) :
  forallb (fun e => negb (touches_context e)) evs = true ->
  accepted_decodes evs = 0.
Proof.
  induction evs as [|e evs IH]; simpl; [reflexivity|].
  intros H. apply andb_true_iff in H as [He Hrest].
  destruct e; simpl in *; auto; discriminate.
Qed.

Lemma accepted_decodes_nonneg (evs : Trace) : 0 <= accepted_decodes evs.
Proof.
  induction evs as [|e evs IH]; simpl; [lia|].
  destruct e; auto. destruct (res =? 0); lia.
Qed.

(** Each call adds to [n_gen] the submissions it had accepted: one or
    none. *)
Lemma get_next_token_generated E h tr temp top_p size r out h' tr' :
  get_next_token E h tr temp top_p size = Ret (r, out, h', tr') ->
  0 <= n_gen h -> max_new_tokens h <= INT_MAX ->
  exists evs, tr' = tr ++ evs /\
              n_gen h' = n_gen h + accepted_decodes evs /\
              0 <= accepted_decodes evs <= 1.
Proof.
  intros H Hgen Hmax. apply get_next_token_paths in H.
  destruct H as
    [ Hp
    | h1 tr1 Hp Hes
    | h1 tr1 Hp Hes Hc Hfull
    | h1 tr1 Hp Hes Hc Hroom Hmaxed
    | h1 tr1 id n written Hs Hn Hw
    | h1 tr1 id n written Hs Hns Heog
    | h1 tr1 id n written old arr res Hs Hns Heog Hslots Hres Hne
    | h1 tr1 id n written old arr Hs Hns Heog Hslots Hres ];
    try (destruct Hs as (Hp & Hes & Hc & Hv & Hroom & Hleft & Hid & Hpiece)).
  1:{ exists []. rewrite app_nil_r. simpl. repeat split; lia. }
  all: pose proof (ensure_sampler_fields _ _ _ _ _ _ _ _ Hes)
      as (_ & _ & _ & _ & _ & _ & _ & _ & Hgen1 & _);
    destruct (ensure_sampler_trace _ _ _ _ _ _ _ _ Hes)
      as (evs & -> & _ & Hevs);
    apply accepted_decodes_untouched in Hevs;
    rewrite <- app_assoc; eexists; (split; [reflexivity|]);
    rewrite !accepted_decodes_app, Hevs; unfold piece_log;
    try destruct (n >? 0); simpl;
    rewrite ?Hgen1; try (split; lia).
  - destruct (res =? 0) eqn:Hz; [apply Z.eqb_eq in Hz; contradiction|].
    split; lia.
  - destruct (res =? 0) eqn:Hz; [apply Z.eqb_eq in Hz; contradiction|].
    split; lia.
  - rewrite int_add_id by (unfold in_int, INT_MIN, INT_MAX in *; lia).
    split; lia.
  - rewrite int_add_id by (unfold in_int, INT_MIN, INT_MAX in *; lia).
    split; lia.
Qed.

(** ** Runs of generation calls *)

Lemma run_next_generated E p calls : forall w rs w' h,
  reachable E w -> heap w !! p = Some h ->
  run_next E w p calls = Ret (rs, w') ->
  exists h' evs,
    heap w' !! p = Some h' /\ trace w' = trace w ++ evs /\
    n_gen h' = n_gen h + accepted_decodes evs /\
    0 <= accepted_decodes evs <= Z.of_nat (length calls) /\
    is_prepared h' = is_prepared h /\
    max_new_tokens h' = max_new_tokens h /\
    n_gen h' <= max_new_tokens h.
Proof.
  induction calls as [|[[temp top_p] size] rest IH]; simpl;
    intros w rs w' h Hw Hh H.
  - inversion H; subst. exists h, []. rewrite app_nil_r. simpl.
    destruct (reachable_ok _ _ Hw) as (_ & Hlive).
    destruct (Hlive p h Hh) as (_ & _ & _ & Hgen & _).
    repeat split; auto; lia.
  - destruct (wrapper_get_next_token E w p temp top_p size)
      as [[[r out] w1]| |] eqn:Hcall; try discriminate.
    destruct (run_next E w1 p rest) as [[rs1 w2]| |] eqn:Hrest;
      inversion H; subst.
    pose proof (reachable_ok _ _ Hw) as Hok.
    pose proof (live_not_null _ _ _ Hok Hh) as Hp.
    destruct (wrapper_get_next_token_inv _ _ _ _ _ _ _ _ _ _ Hp Hh Hcall)
      as (h1 & Hrun & Hheap & _).
    destruct Hok as (_ & Hlive).
    destruct (Hlive p h Hh) as (_ & _ & Hcur & Hgen & Hmax & _).
    destruct (get_next_token_generated _ _ _ _ _ _ _ _ _ _ Hrun)
      as (evs1 & Htr1 & Hg1 & Hb1); try lia.
    destruct (get_next_token_counters _ _ _ _ _ _ _ _ _ _ Hrun)
      as (Hp1 & _ & Hmx1 & _); try lia; auto.
    assert (Hh1 : heap w1 !! p = Some h1)
      by (rewrite Hheap; apply lookup_insert_eq).
    assert (Hw1 : reachable E w1).
    { apply reachable_step with (w := w) (c := CallNext p temp top_p size);
        auto. simpl. now rewrite Hcall. }
    destruct (IH w1 rs1 w' h1 Hw1 Hh1 Hrest)
      as (h' & evs & Hh' & Htr & Hg & Hb & Hp' & Hmx' & Hle).
    exists h', (evs1 ++ evs).
    rewrite accepted_decodes_app, app_assoc, <- Htr1, <- Htr.
    repeat split; auto; try lia; congruence.
Qed.

Lemma ensure_sampler_reliable E h tr temp top_p :
  sampler_reliable E -> fst (fst (ensure_sampler E h tr temp top_p)) = true.
Proof.
  intros Hrel. unfold ensure_sampler.
  destruct (non_null (smpl h) && float_eq temp (last_temp h)
            && float_eq top_p (last_top_p h)); [reflexivity|].
  now rewrite Hrel.
Qed.

(** Once the limit is reached, every further generation call returns 0
    (or -3 when the sampler cannot be set up), samples and submits
    nothing, and leaves the counters where they are. *)
Lemma run_next_exhausted E p calls : forall w h,
  reachable E w -> heap w !! p = Some h -> is_prepared h = true ->
  max_new_tokens h <= n_gen h ->
  exists rs w' h' evs,
    run_next E w p calls = Ret (rs, w') /\
    heap w' !! p = Some h' /\ trace w' = trace w ++ evs /\
    Forall (fun r => r = 0 \/ r = -3) rs /\
    (sampler_reliable E -> Forall (fun r => r = 0) rs) /\
    forallb (fun e => negb (touches_context e)) evs = true /\
    n_cur h' = n_cur h /\ n_gen h' = n_gen h /\
    n_prompt h' = n_prompt h /\ max_new_tokens h' = max_new_tokens h /\
    is_prepared h' = true.
Proof.
  induction calls as [|[[temp top_p] size] rest IH]; simpl;
    intros w h Hw Hh Hready Hmaxed.
  - exists [], w, h, []. rewrite app_nil_r. repeat split; auto.
  - pose proof (reachable_ok _ _ Hw) as Hok.
    pose proof (live_not_null _ _ _ Hok Hh) as Hp.
    destruct Hok as (_ & Hlive).
    destruct (Hlive p h Hh) as (_ & (_ & Hc & Hv & _) & _).
    destruct (get_next_token_guarded E h (trace w) temp top_p size Hready Hc)
      as (r & h1 & evs1 & Hrun & Hr & Hh1eq & Hevs1); [now right|].
    assert (Hcall : wrapper_get_next_token E w p temp top_p size
                    = Ret (r, None,
                           mkWorld (<[p := h1]> (heap w)) (next_addr w)
                             (trace w ++ evs1))).
    { rewrite (wrapper_get_next_token_live _ _ _ h) by auto. now rewrite Hrun. }
    rewrite Hcall.
    set (w1 := mkWorld (<[p := h1]> (heap w)) (next_addr w) (trace w ++ evs1)).
    assert (Hw1 : reachable E w1).
    { apply reachable_step with (w := w) (c := CallNext p temp top_p size);
        auto. simpl. now rewrite Hcall. }
    assert (Hfields : n_cur h1 = n_cur h /\ n_gen h1 = n_gen h /\
                      n_prompt h1 = n_prompt h /\
                      max_new_tokens h1 = max_new_tokens h /\
                      is_prepared h1 = is_prepared h).
    { subst h1.
      destruct (ensure_sampler E h (trace w) temp top_p) as [[ok h2] tr2] eqn:Hes.
      apply ensure_sampler_fields in Hes. simpl. tauto. }
    destruct Hfields as (Hf1 & Hf2 & Hf3 & Hf4 & Hf5).
    destruct (IH w1 h1 Hw1) as
      (rs & w' & h' & evs & Hrest & Hh' & Htr & Hall & Hrel & Hevs & Hk).
    { apply lookup_insert_eq. }
    { congruence. }
    { lia. }
    rewrite Hrest. exists (r :: rs), w', h', (evs1 ++ evs).
    split; [reflexivity|]. split; [exact Hh'|].
    split; [rewrite Htr; simpl; now rewrite app_assoc|].
    split; [constructor; [tauto | exact Hall]|].
    split.
    { intros Hy. constructor; [|now apply Hrel].
      destruct Hr as [[Hz _] | [_ Hbad]]; [exact Hz|].
      rewrite (ensure_sampler_reliable E h (trace w) temp top_p Hy) in Hbad.
      discriminate. }
    split; [rewrite forallb_app, Hevs1, Hevs; reflexivity|].
    destruct Hk as (Hk1 & Hk2 & Hk3 & Hk4 & Hk5).
    repeat split; congruence.
Qed.

(** Results and submissions of one call on a ready session: a call that
    returns a byte count had its token accepted, and with an engine whose
    decodes and sampler construction do not fail so had every call that
    returns anything but 0. *)
Lemma get_next_token_accounted E h tr temp top_p size r out h' tr' :
  get_next_token E h tr temp top_p size = Ret (r, out, h', tr') ->
  is_prepared h = true ->
  exists evs, tr' = tr ++ evs /\
    (0 < r -> accepted_decodes evs = 1) /\
    (decode_reliable E -> sampler_reliable E -> r <> 0 ->
     accepted_decodes evs = 1).
Proof.
  intros H Hready. apply get_next_token_paths in H.
  destruct H as
    [ Hp
    | h1 tr1 Hp Hes
    | h1 tr1 Hp Hes Hc Hfull
    | h1 tr1 Hp Hes Hc Hroom Hmaxed
    | h1 tr1 id n written Hs Hn Hw
    | h1 tr1 id n written Hs Hns Heog
    | h1 tr1 id n written old arr res Hs Hns Heog Hslots Hres Hne
    | h1 tr1 id n written old arr Hs Hns Heog Hslots Hres ];
    try (destruct Hs as (Hp & Hes & _)).
  1:{ congruence. }
  all: destruct (ensure_sampler_trace _ _ _ _ _ _ _ _ Hes)
      as (evs & Htr & _ & Hevs);
    apply accepted_decodes_untouched in Hevs;
    rewrite Htr, <- ?app_assoc; eexists; (split; [reflexivity|]).
  - split; [lia|]. intros _ Hsam _.
    pose proof (ensure_sampler_reliable E h tr temp top_p Hsam) as Hok.
    rewrite Hes in Hok. discriminate.
  - split; [lia | intros _ _ Hr; now contradiction Hr].
  - split; [lia | intros _ _ Hr; now contradiction Hr].
  - split; [lia | intros _ _ Hr; now contradiction Hr].
  - split; [lia | intros _ _ Hr; now contradiction Hr].
  - split; [lia|]. intros Hdec _ _. exfalso. apply Hne.
    rewrite Hres. apply Hdec.
  - assert (Hone : accepted_decodes
                     (evs ++ [EvSample id] ++ piece_log n id
                          ++ [EvDecode [next_entry id h] 0]) = 1).
    { rewrite !accepted_decodes_app, Hevs. unfold piece_log.
      destruct (n >? 0); reflexivity. }
    split; intros; exact Hone.
Qed.

Lemma run_next_results E p calls : forall w rs w' h,
  reachable E w -> heap w !! p = Some h -> is_prepared h = true ->
  run_next E w p calls = Ret (rs, w') ->
  exists evs, trace w' = trace w ++ evs /\
    length rs = length calls /\
    count_results (fun r => 0 <? r) rs <= accepted_decodes evs /\
    (decode_reliable E -> sampler_reliable E ->
     count_results (fun r => negb (r =? 0)) rs <= accepted_decodes evs).
Proof.
  induction calls as [|[[temp top_p] size] rest IH]; simpl;
    intros w rs w' h Hw Hh Hready H.
  - inversion H; subst. exists []. rewrite app_nil_r. simpl.
    repeat split; auto; lia.
  - destruct (wrapper_get_next_token E w p temp top_p size)
      as [[[r out] w1]| |] eqn:Hcall; try discriminate.
    destruct (run_next E w1 p rest) as [[rs1 w2]| |] eqn:Hrest;
      inversion H; subst.
    pose proof (reachable_ok _ _ Hw) as Hok.
    pose proof (live_not_null _ _ _ Hok Hh) as Hp.
    destruct (wrapper_get_next_token_inv _ _ _ _ _ _ _ _ _ _ Hp Hh Hcall)
      as (h1 & Hrun & Hheap & _).
    destruct (wrapper_get_next_token_counters _ _ _ _ _ _ _ _ _ _ Hok Hh
                Hcall) as (h1' & Hh1' & Hp1 & _).
    assert (Hh1 : heap w1 !! p = Some h1)
      by (rewrite Hheap; apply lookup_insert_eq).
    rewrite Hh1 in Hh1'. injection Hh1' as <-.
    assert (Hw1 : reachable E w1).
    { apply reachable_step with (w := w) (c := CallNext p temp top_p size);
        auto. simpl. now rewrite Hcall. }
    destruct (get_next_token_accounted _ _ _ _ _ _ _ _ _ _ Hrun Hready)
      as (evs1 & Htr1 & Hpos1 & Hrel1).
    destruct (IH w1 rs1 w' h1 Hw1 Hh1 ltac:(congruence) Hrest)
      as (evs & Htr & Hlen & Hpos & Hrel).
    pose proof (accepted_decodes_nonneg evs1) as Hnn.
    exists (evs1 ++ evs).
    rewrite accepted_decodes_app, app_assoc, <- Htr1, <- Htr.
    split; [reflexivity|]. split; [cbn [length]; now rewrite Hlen|].
    cbn [count_results]. split.
    + destruct (Z.ltb_spec 0 r) as [Hr | Hr]; [rewrite Hpos1 by exact Hr|];
        lia.
    + intros Hdec Hsam. specialize (Hrel Hdec Hsam).
      destruct (Z.eqb_spec r 0) as [Hr | Hr]; cbn [negb];
        [|rewrite (Hrel1 Hdec Hsam Hr)]; lia.
Qed.

(** A run with fewer results other than 0 than calls has a 0 among its
    results. *)
Lemma count_results_zero (rs : list Z) :
  count_results (fun r => negb (r =? 0)) rs < Z.of_nat (length rs) ->
  In 0 rs.
Proof.
  induction rs as [|r rs IH]; cbn [count_results length]; [lia|].
  destruct (Z.eqb_spec r 0) as [-> | Hr]; cbn [negb]; [now left|].
  intros H. right. apply IH. lia.
Qed.

(** C7. Generation ends by the length guard alone.  From any ready
    session, whatever the sampler draws, a run of generation calls has
    [n_gen] grow by the number of submissions the engine accepted, never
    past [max_new_tokens], and every call that returned a byte count is
    one of those submissions: at most [max_new_tokens - n_gen] calls
    return a byte count.  With an engine whose decodes and sampler
    construction do not fail, every call that returned anything but 0
    submitted a token, so any run of more than [max_new_tokens - n_gen]
    calls has a call that returned 0.  Once [n_gen] has reached
    [max_new_tokens], every further call returns 0 without sampling or
    submitting (were the sampler construction to fail on such a call, it
    would return -3 instead). *)
Theorem generation_stops_at_limit E w p h calls rs w' :
  reachable E w -> heap w !! p = Some h -> is_prepared h = true ->
  run_next E w p calls = Ret (rs, w') ->
  exists h' evs,
    heap w' !! p = Some h' /\ trace w' = trace w ++ evs /\
    length rs = length calls /\
    n_gen h' = n_gen h + accepted_decodes evs /\
    0 <= accepted_decodes evs <= max_new_tokens h - n_gen h /\
    count_results (fun r => 0 <? r) rs <= accepted_decodes evs /\
    (decode_reliable E -> sampler_reliable E ->
     count_results (fun r => negb (r =? 0)) rs <= accepted_decodes evs /\
     (max_new_tokens h - n_gen h < Z.of_nat (length calls) -> In 0 rs)) /\
    (n_gen h' = max_new_tokens h ->
     forall more, exists rs2 w2 evs2,
       run_next E w' p more = Ret (rs2, w2) /\
       trace w2 = trace w' ++ evs2 /\
       length rs2 = length more /\
       (sampler_reliable E -> Forall (fun r => r = 0) rs2) /\
       Forall (fun r => r = 0 \/ r = -3) rs2 /\
       forallb (fun e => negb (touches_context e)) evs2 = true).
Proof.
  intros Hw Hh Hready Hrun.
  destruct (run_next_generated _ _ _ _ _ _ _ Hw Hh Hrun)
    as (h' & evs & Hh' & Htr & Hg & Hb & Hp' & Hmx' & Hle).
  destruct (run_next_results _ _ _ _ _ _ _ Hw Hh Hready Hrun)
    as (evs' & Htr' & Hlen & Hpos & Hrel).
  assert (evs' = evs) as ->
    by (rewrite Htr in Htr'; now apply app_inv_head in Htr').
  exists h', evs.
  split; [exact Hh'|]. split; [exact Htr|]. split; [exact Hlen|].
  split; [exact Hg|]. split; [lia|]. split; [exact Hpos|].
  split.
  { intros Hdec Hsam. specialize (Hrel Hdec Hsam). split; [exact Hrel|].
    intros Hmany. apply count_results_zero. rewrite Hlen. lia. }
  intros Hall more.
  pose proof (run_next_reachable _ _ _ _ _ _ Hw Hrun) as Hw'.
  destruct (run_next_exhausted E p more w' h' Hw' Hh')
    as (rs2 & w2 & h2 & evs2 & Hrun2 & _ & Htr2 & Hr2 & Hrel2 & Hevs2 & _);
    [congruence | lia |].
  destruct (run_next_results _ _ _ _ _ _ _ Hw' Hh' ltac:(congruence) Hrun2)
    as (_ & _ & Hlen2 & _).
  exists rs2, w2, evs2. repeat split; auto.
Qed.

Lemma generation_stops_at_limit_witness :
  let E := toy_engine 140 9 in
  let w := toy_world E in
  let calls := repeat (f_half, f_half, 64) 17 in
  reachable E w /\
  heap w !! 1%N = Some (handle_at w 1) /\
  is_prepared (handle_at w 1) = true /\
  max_new_tokens (handle_at w 1) - n_gen (handle_at w 1) = 16 /\
  decode_reliable E /\ sampler_reliable E /\
  exists rs w',
    run_next E w 1 calls = Ret (rs, w') /\
    In 0 rs /\
    count_results (fun r => 0 <? r) rs <= 16 /\
    exists h', heap w' !! 1%N = Some h' /\ n_gen h' <= 16.
Proof.
  intros E w calls.
  assert (Hw : reachable E w)
    by (apply toy_world_reachable; vm_compute; reflexivity).
  assert (Hh : heap w !! 1%N = Some (handle_at w 1))
    by (vm_compute; reflexivity).
  assert (Hp : is_prepared (handle_at w 1) = true)
    by (vm_compute; reflexivity).
  assert (Hroom : max_new_tokens (handle_at w 1) - n_gen (handle_at w 1)
                  = 16) by (vm_compute; reflexivity).
  assert (Hdec : decode_reliable E) by (intros t b; reflexivity).
  assert (Hsam : sampler_reliable E) by (intros t; reflexivity).
  split; [exact Hw|]. split; [exact Hh|]. split; [exact Hp|].
  split; [exact Hroom|]. split; [exact Hdec|]. split; [exact Hsam|].
  destruct (run_next E w 1 calls) as [[rs w']| |] eqn:Hrun;
    [|vm_compute in Hrun; discriminate..].
  exists rs, w'. split; [reflexivity|].
  destruct (generation_stops_at_limit E w 1%N (handle_at w 1) calls rs w'
              Hw Hh Hp Hrun)
    as (h' & evs & Hh' & _ & _ & Hg & Hle & Hpos & Hrel & _).
  destruct (Hrel Hdec Hsam) as (_ & Hzero).
  change (max_new_tokens (handle_at w 1)) with 16 in Hle, Hzero.
  change (n_gen (handle_at w 1)) with 0 in Hle, Hzero, Hg.
  split; [apply Hzero; vm_compute; reflexivity|].
  split; [lia|].
  exists h'. split; [exact Hh'|]. lia.
Defined.

(** A run in which every call returned a positive byte count had every
    token accepted. *)
Lemma run_next_all_positive E p calls : forall w rs w' h,
  reachable E w -> heap w !! p = Some h ->
  run_next E w p calls = Ret (rs, w') ->
  Forall (fun r => 0 < r) rs ->
  exists h', heap w' !! p = Some h' /\
             n_gen h' = n_gen h + Z.of_nat (length calls).
Proof.
  induction calls as [|[[temp top_p] size] rest IH]; simpl;
    intros w rs w' h Hw Hh H Hpos.
  - inversion H; subst. exists h. split; [exact Hh | lia].
  - destruct (wrapper_get_next_token E w p temp top_p size)
      as [[[r out] w1]| |] eqn:Hcall; try discriminate.
    destruct (run_next E w1 p rest) as [[rs1 w2]| |] eqn:Hrest;
      inversion H; subst.
    inversion Hpos as [|r0 rs0 Hr Hrs]; subst.
    destruct (wrapper_get_next_token_counters _ _ _ _ _ _ _ _ _ _
                (reachable_ok _ _ Hw) Hh Hcall)
      as (h1 & Hh1 & _ & _ & _ & [(_ & _ & _ & Hle) | (_ & Hg & _)]);
      [lia|].
    assert (Hw1 : reachable E w1).
    { apply reachable_step with (w := w) (c := CallNext p temp top_p size);
        auto. simpl. now rewrite Hcall. }
    destruct (IH w1 rs1 w' h1 Hw1 Hh1 Hrest Hrs) as (h' & Hh' & Hg').
    exists h'. split; [exact Hh' | lia].
Qed.

(** C2. A prompt that leaves the safety margin is accepted, and the
    generation limit is the room that remains.  On a live handle, with a
    window that is a positive [int] and an engine whose decodes and
    sampler construction do not fail, a prompt of fewer than capacity -
    128 tokens makes prepare return true with [max_new_tokens = max(16,
    capacity - T - 128)]: 78 for a window of 256 and 50 prompt tokens.
    After as many generation calls with a positive result as the limit
    allows, the next call returns 0. *)
Theorem prepare_sets_generation_limit E w p h prompt :
  reachable E w -> heap w !! p = Some h -> context_ok E ->
  decode_reliable E -> sampler_reliable E ->
  token_count E prompt < llama_n_ctx E - 128 ->
  exists w' h',
    wrapper_prepare_prompt E w p prompt = Ret (true, w') /\
    heap w' !! p = Some h' /\ is_prepared h' = true /\
    n_prompt h' = token_count E prompt /\ n_gen h' = 0 /\
    max_new_tokens h'
    = Z.max 16 (llama_n_ctx E - token_count E prompt - 128) /\
    (llama_n_ctx E = 256 -> token_count E prompt = 50 ->
     max_new_tokens h' = 78) /\
    (forall calls rs w2,
       run_next E w' p calls = Ret (rs, w2) ->
       Z.of_nat (length calls) = max_new_tokens h' ->
       Forall (fun r => 0 < r) rs ->
       forall temp top_p size, exists w3,
         wrapper_get_next_token E w2 p temp top_p size = Ret (0, None, w3)).
Proof.
  intros Hw Hh Hctx Hdec Hsam Hfit.
  pose proof (reachable_ok _ _ Hw) as Hok.
  pose proof (live_not_null _ _ _ Hok Hh) as Hp.
  destruct Hok as (_ & Hlive). destruct (Hlive p h Hh) as (_ & Hi & Hc).
  destruct (prepare_prompt_runs E h (trace w) prompt Hctx Hi)
    as (ok & h' & tr' & Hrun & _ & Hfits).
  destruct (Hfits Hfit) as (Hb & Hcur & Hall).
  rewrite (Hall Hdec) in *. specialize (Hcur eq_refl).
  set (w' := mkWorld (<[p := h']> (heap w)) (next_addr w) tr').
  assert (Hcall : wrapper_prepare_prompt E w p prompt = Ret (true, w')).
  { rewrite (wrapper_prepare_prompt_live _ _ _ h) by auto. now rewrite Hrun. }
  assert (Hh' : heap w' !! p = Some h') by apply lookup_insert_eq.
  assert (Hw' : reachable E w').
  { apply reachable_step with (w := w) (c := CallPrepare p prompt); auto.
    simpl. now rewrite Hcall. }
  pose proof (prepare_prompt_frame _ _ _ _ _ _ _ Hrun (proj1 Hc))
    as (_ & _ & _ & _ & _ & _ & _ & _ & _ & _ & Hyes).
  destruct (Hyes eq_refl) as (Hready & Hpr & Hg & Hmx & _).
  assert (Hlimit : max_new_tokens h'
                   = Z.max 16 (llama_n_ctx E - token_count E prompt - 128)).
  { rewrite Hmx, Hcur, (context_ok_int E Hctx).
    unfold context_ok, INT_MAX in Hctx.
    rewrite (int_sub_id (llama_n_ctx E))
      by (unfold in_int, INT_MIN, INT_MAX; lia).
    rewrite int_sub_id by (unfold in_int, INT_MIN, INT_MAX; lia).
    reflexivity. }
  exists w', h'.
  split; [exact Hcall|]. split; [exact Hh'|]. split; [exact Hready|].
  split; [congruence|]. split; [exact Hg|]. split; [exact Hlimit|].
  split; [intros HC HT; rewrite Hlimit, HC, HT; reflexivity|].
  intros calls rs w2 Hruns Hlen Hpos temp top_p size.
  destruct (run_next_all_positive _ _ _ _ _ _ _ Hw' Hh' Hruns Hpos)
    as (h2 & Hh2 & Hg2).
  destruct (run_next_session _ _ _ _ _ _ _ Hw' Hh' Hruns)
    as (h2' & Hh2' & Hp2 & _ & Hmx2 & _).
  rewrite Hh2 in Hh2'. inversion Hh2'; subst h2'; clear Hh2'.
  pose proof (run_next_reachable _ _ _ _ _ _ Hw' Hruns) as Hw2.
  destruct (run_next_exhausted E p [(temp, top_p, size)] w2 h2 Hw2 Hh2)
    as (rs3 & w3 & _ & _ & Hrun3 & _ & _ & _ & Hzero & _);
    [congruence | lia |].
  specialize (Hzero Hsam). simpl in Hrun3.
  destruct (wrapper_get_next_token E w2 p temp top_p size)
    as [[[r out] w4]| |] eqn:Hcall3; try discriminate.
  inversion Hrun3; subst. inversion Hzero; subst.
  pose proof (live_not_null _ _ _ (reachable_ok _ _ Hw2) Hh2) as Hp2'.
  destruct (reachable_ok _ _ Hw2) as (_ & Hlive2).
  destruct (Hlive2 p h2 Hh2) as (_ & (_ & Hc2 & Hv2 & _) & _).
  destruct (get_next_token_guarded E h2 (trace w2) temp top_p size)
    as (r & h3 & evs & Hg3 & _); auto; [congruence | right; lia |].
  rewrite (wrapper_get_next_token_live _ _ _ h2) in Hcall3 by auto.
  rewrite Hg3 in Hcall3. inversion Hcall3; subst. eauto.
Qed.

Lemma prepare_sets_generation_limit_witness :
  let E := toy_engine 256 9 in
  reachable E (toy_world E) /\
  heap (toy_world E) !! 1%N = Some (handle_at (toy_world E) 1) /\
  context_ok E /\ decode_reliable E /\ sampler_reliable E /\
  token_count E (prompt_of_length 50) < llama_n_ctx E - 128 /\
  exists w' h',
    wrapper_prepare_prompt E (toy_world E) 1 (prompt_of_length 50)
    = Ret (true, w') /\
    heap w' !! 1%N = Some h' /\ max_new_tokens h' = 78.
Proof.
  intros E.
  assert (Hctx : context_ok E) by (unfold context_ok, INT_MAX; simpl; lia).
  assert (Hw : reachable E (toy_world E))
    by (apply toy_world_reachable; vm_compute; reflexivity).
  assert (Hh : heap (toy_world E) !! 1%N = Some (handle_at (toy_world E) 1))
    by (vm_compute; reflexivity).
  assert (Hdec : decode_reliable E) by (intros t b; reflexivity).
  assert (Hsam : sampler_reliable E) by (intros t; reflexivity).
  assert (Hfit : token_count E (prompt_of_length 50) < llama_n_ctx E - 128)
    by (vm_compute; reflexivity).
  split; [exact Hw|]. split; [exact Hh|]. split; [exact Hctx|].
  split; [exact Hdec|]. split; [exact Hsam|]. split; [exact Hfit|].
  destruct (prepare_sets_generation_limit E (toy_world E) 1%N
              (handle_at (toy_world E) 1) (prompt_of_length 50)
              Hw Hh Hctx Hdec Hsam Hfit)
    as (w' & h' & Hcall & Hh' & _ & _ & _ & _ & Hex & _).
  exists w', h'. split; [exact Hcall|]. split; [exact Hh'|].
  apply Hex; vm_compute; reflexivity.
Defined.

(** ** Substring search *)

Lemma starts_with_append (m s : string) :
  starts_with m (String.append m s) = true.
Proof.
  induction m as [|c m IH]; simpl; [reflexivity|].
  now rewrite Ascii.eqb_refl, IH.
Qed.

Lemma starts_with_split (m : string) : forall s,
  starts_with m s = true -> exists post, s = String.append m post.
Proof.
  induction m as [|c m IH]; simpl; intros s H.
  - now exists s.
  - destruct s as [|d s]; [discriminate|].
    apply andb_true_iff in H as [Hc Hm]. apply Ascii.eqb_eq in Hc. subst d.
    destruct (IH s Hm) as (post & ->). now exists post.
Qed.

(** [strstr] finds a needle exactly when it occurs. *)
Lemma strstr_occurs (text m : string) :
  non_null (strstr text m) = true <-> occurs_in m text.
Proof.
  split.
  - induction text as [|c text IH]; simpl.
    + destruct (starts_with m EmptyString) eqn:Hs; [|discriminate].
      intros _. apply starts_with_split in Hs as (post & Hs).
      now exists EmptyString, post.
    + destruct (starts_with m (String c text)) eqn:Hs.
      * intros _. apply starts_with_split in Hs as (post & Hs).
        now exists EmptyString, post.
      * intros H. destruct (IH H) as (pre & post & ->).
        now exists (String c pre), post.
  - intros (pre & post & ->).
    induction pre as [|c pre IH]; simpl.
    + destruct (String.append m post) eqn:Hmp; simpl;
        rewrite <- ?Hmp, starts_with_append; reflexivity.
    + destruct (starts_with m (String c (String.append pre (String.append m post))));
        [reflexivity | exact IH].
Qed.

Lemma stop_word_found_occurs (text : string) :
  stop_word_found text = true
  <-> exists marker, In marker stop_sequences /\ occurs_in marker text.
Proof.
  unfold stop_word_found. rewrite existsb_exists.
  split; intros (m & Hin & Hm); exists m; (split; [exact Hin|]);
    now apply strstr_occurs.
Qed.

(** Text without a NUL is the C string it is stored as. *)
Lemma c_str_nul_free (s : string) :
  (forall c, In c (list_ascii_of_string s) -> c <> NUL) -> c_str s = s.
Proof.
  induction s as [|c s IH]; simpl; intros H; [reflexivity|].
  destruct (Ascii.eqb_spec c NUL) as [-> | _].
  - exfalso. apply (H NUL); auto.
  - rewrite IH; auto.
Qed.

(** X11. A turn marker in the text that reached the buffer ends the call
    without submitting the token.  Whenever a call on a live handle draws
    a token whose piece was written to [out_buf] (a positive count was
    reported for it) and the text left there contains one of the four stop
    words (the literal "<|im_start|>" among them), the call returns 0, no
    [llama_decode] is issued, and the cursor, the generated count and the
    batch are as before the call. *)
Theorem turn_marker_stops_without_submitting
    E w p h temp top_p size h1 tr1 id n written marker :
  p <> null -> heap w !! p = Some h ->
  samples E h (trace w) temp top_p size h1 tr1 id n written ->
  0 < n ->
  In marker stop_sequences -> occurs_in marker (c_str written) ->
  exists w' h' evs,
    wrapper_get_next_token E w p temp top_p size
    = Ret (0, Some (c_str written), w') /\
    heap w' !! p = Some h' /\
    n_cur h' = n_cur h /\ n_gen h' = n_gen h /\ batch h' = batch h /\
    n_prompt h' = n_prompt h /\ is_prepared h' = true /\
    trace w' = trace w ++ evs /\
    forallb (fun e => negb (is_decode e)) evs = true /\
    In (EvSample id) evs.
Proof.
  intros Hp Hh Hs Hn Hin Hocc.
  assert (Hstop : stop_word_found (c_str written) = true)
    by (apply stop_word_found_occurs; eauto).
  pose proof (next_stop_word E h (trace w) temp top_p size h1 tr1 id n written
                Hs Hn Hstop) as Hpath.
  apply paths_get_next_token in Hpath.
  destruct Hs as (Hready & Hes & _).
  pose proof (ensure_sampler_fields _ _ _ _ _ _ _ _ Hes)
    as (_ & _ & _ & Hb & Hcur & Hp1 & _ & Hpr & Hgen & _).
  destruct (ensure_sampler_trace _ _ _ _ _ _ _ _ Hes)
    as (evs & Htr & Hsam & _).
  exists (mkWorld (<[p := h1]> (heap w)) (next_addr w)
            (tr1 ++ [EvSample id; EvLog LogStopSequence])),
    h1, (evs ++ [EvSample id; EvLog LogStopSequence]).
  split.
  { rewrite (wrapper_get_next_token_live _ _ _ h) by auto. now rewrite Hpath. }
  simpl. split; [apply lookup_insert_eq|].
  repeat split; auto; try congruence.
  - now rewrite Htr, app_assoc.
  - rewrite forallb_app. apply andb_true_iff. split; [|reflexivity].
    clear -Hsam. induction evs as [|e evs IH]; [reflexivity|].
    simpl in *. apply andb_true_iff in Hsam as [He Hrest].
    rewrite (IH Hrest). destruct e; try discriminate; reflexivity.
  - apply in_or_app. right. now left.
Qed.

Lemma turn_marker_stops_without_submitting_witness :
  let E := toy_engine 256 8 in
  let w := toy_world E in
  let h := handle_at w 1 in
  let s := ensure_sampler E h (trace w) f_half f_half in
  1%N <> null /\ heap w !! 1%N = Some h /\
  samples E h (trace w) f_half f_half 64 (snd (fst s)) (snd s) 8 12
    "<|im_start|>" /\
  exists w', wrapper_get_next_token E w 1 f_half f_half 64
             = Ret (0, Some "<|im_start|>"%string, w').
Proof.
  intros E w h s.
  assert (Hp : 1%N <> null) by discriminate.
  assert (Hh : heap w !! 1%N = Some h) by (vm_compute; reflexivity).
  assert (Hs : samples E h (trace w) f_half f_half 64 (snd (fst s)) (snd s)
                 8 12 "<|im_start|>").
  { unfold samples. repeat split; vm_compute; reflexivity. }
  split; [exact Hp|]. split; [exact Hh|]. split; [exact Hs|].
  destruct (turn_marker_stops_without_submitting E w 1%N h f_half f_half 64
              (snd (fst s)) (snd s) 8 12 "<|im_start|>" "<|im_start|>"
              Hp Hh Hs)
    as (w' & _ & _ & Hcall & _).
  - reflexivity.
  - right. left. reflexivity.
  - exists EmptyString, EmptyString. reflexivity.
  - exists w'. exact Hcall.
Defined.

(** C4.  The claim fails on the code when the caller's buffer is shorter
    than the token's text.  The sampler draws token 8, whose text is the
    turn marker "<|im_start|>", 12 bytes long, and the call passes a
    buffer of 8 bytes: [llama_token_to_piece] reports -12, the stop-word
    check, which sits under [n > 0], is skipped, the piece is logged as
    empty, the token is submitted and accepted, the cursor and the
    generated count advance by one, and the call returns -12.  With a
    buffer of 64 bytes the same token ends the call with 0 and nothing is
    submitted. *)
Theorem marker_in_short_buffer_is_submitted :
  let E := toy_engine 256 8 in
  let w := toy_world E in
  let h := handle_at w 1 in
  let w' := match wrapper_get_next_token E w 1 f_half f_half 8 with
            | Ret (_, _, w') => w'
            | _ => empty_world
            end in
  let w64 := match wrapper_get_next_token E w 1 f_half f_half 64 with
             | Ret (_, _, w') => w'
             | _ => empty_world
             end in
  heap w !! 1%N = Some h /\ is_prepared h = true /\
  llama_sampler_sample E (snd (ensure_sampler E h (trace w) f_half f_half))
  = 8 /\
  vocab_piece E 8 = "<|im_start|>"%string /\
  In "<|im_start|>"%string stop_sequences /\
  wrapper_get_next_token E w 1 f_half f_half 8 = Ret (-12, None, w') /\
  drop (length (trace w)) (trace w')
  = [EvSamplerChainInit]
    ++ map EvSamplerChainAdd (sampler_chain f_half f_half)
    ++ [EvSample 8; EvLog (LogEmptyPiece 8);
        EvDecode [mkEntry 8 3 1 0 true] 0] /\
  token_accepted (trace w) (trace w') /\
  (n_cur h, n_gen h) = (3, 0) /\
  (n_cur (handle_at w' 1), n_gen (handle_at w' 1)) = (4, 1) /\
  wrapper_get_next_token E w 1 f_half f_half 64
  = Ret (0, Some "<|im_start|>"%string, w64) /\
  (n_cur (handle_at w64 1), n_gen (handle_at w64 1)) = (3, 0).
Proof.
  intros E w h w' w64.
  split; [vm_compute; reflexivity|]. split; [vm_compute; reflexivity|].
  split; [vm_compute; reflexivity|]. split; [reflexivity|].
  split; [right; left; reflexivity|].
  split; [vm_compute; reflexivity|].
  split; [vm_compute; reflexivity|].
  split.
  { exists ([EvSamplerChainInit]
            ++ map EvSamplerChainAdd (sampler_chain f_half f_half)
            ++ [EvSample 8; EvLog (LogEmptyPiece 8)]),
      [mkEntry 8 3 1 0 true].
    vm_compute. reflexivity. }
  split; [vm_compute; reflexivity|]. split; [vm_compute; reflexivity|].
  split; vm_compute; reflexivity.
Qed.

(** ** How a call ended *)

Lemma stopped_by_last (m : LogMsg) (tr evs : Trace) :
  stopped_by m tr (tr ++ evs) <-> last evs = Some (EvLog m).
Proof.
  split.
  - intros (mid & H). apply app_inv_head in H. subst evs. apply last_snoc.
  - intros H. apply last_Some in H as [mid ->]. now exists mid.
Qed.

Lemma not_stopped_same (m : LogMsg) (tr : Trace) : ~ stopped_by m tr tr.
Proof.
  intros (mid & H). rewrite <- (app_nil_r tr) in H at 1.
  apply app_inv_head in H. destruct mid; discriminate.
Qed.

(** Brings a hypothesis [stopped_by m tr (tr ++ ...)] down to the last
    event of the extension. *)
Ltac stop_end H :=
  rewrite <- ?app_assoc in H; unfold piece_log in H;
  repeat match type of H with
         | context [if ?c then _ else _] => destruct c
         end;
  simpl in H; rewrite stopped_by_last, last_app_cons in H; simpl in H.

(** A call that ended on one of the four stop lines returned 0; a call
    whose token was accepted returned what [llama_token_to_piece] reported
    for the token drawn after the sampler was set up. *)
Lemma get_next_token_result E h tr temp top_p size r out h' tr' :
  get_next_token E h tr temp top_p size = Ret (r, out, h', tr') ->
  (forall m, is_stop_log m = true -> stopped_by m tr tr' -> r = 0) /\
  (token_accepted tr tr' ->
   let id := llama_sampler_sample E (snd (ensure_sampler E h tr temp top_p)) in
   (r, out) = (fst (llama_token_to_piece E id (int_sub size 1)),
               shown (fst (llama_token_to_piece E id (int_sub size 1)))
                 (snd (llama_token_to_piece E id (int_sub size 1))))).
Proof.
  intros H. apply get_next_token_paths in H.
  destruct H as
    [ Hp
    | h1 tr1 Hp Hes
    | h1 tr1 Hp Hes Hc Hfull
    | h1 tr1 Hp Hes Hc Hroom Hmaxed
    | h1 tr1 id n written Hs Hn Hw
    | h1 tr1 id n written Hs Hns Heog
    | h1 tr1 id n written old arr res Hs Hns Heog Hslots Hres Hne
    | h1 tr1 id n written old arr Hs Hns Heog Hslots Hres ];
    try (destruct Hs as (Hp & Hes & Hc & Hv & Hroom & Hleft & Hid & Hpiece)).
  1:{ split.
      - intros m _ Hstop. now apply not_stopped_same in Hstop.
      - intros Hacc. now apply not_accepted_same in Hacc. }
  all: destruct (ensure_sampler_trace _ _ _ _ _ _ _ _ Hes)
      as (evs & Htr & _ & _); subst tr1; split;
    [ intros m Hm Hstop | intros Hacc ]; try reflexivity.
  all: try (exfalso; revert Hacc; trace_end;
            intros (entries & Hlast); congruence).
  - stop_end Hstop. inversion Hstop; subst m. discriminate.
  - stop_end Hstop; inversion Hstop; subst m; discriminate.
  - stop_end Hstop; discriminate.
  - rewrite Hes. simpl. rewrite <- Hid, Hpiece. reflexivity.
Qed.

Lemma llama_token_to_piece_positive E id cap :
  0 < fst (llama_token_to_piece E id cap)
  <-> 0 < Z.of_nat (String.length (vocab_piece E id)) <= cap.
Proof.
  unfold llama_token_to_piece.
  destruct (Z.leb_spec (Z.of_nat (String.length (vocab_piece E id))) cap);
    simpl; lia.
Qed.

Lemma llama_token_to_piece_fits E id cap :
  Z.of_nat (String.length (vocab_piece E id)) <= cap ->
  llama_token_to_piece E id cap
  = (Z.of_nat (String.length (vocab_piece E id)), vocab_piece E id).
Proof.
  unfold llama_token_to_piece. intros H.
  destruct (Z.leb_spec (Z.of_nat (String.length (vocab_piece E id))) cap);
    [reflexivity | lia].
Qed.

Lemma token_accepted_intro (before after evs : Trace) entries :
  after = before ++ evs -> last evs = Some (EvDecode entries 0) ->
  token_accepted before after.
Proof. intros -> H. apply accepted_last. eauto. Qed.

(** A call that returned 0 ended on one of the four stop lines, or had
    its token accepted and the token's piece is empty; a call that returned
    something else without its token being accepted returned one of the
    three error codes. *)
Lemma get_next_token_zero E h tr temp top_p size r out h' tr' :
  get_next_token E h tr temp top_p size = Ret (r, out, h', tr') ->
  let id := llama_sampler_sample E (snd (ensure_sampler E h tr temp top_p)) in
  (r = 0 ->
   (exists m, is_stop_log m = true /\ stopped_by m tr tr') \/
   (token_accepted tr tr' /\ String.length (vocab_piece E id) = 0%nat)) /\
  (r <> 0 -> ~ token_accepted tr tr' -> r = -2 \/ r = -3 \/ r = -4).
Proof.
  intros H. apply get_next_token_paths in H. cbv zeta.
  destruct H as
    [ Hp
    | h1 tr1 Hp Hes
    | h1 tr1 Hp Hes Hc Hfull
    | h1 tr1 Hp Hes Hc Hroom Hmaxed
    | h1 tr1 id n written Hs Hn Hw
    | h1 tr1 id n written Hs Hns Heog
    | h1 tr1 id n written old arr res Hs Hns Heog Hslots Hres Hne
    | h1 tr1 id n written old arr Hs Hns Heog Hslots Hres ];
    try (destruct Hs as (Hp & Hes & Hc & Hv & Hroom & Hleft & Hid & Hpiece)).
  1,2,7: split; [discriminate | intros _ _; auto].
  1-4: split; [intros _; left | intros Hr; now contradiction Hr];
    destruct (ensure_sampler_trace _ _ _ _ _ _ _ _ Hes)
      as (evs & -> & _ & _).
  - exists (LogContextFull (n_cur h) (wrap32 (llama_n_ctx E))).
    split; [reflexivity|]. exists evs. now rewrite app_assoc.
  - exists LogMaxNewTokens. split; [reflexivity|].
    exists evs. now rewrite app_assoc.
  - exists LogStopSequence. split; [reflexivity|].
    exists (evs ++ [EvSample id]). now rewrite <- !app_assoc.
  - exists LogEOS. split; [reflexivity|].
    exists (evs ++ [EvSample id] ++ piece_log n id).
    now rewrite <- !app_assoc.
  - split.
    + intros ->. right. split.
      * destruct (ensure_sampler_trace _ _ _ _ _ _ _ _ Hes)
          as (evs & -> & _ & _).
        exists (evs ++ [EvSample id] ++ piece_log 0 id), [next_entry id h].
        now rewrite <- !app_assoc.
      * rewrite Hes. cbn [snd]. rewrite <- Hid.
        unfold llama_token_to_piece in Hpiece.
        destruct (Z.of_nat (String.length (vocab_piece E id))
                  <=? int_sub size 1);
          injection Hpiece as Hn _; lia.
    + intros _ Hna. exfalso. apply Hna.
      destruct (ensure_sampler_trace _ _ _ _ _ _ _ _ Hes)
        as (evs & -> & _ & _).
      exists (evs ++ [EvSample id] ++ piece_log n id), [next_entry id h].
      now rewrite <- !app_assoc.
Qed.

(** C3, as amended.  The four stop paths return 0, and a call returns 0
    only on one of them or when it submits a token whose decoded text is
    empty; a failed call returns -2, -3 or -4.  A call whose token is
    submitted and accepted advances both counters, and when the token's
    text fits in the buffer it returns the byte count of that text, which
    is positive unless the text is empty, in which case nothing is
    written. *)
Theorem returned_byte_count E w p h temp top_p size r out w' :
  reachable E w -> heap w !! p = Some h ->
  wrapper_get_next_token E w p temp top_p size = Ret (r, out, w') ->
  let id := llama_sampler_sample E
              (snd (ensure_sampler E h (trace w) temp top_p)) in
  let len := Z.of_nat (String.length (vocab_piece E id)) in
  (forall m, is_stop_log m = true ->
             stopped_by m (trace w) (trace w') -> r = 0) /\
  (r = 0 ->
   (exists m, is_stop_log m = true /\ stopped_by m (trace w) (trace w')) \/
   (token_accepted (trace w) (trace w') /\ len = 0)) /\
  (r <> 0 -> ~ token_accepted (trace w) (trace w') ->
   r = -2 \/ r = -3 \/ r = -4) /\
  (token_accepted (trace w) (trace w') ->
   (exists h', heap w' !! p = Some h' /\
               n_cur h' = n_cur h + 1 /\ n_gen h' = n_gen h + 1) /\
   (len <= int_sub size 1 ->
    r = len /\ (0 < r <-> len <> 0) /\
    (0 < r -> out = Some (c_str (vocab_piece E id))) /\
    (r = 0 -> out = None))).
Proof.
  intros Hw Hh Hcall.
  pose proof (reachable_ok _ _ Hw) as Hok.
  pose proof (live_not_null _ _ _ Hok Hh) as Hp.
  destruct (wrapper_get_next_token_inv _ _ _ _ _ _ _ _ _ _ Hp Hh Hcall)
    as (h' & Hrun & _).
  destruct (get_next_token_result _ _ _ _ _ _ _ _ _ _ Hrun) as (Hstop & Hacc).
  destruct (get_next_token_zero _ _ _ _ _ _ _ _ _ _ Hrun) as (Hzero & Herr).
  cbv zeta in Hacc, Hzero |- *.
  set (id := llama_sampler_sample E
               (snd (ensure_sampler E h (trace w) temp top_p))) in *.
  split; [exact Hstop|]. split.
  { intros Hr. destruct (Hzero Hr) as [Hs | (Ha & Hlen)]; [now left|].
    right. split; [exact Ha | lia]. }
  split; [exact Herr|].
  intros Ha. specialize (Hacc Ha).
  inversion Hacc as [[Hr Hout]].
  split.
  { destruct (wrapper_get_next_token_counters _ _ _ _ _ _ _ _ _ _ Hok Hh Hcall)
      as (h2 & Hh2 & _ & _ & _ & [(_ & _ & Hna & _) | (Hc & Hg & _)]);
      [contradiction|].
    exists h2. auto. }
  intros Hfit. rewrite (llama_token_to_piece_fits E id _ Hfit).
  cbn [fst snd]. unfold shown.
  split; [reflexivity|]. split; [lia|].
  destruct (Z.gtb_spec (Z.of_nat (String.length (vocab_piece E id))) 0);
    split; intros; first [reflexivity | lia].
Qed.

Lemma returned_byte_count_witness :
  let E := toy_engine 256 9 in
  let w := toy_world E in
  let w' := match wrapper_get_next_token E w 1 f_half f_half 64 with
            | Ret (_, _, w') => w'
            | _ => empty_world
            end in
  reachable E w /\ heap w !! 1%N = Some (handle_at w 1) /\
  wrapper_get_next_token E w 1 f_half f_half 64
  = Ret (2, Some "ab"%string, w') /\
  token_accepted (trace w) (trace w') /\
  exists h', heap w' !! 1%N = Some h' /\
             n_cur h' = n_cur (handle_at w 1) + 1 /\
             n_gen h' = n_gen (handle_at w 1) + 1.
Proof.
  intros E w w'.
  assert (Hw : reachable E w)
    by (apply toy_world_reachable; vm_compute; reflexivity).
  assert (Hh : heap w !! 1%N = Some (handle_at w 1))
    by (vm_compute; reflexivity).
  assert (Hcall : wrapper_get_next_token E w 1 f_half f_half 64
                  = Ret (2, Some "ab"%string, w'))
    by (vm_compute; reflexivity).
  assert (Hacc : token_accepted (trace w) (trace w')).
  { apply (token_accepted_intro _ _ (drop (length (trace w)) (trace w'))
             [mkEntry 9 3 1 0 true]); vm_compute; reflexivity. }
  split; [exact Hw|]. split; [exact Hh|]. split; [exact Hcall|].
  split; [exact Hacc|].
  exact (proj1 (proj2 (proj2 (proj2
           (returned_byte_count E w 1%N (handle_at w 1) f_half
              f_half 64 2 (Some "ab"%string) w' Hw Hh Hcall))) Hacc)).
Defined.

(** C3, as stated, fails: with a sampler that draws a token whose piece is
    empty and which is not an end-of-generation token, the call submits
    the token, the engine accepts it, both counters advance, and the call
    returns 0. *)
Lemma accepted_call_returns_zero :
  let E := toy_engine 256 7 in
  let w := toy_world E in
  llama_vocab_is_eog E 7 = false /\
  exists w' h',
    wrapper_get_next_token E w 1 f_half f_half 64 = Ret (0, None, w') /\
    heap w' !! 1%N = Some h' /\
    n_cur h' = n_cur (handle_at w 1) + 1 /\
    n_gen h' = n_gen (handle_at w 1) + 1 /\
    token_accepted (trace w) (trace w').
Proof.
  intros E w. split; [reflexivity|].
  pose (w' := match wrapper_get_next_token E w 1 f_half f_half 64 with
              | Ret (_, _, w') => w'
              | _ => empty_world
              end).
  exists w', (handle_at w' 1).
  split; [vm_compute; reflexivity|].
  split; [vm_compute; reflexivity|].
  split; [vm_compute; reflexivity|].
  split; [vm_compute; reflexivity|].
  apply (token_accepted_intro _ _ (drop (length (trace w)) (trace w'))
           [mkEntry 7 3 1 0 true]); vm_compute; reflexivity.
Qed.

(** ** Rebuilding and resetting the sampler *)

Lemma rebuilds_app (a b : Trace) :
  rebuilds (a ++ b) = (rebuilds a + rebuilds b)%nat.
Proof.
  induction a as [|e a IH]; simpl; [reflexivity|].
  destruct e; auto. now rewrite IH.
Qed.

Lemma resets_app (a b : Trace) :
  resets (a ++ b) = (resets a + resets b)%nat.
Proof.
  induction a as [|e a IH]; simpl; [reflexivity|].
  destruct e; auto. now rewrite IH.
Qed.

(** On a hit the pipeline is reset and nothing else happens; on a miss it
    is constructed once, and when that works the cache holds the chain
    for the requested pair. *)
Lemma ensure_sampler_cache E h tr temp top_p :
  exists evs,
    snd (ensure_sampler E h tr temp top_p) = tr ++ evs /\
    (cache_hit h temp top_p = true ->
       ensure_sampler E h tr temp top_p = (true, h, tr ++ [EvSamplerReset])
       /\ evs = [EvSamplerReset]) /\
    (cache_hit h temp top_p = false ->
       rebuilds evs = 1%nat /\ resets evs = 0%nat /\
       (fst (fst (ensure_sampler E h tr temp top_p)) = true ->
        smpl (snd (fst (ensure_sampler E h tr temp top_p)))
        = Some (sampler_chain temp top_p) /\
        last_temp (snd (fst (ensure_sampler E h tr temp top_p))) = temp /\
        last_top_p (snd (fst (ensure_sampler E h tr temp top_p))) = top_p)).
Proof.
  unfold ensure_sampler. fold (cache_hit h temp top_p).
  destruct (cache_hit h temp top_p).
  - exists [EvSamplerReset]. repeat split; auto; discriminate.
  - destruct (non_null (smpl h));
      match goal with
      | |- context [chain_init_ok E ?t] => destruct (chain_init_ok E t)
      end; simpl; rewrite <- ?app_assoc; eexists;
      (split; [reflexivity|]); (split; [discriminate|]); intros _;
      repeat split; auto; discriminate.
Qed.

(** After the sampler is set up a call issues no sampler event and leaves
    the sampler fields alone. *)
Lemma get_next_token_sampler E h tr temp top_p size r out h' tr' :
  get_next_token E h tr temp top_p size = Ret (r, out, h', tr') ->
  is_prepared h = true ->
  exists rest,
    tr' = snd (ensure_sampler E h tr temp top_p) ++ rest /\
    rebuilds rest = 0%nat /\ resets rest = 0%nat /\
    smpl h' = smpl (snd (fst (ensure_sampler E h tr temp top_p))) /\
    last_temp h' = last_temp (snd (fst (ensure_sampler E h tr temp top_p))) /\
    last_top_p h' = last_top_p (snd (fst (ensure_sampler E h tr temp top_p))) /\
    is_prepared h' = true.
Proof.
  intros H Hready. apply get_next_token_paths in H.
  destruct H as
    [ Hp
    | h1 tr1 Hp Hes
    | h1 tr1 Hp Hes Hc Hfull
    | h1 tr1 Hp Hes Hc Hroom Hmaxed
    | h1 tr1 id n written Hs Hn Hw
    | h1 tr1 id n written Hs Hns Heog
    | h1 tr1 id n written old arr res Hs Hns Heog Hslots Hres Hne
    | h1 tr1 id n written old arr Hs Hns Heog Hslots Hres ];
    try (destruct Hs as (Hp & Hes & Hc & Hv & Hroom & Hleft & Hid & Hpiece));
    [congruence|..];
    pose proof (ensure_sampler_fields _ _ _ _ _ _ _ _ Hes)
      as (_ & _ & _ & _ & _ & Hp1 & _);
    rewrite Hes; simpl; eexists; (split; [reflexivity|]);
    unfold piece_log; try destruct (n >? 0); simpl;
    repeat split; auto; congruence.
Qed.

(** One call of a ready session, seen from the sampler cache. *)
Lemma wrapper_get_next_token_cache E w p h temp top_p size r out w' :
  p <> null -> heap w !! p = Some h -> is_prepared h = true ->
  wrapper_get_next_token E w p temp top_p size = Ret (r, out, w') ->
  exists evs h',
    trace w' = trace w ++ evs /\ heap w' !! p = Some h' /\
    is_prepared h' = true /\
    (cache_hit h temp top_p = true ->
       rebuilds evs = 0%nat /\ resets evs = 1%nat /\
       cache_hit h' temp top_p = true) /\
    (cache_hit h temp top_p = false ->
       rebuilds evs = 1%nat /\ resets evs = 0%nat /\
       (fst (fst (ensure_sampler E h (trace w) temp top_p)) = true ->
        float_eq temp temp = true -> float_eq top_p top_p = true ->
        cache_hit h' temp top_p = true)).
Proof.
  intros Hp Hh Hready Hcall.
  destruct (wrapper_get_next_token_inv _ _ _ _ _ _ _ _ _ _ Hp Hh Hcall)
    as (h' & Hrun & Hheap & _).
  destruct (get_next_token_sampler _ _ _ _ _ _ _ _ _ _ Hrun Hready)
    as (rest & Htr & Hrb & Hrs & Hs & Hlt & Hlp & Hready').
  destruct (ensure_sampler_cache E h (trace w) temp top_p)
    as (evs & Hevs & Hhit & Hmiss).
  exists (evs ++ rest), h'.
  split; [rewrite Htr, Hevs; now rewrite app_assoc|].
  split; [rewrite Hheap; apply lookup_insert_eq|].
  split; [exact Hready'|].
  rewrite rebuilds_app, resets_app, Hrb, Hrs.
  split.
  - intros Hy. destruct (Hhit Hy) as (Heq & ->).
    rewrite Heq in Hs, Hlt, Hlp. simpl in *.
    repeat split; auto.
    unfold cache_hit in *. now rewrite Hs, Hlt, Hlp.
  - intros Hn. destruct (Hmiss Hn) as (Hb & Hz & Hbuilt).
    rewrite Hb, Hz. repeat split; auto.
    intros Hok Ht Hq. destruct (Hbuilt Hok) as (Hs1 & Hlt1 & Hlp1).
    unfold cache_hit. rewrite Hs, Hlt, Hlp, Hs1, Hlt1, Hlp1.
    simpl. now rewrite Ht, Hq.
Qed.

Lemma run_next_cache_hit E p temp top_p sizes : forall w h rs w',
  p <> null -> heap w !! p = Some h -> is_prepared h = true ->
  cache_hit h temp top_p = true ->
  run_next E w p (map (fun size => (temp, top_p, size)) sizes)
  = Ret (rs, w') ->
  exists evs, trace w' = trace w ++ evs /\
              rebuilds evs = 0%nat /\ resets evs = length sizes.
Proof.
  induction sizes as [|size sizes IH]; simpl; intros w h rs w' Hp Hh Hr Hhit H.
  - inversion H; subst. exists []. now rewrite app_nil_r.
  - destruct (wrapper_get_next_token E w p temp top_p size)
      as [[[r out] w1]| |] eqn:Hcall; try discriminate.
    destruct (run_next E w1 p _) as [[rs1 w2]| |] eqn:Hrest;
      inversion H; subst.
    destruct (wrapper_get_next_token_cache _ _ _ _ _ _ _ _ _ _ Hp Hh Hr Hcall)
      as (evs1 & h1 & Htr1 & Hh1 & Hr1 & Hy & _).
    destruct (Hy Hhit) as (Hb1 & Hs1 & Hhit1).
    destruct (IH w1 h1 rs1 w' Hp Hh1 Hr1 Hhit1 Hrest) as (evs & Htr & Hb & Hs).
    exists (evs1 ++ evs). rewrite Htr, Htr1, app_assoc.
    rewrite rebuilds_app, resets_app, Hb1, Hs1, Hb, Hs. auto.
Qed.

(** C5, as amended.  A generation call of a ready session rebuilds the
    pipeline exactly when no pipeline exists or the requested temperature
    or nucleus probability compares unequal, by the floating-point [==],
    to the cached value: then it constructs the pipeline once and does
    not reset it, otherwise it resets it once and constructs nothing.
    When the construction works and both requested values compare equal
    to themselves, the cache matches the pair afterwards; and from a
    matching cache any number of calls with that pair reset once each and
    never rebuild. *)
Theorem pipeline_rebuilt_on_cache_miss E w p h temp top_p :
  p <> null -> heap w !! p = Some h -> is_prepared h = true ->
  (cache_hit h temp top_p = false <->
   smpl h = None \/ float_eq temp (last_temp h) = false
   \/ float_eq top_p (last_top_p h) = false) /\
  (forall size r out w',
     wrapper_get_next_token E w p temp top_p size = Ret (r, out, w') ->
     exists evs h',
       trace w' = trace w ++ evs /\ heap w' !! p = Some h' /\
       is_prepared h' = true /\
       (cache_hit h temp top_p = true ->
          rebuilds evs = 0%nat /\ resets evs = 1%nat /\
          cache_hit h' temp top_p = true) /\
       (cache_hit h temp top_p = false ->
          rebuilds evs = 1%nat /\ resets evs = 0%nat /\
          (fst (fst (ensure_sampler E h (trace w) temp top_p)) = true ->
           float_eq temp temp = true -> float_eq top_p top_p = true ->
           cache_hit h' temp top_p = true))) /\
  (cache_hit h temp top_p = true ->
   forall sizes rs w',
     run_next E w p (map (fun size => (temp, top_p, size)) sizes)
     = Ret (rs, w') ->
     exists evs, trace w' = trace w ++ evs /\
                 rebuilds evs = 0%nat /\ resets evs = length sizes).
Proof.
  intros Hp Hh Hready. split; [|split].
  - unfold cache_hit. destruct (smpl h); simpl;
      destruct (float_eq temp (last_temp h)),
               (float_eq top_p (last_top_p h)); simpl;
      split; auto; intros [H | [H | H]]; congruence.
  - intros size r out w' Hcall.
    eapply wrapper_get_next_token_cache; eauto.
  - intros Hhit sizes rs w' Hrun.
    eapply run_next_cache_hit; eauto.
Qed.

Lemma pipeline_rebuilt_on_cache_miss_witness :
  let E := toy_engine 256 9 in
  let w := toy_world E in
  1%N <> null /\ heap w !! 1%N = Some (handle_at w 1) /\
  is_prepared (handle_at w 1) = true /\
  cache_hit (handle_at w 1) f_half f_three_quarters = false.
Proof.
  intros E w.
  assert (Hp : 1%N <> null) by discriminate.
  assert (Hh : heap w !! 1%N = Some (handle_at w 1))
    by (vm_compute; reflexivity).
  assert (Hr : is_prepared (handle_at w 1) = true)
    by (vm_compute; reflexivity).
  split; [exact Hp|]. split; [exact Hh|]. split; [exact Hr|].
  apply (proj1 (pipeline_rebuilt_on_cache_miss E w 1%N (handle_at w 1)
                  f_half f_three_quarters Hp Hh Hr)).
  left. vm_compute. reflexivity.
Defined.

(** C5, as stated, fails: two calls in a row with the same pair, whose
    temperature is a NaN.  After the first a pipeline exists and the
    cached pair is the requested one, yet the second call constructs the
    pipeline again instead of resetting it. *)
Lemma same_nan_pair_rebuilds :
  let E := toy_engine 256 9 in
  let w := toy_world E in
  let w1 := match wrapper_get_next_token E w 1 f_nan f_half 64 with
            | Ret (_, _, w1) => w1
            | _ => empty_world
            end in
  let w2 := match wrapper_get_next_token E w1 1 f_nan f_half 64 with
            | Ret (_, _, w2) => w2
            | _ => empty_world
            end in
  wrapper_get_next_token E w 1 f_nan f_half 64 = Ret (2, Some "ab"%string, w1)
  /\ smpl (handle_at w1 1) = Some (sampler_chain f_nan f_half)
  /\ last_temp (handle_at w1 1) = f_nan
  /\ last_top_p (handle_at w1 1) = f_half
  /\ wrapper_get_next_token E w1 1 f_nan f_half 64
     = Ret (2, Some "ab"%string, w2)
  /\ rebuilds (drop (length (trace w1)) (trace w2)) = 1%nat
  /\ resets (drop (length (trace w1)) (trace w2)) = 0%nat.
Proof.
  intros E w w1 w2.
  split; [vm_compute; reflexivity|]. split; [vm_compute; reflexivity|].
  split; [vm_compute; reflexivity|]. split; [vm_compute; reflexivity|].
  split; [vm_compute; reflexivity|]. split; vm_compute; reflexivity.
Qed.

(** ** Totality of a generation call *)

Lemma initialised_slot (h : LlamaHandle) :
  initialised h -> exists old arr, slots (batch h) = Some (old :: arr).
Proof.
  intros (_ & _ & _ & Hbs & Hcap). unfold capacity in Hcap.
  destruct (slots (batch h)) as [[|old arr]|]; try discriminate; eauto.
  injection Hcap as Hcap. simpl in Hcap. lia.
Qed.

(** On an initialised handle the call always returns. *)
Lemma get_next_token_returns E h tr temp top_p size :
  initialised h ->
  exists r out h' tr',
    get_next_token E h tr temp top_p size = Ret (r, out, h', tr').
Proof.
  intros Hi. destruct (initialised_slot h Hi) as (old & arr & Hslots).
  destruct Hi as (_ & Hc & Hv & _).
  destruct (is_prepared h) eqn:Hp.
  2:{ eexists _, _, _, _. apply paths_get_next_token. now constructor. }
  destruct (ensure_sampler E h tr temp top_p) as [[ok h1] tr1] eqn:Hes.
  destruct ok.
  2:{ eexists _, _, _, _. apply paths_get_next_token.
      eapply next_sampler_failed; eauto. }
  destruct (Z.le_gt_cases (int_sub (wrap32 (llama_n_ctx E)) 4) (n_cur h))
    as [Hfull | Hroom].
  { eexists _, _, _, _. apply paths_get_next_token.
    eapply next_context_full; eauto. }
  destruct (Z.le_gt_cases (max_new_tokens h) (n_gen h)) as [Hmaxed | Hleft].
  { eexists _, _, _, _. apply paths_get_next_token.
    apply next_limit; eauto; lia. }
  destruct (llama_token_to_piece E (llama_sampler_sample E tr1)
              (int_sub size 1)) as [n written] eqn:Hpiece.
  assert (Hs : samples E h tr temp top_p size h1 tr1
                 (llama_sampler_sample E tr1) n written).
  { unfold samples. repeat split; auto; lia. }
  destruct ((n >? 0) && stop_word_found (c_str written)) eqn:Hstop.
  { apply andb_true_iff in Hstop as [Hn Hw].
    eexists _, _, _, _. apply paths_get_next_token.
    eapply next_stop_word; eauto. lia. }
  assert (Hns : no_stop_word n written).
  { unfold no_stop_word. apply andb_false_iff in Hstop as [Hn | Hw]; auto.
    left. lia. }
  destruct (llama_vocab_is_eog E (llama_sampler_sample E tr1)) eqn:Heog.
  { eexists _, _, _, _. apply paths_get_next_token.
    eapply next_eog; eauto. }
  destruct (Z.eq_dec
              (llama_decode E
                 (tr1 ++ [EvSample (llama_sampler_sample E tr1)]
                      ++ piece_log n (llama_sampler_sample E tr1))
                 [next_entry (llama_sampler_sample E tr1) h]) 0)
    as [Hz | Hnz].
  - eexists _, _, _, _. apply paths_get_next_token.
    eapply next_advanced; eauto.
  - eexists _, _, _, _. apply paths_get_next_token.
    eapply next_decode_failed; eauto.
Qed.

(** ** Stops *)

(** A call that ended on a stop line: it returned 0, only the sampler
    fields can differ from before, and the guards held or not according
    to the line. *)
Lemma get_next_token_stop E h tr temp top_p size r out h' tr' m :
  get_next_token E h tr temp top_p size = Ret (r, out, h', tr') ->
  is_stop_log m = true -> stopped_by m tr tr' ->
  r = 0 /\ is_prepared h = true /\
  h' = snd (fst (ensure_sampler E h tr temp top_p)) /\
  (if is_sampled_stop m
   then n_cur h < int_sub (wrap32 (llama_n_ctx E)) 4
        /\ n_gen h < max_new_tokens h
   else int_sub (wrap32 (llama_n_ctx E)) 4 <= n_cur h
        \/ max_new_tokens h <= n_gen h).
Proof.
  intros H Hm Hstop. apply get_next_token_paths in H.
  destruct H as
    [ Hp
    | h1 tr1 Hp Hes
    | h1 tr1 Hp Hes Hc Hfull
    | h1 tr1 Hp Hes Hc Hroom Hmaxed
    | h1 tr1 id n written Hs Hn Hw
    | h1 tr1 id n written Hs Hns Heog
    | h1 tr1 id n written old arr res Hs Hns Heog Hslots Hres Hne
    | h1 tr1 id n written old arr Hs Hns Heog Hslots Hres ];
    try (destruct Hs as (Hp & Hes & Hc & Hv & Hroom & Hleft & Hid & Hpiece)).
  1:{ now apply not_stopped_same in Hstop. }
  all: destruct (ensure_sampler_trace _ _ _ _ _ _ _ _ Hes)
      as (evs & Htr & _ & _); subst tr1; rewrite Hes; simpl.
  - stop_end Hstop. inversion Hstop; subst m. discriminate.
  - stop_end Hstop. inversion Hstop; subst m. simpl. auto.
  - stop_end Hstop. inversion Hstop; subst m. simpl. auto.
  - stop_end Hstop. inversion Hstop; subst m. simpl. auto.
  - stop_end Hstop; inversion Hstop; subst m; simpl; auto.
  - stop_end Hstop; inversion Hstop; subst m; discriminate.
  - stop_end Hstop; discriminate.
Qed.

(** A ready session whose guards pass and whose sampler is in place draws
    a token. *)
Lemma get_next_token_draws E h tr temp top_p size r out h' tr' :
  get_next_token E h tr temp top_p size = Ret (r, out, h', tr') ->
  is_prepared h = true ->
  fst (fst (ensure_sampler E h tr temp top_p)) = true ->
  n_cur h < int_sub (wrap32 (llama_n_ctx E)) 4 ->
  n_gen h < max_new_tokens h ->
  exists evs, tr' = tr ++ evs /\ existsb is_sample evs = true.
Proof.
  intros H Hready Hok Hroom Hleft. apply get_next_token_paths in H.
  destruct H as
    [ Hp
    | h1 tr1 Hp Hes
    | h1 tr1 Hp Hes Hc Hfull
    | h1 tr1 Hp Hes Hc Hroom' Hmaxed
    | h1 tr1 id n written Hs Hn Hw
    | h1 tr1 id n written Hs Hns Heog
    | h1 tr1 id n written old arr res Hs Hns Heog Hslots Hres Hne
    | h1 tr1 id n written old arr Hs Hns Heog Hslots Hres ];
    try (destruct Hs as (Hp & Hes & Hc & Hv & _ & _ & Hid & Hpiece));
    try congruence; try lia;
    try (rewrite Hes in Hok; discriminate);
    destruct (ensure_sampler_trace _ _ _ _ _ _ _ _ Hes)
      as (evs & Htr & _ & _); subst tr1;
    rewrite <- app_assoc; eexists; (split; [reflexivity|]);
    rewrite existsb_app; apply orb_true_iff; right; reflexivity.
Qed.

(** C10, as amended.  A call that ends on one of the four stop paths
    returns 0 and leaves the cursor, the prompt count, the generated
    count, the limit and the readiness flag as they were, with the
    session ready.  The next call is therefore not refused: it returns,
    and gets as far as the sampler cache.  With the sampler in place it
    draws a token again when the stop came from a stop word or an
    end-of-generation token; when the stop came from the context or the
    length guard it meets the same guard, returns 0 again and draws
    nothing. *)
Theorem stop_keeps_session_ready E w p h temp top_p size r out w' m :
  reachable E w -> heap w !! p = Some h ->
  wrapper_get_next_token E w p temp top_p size = Ret (r, out, w') ->
  is_stop_log m = true -> stopped_by m (trace w) (trace w') ->
  exists h',
    r = 0 /\ heap w' !! p = Some h' /\
    n_cur h' = n_cur h /\ n_prompt h' = n_prompt h /\ n_gen h' = n_gen h /\
    max_new_tokens h' = max_new_tokens h /\
    is_prepared h' = is_prepared h /\ is_prepared h' = true /\
    forall temp2 top_p2 size2,
    exists r2 out2 w2 evs2,
      wrapper_get_next_token E w' p temp2 top_p2 size2 = Ret (r2, out2, w2) /\
      trace w2 = trace w' ++ evs2 /\
      (rebuilds evs2 + resets evs2 = 1)%nat /\
      (fst (fst (ensure_sampler E h' (trace w') temp2 top_p2)) = true ->
       if is_sampled_stop m
       then existsb is_sample evs2 = true
       else r2 = 0 /\ existsb is_sample evs2 = false).
Proof.
  intros Hw Hh Hcall Hm Hstop.
  pose proof (reachable_ok _ _ Hw) as Hok.
  pose proof (live_not_null _ _ _ Hok Hh) as Hp.
  destruct (wrapper_get_next_token_inv _ _ _ _ _ _ _ _ _ _ Hp Hh Hcall)
    as (h' & Hrun & Hheap & _).
  destruct (get_next_token_stop _ _ _ _ _ _ _ _ _ _ _ Hrun Hm Hstop)
    as (Hr & Hready & Hh' & Hguards).
  assert (Hfields : n_cur h' = n_cur h /\ n_prompt h' = n_prompt h /\
                    n_gen h' = n_gen h /\
                    max_new_tokens h' = max_new_tokens h /\
                    is_prepared h' = is_prepared h).
  { subst h'.
    destruct (ensure_sampler E h (trace w) temp top_p) as [[ok h1] tr1] eqn:Hes.
    apply ensure_sampler_fields in Hes. simpl. tauto. }
  destruct Hfields as (Hf1 & Hf2 & Hf3 & Hf4 & Hf5).
  assert (Hhw' : heap w' !! p = Some h')
    by (rewrite Hheap; apply lookup_insert_eq).
  assert (Hw' : reachable E w').
  { apply reachable_step with (w := w) (c := CallNext p temp top_p size);
      auto. simpl. now rewrite Hcall. }
  exists h'. repeat split; auto; try congruence.
  intros temp2 top_p2 size2.
  destruct (reachable_ok _ _ Hw') as (_ & Hlive').
  destruct (Hlive' p h' Hhw') as (_ & Hi' & _).
  destruct (get_next_token_returns E h' (trace w') temp2 top_p2 size2 Hi')
    as (r2 & out2 & h2 & tr2 & Hrun2).
  assert (Hready' : is_prepared h' = true) by congruence.
  destruct (get_next_token_sampler _ _ _ _ _ _ _ _ _ _ Hrun2 Hready')
    as (rest & Htr2 & Hrb & Hrs & _).
  destruct (ensure_sampler_cache E h' (trace w') temp2 top_p2)
    as (evs & Hevs & Hhit & Hmiss).
  exists r2, out2, (mkWorld (<[p := h2]> (heap w')) (next_addr w') tr2),
    (evs ++ rest).
  split.
  { rewrite (wrapper_get_next_token_live _ _ _ h') by auto. now rewrite Hrun2. }
  split; [simpl; rewrite Htr2, Hevs; now rewrite app_assoc|].
  split.
  { rewrite rebuilds_app, resets_app, Hrb, Hrs.
    destruct (cache_hit h' temp2 top_p2) eqn:Hc.
    - destruct (Hhit eq_refl) as (_ & ->). reflexivity.
    - destruct (Hmiss eq_refl) as (-> & -> & _). reflexivity. }
  intros Hsam.
  destruct (is_sampled_stop m).
  - destruct Hguards as (Hroom & Hleft).
    destruct (get_next_token_draws _ _ _ _ _ _ _ _ _ _ Hrun2 Hready' Hsam)
      as (evs2 & Htr2' & Hdraw); try lia.
    rewrite Htr2, Hevs, <- app_assoc in Htr2'.
    apply app_inv_head in Htr2'. now rewrite Htr2'.
  - destruct Hi' as (_ & Hc' & Hv' & _).
    destruct (get_next_token_guarded E h' (trace w') temp2 top_p2 size2
                Hready' Hc')
      as (r3 & h3 & evs3 & Hrun3 & Hr3 & _ & Hevs3); [lia|].
    rewrite Hrun2 in Hrun3. injection Hrun3 as Hr23 Hout23 Hh23 Htr23.
    subst r3 h3.
    rewrite Htr2, Hevs, <- app_assoc in Htr23. apply app_inv_head in Htr23.
    rewrite Htr23. split.
    + destruct Hr3 as [[Hz _] | [_ Hbad]]; [exact Hz | congruence].
    + clear -Hevs3. induction evs3 as [|e evs3 IH]; [reflexivity|].
      simpl in *. apply andb_true_iff in Hevs3 as [He Hrest].
      rewrite (IH Hrest). destruct e; try discriminate; reflexivity.
Qed.

Lemma stopped_by_intro (m : LogMsg) (before after evs : Trace) :
  after = before ++ evs -> last evs = Some (EvLog m) ->
  stopped_by m before after.
Proof. intros -> H. now apply stopped_by_last. Qed.

Lemma stop_keeps_session_ready_witness :
  let E := toy_engine 256 2 in
  let w := toy_world E in
  let w' := match wrapper_get_next_token E w 1 f_half f_half 64 with
            | Ret (_, _, w') => w'
            | _ => empty_world
            end in
  reachable E w /\ heap w !! 1%N = Some (handle_at w 1) /\
  wrapper_get_next_token E w 1 f_half f_half 64
  = Ret (0, Some "</s>"%string, w') /\
  is_stop_log LogEOS = true /\ stopped_by LogEOS (trace w) (trace w') /\
  exists h', heap w' !! 1%N = Some h' /\
             n_cur h' = n_cur (handle_at w 1) /\
             n_gen h' = n_gen (handle_at w 1).
Proof.
  intros E w w'.
  assert (Hw : reachable E w)
    by (apply toy_world_reachable; vm_compute; reflexivity).
  assert (Hh : heap w !! 1%N = Some (handle_at w 1))
    by (vm_compute; reflexivity).
  assert (Hcall : wrapper_get_next_token E w 1 f_half f_half 64
                  = Ret (0, Some "</s>"%string, w'))
    by (vm_compute; reflexivity).
  assert (Hstop : stopped_by LogEOS (trace w) (trace w')).
  { apply (stopped_by_intro _ _ _ (drop (length (trace w)) (trace w')));
      vm_compute; reflexivity. }
  split; [exact Hw|]. split; [exact Hh|]. split; [exact Hcall|].
  split; [reflexivity|]. split; [exact Hstop|].
  destruct (stop_keeps_session_ready E w 1%N (handle_at w 1) f_half f_half 64
              0 (Some "</s>"%string) w' LogEOS Hw Hh Hcall eq_refl Hstop)
    as (h' & _ & Hh' & Hc & _ & Hg & _).
  exists h'. auto.
Defined.

(** C10, as stated, fails: a stop by the length guard is permanent.  In a
    140-token window with a three-token prompt the limit is 16; after 16
    accepted tokens the seventeenth call stops on the length guard, and
    the eighteenth call stops there again without drawing a token. *)
Lemma length_stop_is_not_resampled :
  let E := toy_engine 140 9 in
  let args := (f_half, f_half, 64) in
  let w16 := match run_next E (toy_world E) 1 (repeat args 16) with
             | Ret (_, w) => w
             | _ => empty_world
             end in
  let w17 := match wrapper_get_next_token E w16 1 f_half f_half 64 with
             | Ret (_, _, w) => w
             | _ => empty_world
             end in
  let w18 := match wrapper_get_next_token E w17 1 f_half f_half 64 with
             | Ret (_, _, w) => w
             | _ => empty_world
             end in
  run_next E (toy_world E) 1 (repeat args 16) = Ret (repeat 2 16, w16) /\
  wrapper_get_next_token E w16 1 f_half f_half 64 = Ret (0, None, w17) /\
  last (trace w17) = Some (EvLog LogMaxNewTokens) /\
  wrapper_get_next_token E w17 1 f_half f_half 64 = Ret (0, None, w18) /\
  drop (length (trace w17)) (trace w18)
  = [EvSamplerReset; EvLog LogMaxNewTokens] /\
  existsb is_sample (drop (length (trace w17)) (trace w18)) = false.
Proof.
  intros E args w16 w17 w18.
  split; [vm_compute; reflexivity|]. split; [vm_compute; reflexivity|].
  split; [vm_compute; reflexivity|]. split; [vm_compute; reflexivity|].
  split; vm_compute; reflexivity.
Qed.

(** ** Release *)

(** C9, as amended.  Releasing a null handle does nothing.  Releasing a
    live handle returns: it frees the sampler, the batch, the context and
    the model that exist, in that order, then the handle object and the
    backend, and leaves every other handle alone.  The handle is dangling
    from then on: a second release on it, like any other call, reads a
    freed object, which is undefined behaviour and not a no-op. *)
Theorem release_frees_once w p h :
  p <> null -> heap w !! p = Some h ->
  wrapper_free w null = Ret w /\
  exists w1,
    wrapper_free w p = Ret w1 /\
    heap w1 !! p = None /\
    (forall q, q <> p -> heap w1 !! q = heap w !! q) /\
    trace w1 = trace w ++ free_events h p /\
    (smpl h <> None -> slots (batch h) <> None -> ctx h = true ->
     model h = true ->
     free_events h p
     = [EvLog LogFree; EvSamplerFree; EvBatchFree; EvContextFree;
        EvModelFree; EvDelete p; EvBackendFree]) /\
    wrapper_free w1 p = Undefined /\
    (forall E temp top_p size,
       wrapper_get_next_token E w1 p temp top_p size = Undefined) /\
    (forall E prompt, wrapper_prepare_prompt E w1 p prompt = Undefined).
Proof.
  intros Hp Hh. split; [reflexivity|].
  exists (mkWorld (delete p (heap w)) (next_addr w)
            (trace w ++ free_events h p)).
  assert (Hne : N.eqb p null = false) by now apply N.eqb_neq.
  unfold wrapper_free, wrapper_get_next_token, wrapper_prepare_prompt.
  rewrite Hne, Hh. simpl.
  rewrite lookup_delete_eq.
  repeat split; auto.
  - intros q Hq. now apply lookup_delete_ne.
  - intros Hs Hb Hc Hm. unfold free_events.
    destruct (smpl h); [|contradiction].
    destruct (slots (batch h)); [|contradiction].
    now rewrite Hc, Hm.
Qed.

Lemma release_frees_once_witness :
  let E := toy_engine 256 9 in
  let w := toy_world E in
  1%N <> null /\ heap w !! 1%N = Some (handle_at w 1) /\
  exists w1, wrapper_free w 1 = Ret w1 /\ wrapper_free w1 1 = Undefined.
Proof.
  intros E w.
  assert (Hp : 1%N <> null) by discriminate.
  assert (Hh : heap w !! 1%N = Some (handle_at w 1))
    by (vm_compute; reflexivity).
  split; [exact Hp|]. split; [exact Hh|].
  destruct (release_frees_once w 1%N (handle_at w 1) Hp Hh)
    as (_ & w1 & Hfree & _ & _ & _ & _ & Hagain & _).
  exists w1. split; [exact Hfree | exact Hagain].
Defined.

(** C9, as stated, fails: the second release of the same handle is not a
    no-op.  The first release deletes the handle object; the second call
    passes the null check and reads the deleted object. *)
Lemma second_release_is_undefined :
  let w := toy_world (toy_engine 256 9) in
  let w1 := world_of (wrapper_free w 1) in
  wrapper_free w 1 = Ret w1 /\
  heap w1 !! 1%N = None /\
  wrapper_free w1 1 = Undefined /\
  wrapper_free w1 1 <> Ret w1.
Proof.
  intros w w1.
  split; [vm_compute; reflexivity|]. split; [vm_compute; reflexivity|].
  assert (H : wrapper_free w1 1 = Undefined) by (vm_compute; reflexivity).
  split; [exact H|]. rewrite H. discriminate.
Qed.

(** ** The wrapper run on the toy engine *)

(** The example of the limit: a 256-token window and a 50-token prompt
    give 78; 78 calls return the two bytes of the drawn token and the
    79th returns 0. *)
Example limit_of_78_then_zero :
  let E := toy_engine 256 9 in
  let w := world_of (run_calls E empty_world
                       [ CallInit "model.gguf" 256 4 true;
                         CallPrepare 1 (prompt_of_length 50) ]) in
  max_new_tokens (handle_at w 1) = 78 /\
  exists w', run_next E w 1 (repeat (f_half, f_half, 64) 79)
             = Ret (repeat 2 78 ++ [0], w').
Proof.
  intros E w. split; [vm_compute; reflexivity|].
  eexists. vm_compute. reflexivity.
Qed.

(** A buffer too small for the piece: the token is submitted and counted
    all the same, and the call returns the negated size of the piece. *)
Example short_buffer_returns_negated_size :
  let E := toy_engine 256 9 in
  let w := toy_world E in
  exists w',
    wrapper_get_next_token E w 1 f_half f_half 2 = Ret (-2, None, w') /\
    n_gen (handle_at w' 1) = n_gen (handle_at w 1) + 1 /\
    last (trace w') = Some (EvDecode [mkEntry 9 3 1 0 true] 0).
Proof.
  intros E w. eexists. split; [vm_compute; reflexivity|].
  split; vm_compute; reflexivity.
Qed.

(** A 300-token prompt in a 1024-token window is pre-filled in chunks of
    128, 128 and 44 entries at positions 0, 128 and 256; in each chunk
    only the last entry asks for logits. *)
Example prefill_in_three_chunks :
  let E := toy_engine 1024 9 in
  let w := world_of (run_calls E empty_world
                       [ CallInit "model.gguf" 1024 4 true;
                         CallPrepare 1 (prompt_of_length 300) ]) in
  chunk_summary (trace w)
  = [ (128%nat, 0, [127%nat], 0); (128%nat, 128, [127%nat], 0);
      (44%nat, 256, [43%nat], 0) ] /\
  n_cur (handle_at w 1) = 300 /\ n_prompt (handle_at w 1) = 300 /\
  max_new_tokens (handle_at w 1) = 596 /\
  is_prepared (handle_at w 1) = true.
Proof.
  intros E w. split; [vm_compute; reflexivity|].
  split; [vm_compute; reflexivity|]. split; [vm_compute; reflexivity|].
  split; vm_compute; reflexivity.
Qed.

(** When the second chunk is rejected, prepare returns false after one
    accepted chunk, the session is not ready, and generation is refused
    with -2. *)
Example rejected_chunk_leaves_not_ready :
  let E := flaky_engine 1024 9 in
  let w := world_of (run_calls E empty_world
                       [ CallInit "model.gguf" 1024 4 true ]) in
  let w' := match wrapper_prepare_prompt E w 1 (prompt_of_length 300) with
            | Ret (_, w') => w'
            | _ => empty_world
            end in
  wrapper_prepare_prompt E w 1 (prompt_of_length 300) = Ret (false, w') /\
  chunk_summary (trace w')
  = [ (128%nat, 0, [127%nat], 0); (128%nat, 128, [127%nat], 1) ] /\
  is_prepared (handle_at w' 1) = false /\ n_cur (handle_at w' 1) = 128 /\
  wrapper_get_next_token E w' 1 f_half f_half 64 = Ret (-2, None, w').
Proof.
  intros E w w'. split; [vm_compute; reflexivity|].
  split; [vm_compute; reflexivity|]. split; [vm_compute; reflexivity|].
  split; vm_compute; reflexivity.
Qed.

(** * The rest of the interface *)

(** ** [wrapper_tokenize] *)

(** X1. [wrapper_tokenize] answers -1 for a null handle.  On a live
    handle it returns the number of tokens of the text, tokenised without
    special tokens, whatever the size of the first attempt's buffer; the
    answer is never negative and the world is left as it was. *)
Theorem tokenize_counts_tokens E w p h text :
  reachable E w -> heap w !! p = Some h ->
  wrapper_tokenize E w null text = Ret (-1, w) /\
  wrapper_tokenize E w p text
  = Ret (Z.of_nat (length (vocab_tokenize E text false false)), w) /\
  forall n w', wrapper_tokenize E w p text = Ret (n, w') -> 0 <= n.
Proof.
  intros Hw Hh.
  pose proof (reachable_ok _ _ Hw) as Hok.
  pose proof (live_not_null _ _ _ Hok Hh) as Hp.
  destruct Hok as (_ & Hlive).
  destruct (Hlive p h Hh) as (_ & (_ & _ & Hv & _) & _).
  assert (Hcall : wrapper_tokenize E w p text
                  = Ret (Z.of_nat (length (vocab_tokenize E text false false)),
                         w)).
  { unfold wrapper_tokenize, tokenize.
    destruct (N.eqb_spec p null); [contradiction|].
    rewrite Hh, Hv, tokenize_two_phase_full. reflexivity. }
  split; [reflexivity|]. split; [exact Hcall|].
  intros n w' H. rewrite Hcall in H. inversion H; subst. lia.
Qed.

Lemma tokenize_counts_tokens_witness :
  let E := toy_engine 256 9 in
  let w := toy_world E in
  reachable E w /\ heap w !! 1%N = Some (handle_at w 1) /\
  wrapper_tokenize E w 1 "hello" = Ret (5, w).
Proof.
  intros E w.
  assert (Hw : reachable E w)
    by (apply toy_world_reachable; vm_compute; reflexivity).
  assert (Hh : heap w !! 1%N = Some (handle_at w 1))
    by (vm_compute; reflexivity).
  split; [exact Hw|]. split; [exact Hh|].
  exact (proj1 (proj2 (tokenize_counts_tokens E w 1%N (handle_at w 1)
                         "hello" Hw Hh))).
Defined.

(** ** [wrapper_init] *)

(** X2. [wrapper_init] always returns.  It returns null, with no handle
    allocated, exactly when the model cannot be loaded or the context
    cannot be created.  Otherwise it returns an address that was not in
    use, leaves every other handle alone, and the new handle has
    [min(128, ctx)] batch slots, where [ctx] is [ctx_size] or 1024 when
    [ctx_size] is not positive; it is not ready, so generation on it is
    refused with -2 until a prepare succeeds. *)
Theorem init_returns_null_or_fresh_handle E w path ctx_size threads use_mmap :
  reachable E w ->
  exists p w',
    wrapper_init E w path ctx_size threads use_mmap = Ret (p, w') /\
    (p = null -> heap w' = heap w) /\
    (p = null <->
     model_load_ok E
       (trace w ++ [EvLog (LogInit path
                             (if ctx_size >? 0 then ctx_size else 1024)
                             (if threads >? 0 then threads else 4));
                    EvBackendInit]) path = false
     \/ context_init_ok E
          (trace w ++ [EvLog (LogInit path
                                (if ctx_size >? 0 then ctx_size else 1024)
                                (if threads >? 0 then threads else 4));
                       EvBackendInit; EvModelLoad path use_mmap]) = false) /\
    (p <> null ->
     heap w !! p = None /\
     (forall q, q <> p -> heap w' !! q = heap w !! q) /\
     exists h, heap w' !! p = Some h /\
       batch_size h
       = Z.min 128 (if ctx_size >? 0 then ctx_size else 1024) /\
       capacity h = Some (Z.to_nat (batch_size h)) /\
       is_prepared h = false /\ smpl h = None /\
       forall temp top_p size,
         wrapper_get_next_token E w' p temp top_p size = Ret (-2, None, w')).
Proof.
  intros Hw. destruct (reachable_ok _ _ Hw) as (Hnext & Hlive).
  unfold wrapper_init.
  set (tr0 := trace w ++ [EvLog (LogInit path
                                   (if ctx_size >? 0 then ctx_size else 1024)
                                   (if threads >? 0 then threads else 4));
                          EvBackendInit]).
  replace (trace w ++ [EvLog (LogInit path
                                (if ctx_size >? 0 then ctx_size else 1024)
                                (if threads >? 0 then threads else 4));
                       EvBackendInit; EvModelLoad path use_mmap])
    with (tr0 ++ [EvModelLoad path use_mmap])
    by (unfold tr0; now rewrite <- app_assoc).
  assert (Hfresh : heap w !! next_addr w = None).
  { destruct (heap w !! next_addr w) as [h0|] eqn:Hh0; [|reflexivity].
    destruct (Hlive _ _ Hh0) as (Hr & _). lia. }
  assert (Hnn : next_addr w <> null) by (unfold null; lia).
  destruct (model_load_ok E tr0 path); cbn [negb].
  2:{ eexists _, _. split; [reflexivity|]. simpl.
      repeat split; auto; try contradiction. }
  destruct (context_init_ok E (tr0 ++ [EvModelLoad path use_mmap]));
    cbn [negb].
  2:{ eexists _, _. split; [reflexivity|]. simpl.
      repeat split; auto; try contradiction. }
  eexists _, _. split; [reflexivity|]. simpl.
  split; [intros Hn; contradiction|].
  split; [split; [intros Hn; contradiction | intros [H | H]; discriminate]|].
  intros _. split; [exact Hfresh|].
  split; [intros q Hq; now apply lookup_insert_ne|].
  eexists. split; [apply lookup_insert_eq|].
  cbn [batch_size is_prepared smpl new_LlamaHandle].
  assert (Hmin : Z.min 128 (Z.min 128 (if ctx_size >? 0 then ctx_size else 1024))
                 = Z.min 128 (if ctx_size >? 0 then ctx_size else 1024))
    by lia.
  split; [exact Hmin|].
  split; [unfold capacity, llama_batch_init; cbn [batch slots];
          now rewrite length_replicate|].
  split; [reflexivity|]. split; [reflexivity|].
  intros temp top_p size.
  match goal with
  | |- wrapper_get_next_token E ?w1 _ _ _ _ = _ =>
      apply (wrapper_get_next_token_not_prepared E w1 (next_addr w)
               (mkHandle true true true
                  (llama_batch_init
                     (Z.min 128
                        (Z.min 128 (if ctx_size >? 0 then ctx_size else 1024))))
                  None 0 false
                  (Z.min 128
                     (Z.min 128 (if ctx_size >? 0 then ctx_size else 1024)))
                  f_minus_one f_minus_one 0 0 128))
  end; auto.
  simpl. apply lookup_insert_eq.
Qed.

Lemma init_returns_null_or_fresh_handle_witness :
  let E := toy_engine 256 9 in
  reachable E (toy_world E) /\
  exists p w',
    wrapper_init E (toy_world E) "other.gguf" 0 0 false = Ret (p, w') /\
    (p <> null -> heap (toy_world E) !! p = None).
Proof.
  intros E.
  assert (Hw : reachable E (toy_world E))
    by (apply toy_world_reachable; vm_compute; reflexivity).
  split; [exact Hw|].
  destruct (init_returns_null_or_fresh_handle E (toy_world E) "other.gguf"
              0 0 false Hw)
    as (p & w' & Hcall & _ & _ & Hfresh).
  exists p, w'. split; [exact Hcall|].
  intros Hp. exact (proj1 (Hfresh Hp)).
Defined.

(** ** The chunks of the pre-fill *)

Lemma take_insert_next {A : Type} (l : list A) (n : nat) (x : A) :
  (n < length l)%nat -> take (S n) (<[n := x]> l) = take n l ++ [x].
Proof.
  intros Hn. rewrite (take_S_r _ _ x) by now apply list_lookup_insert_eq.
  rewrite take_insert_ge by apply Nat.le_refl. reflexivity.
Qed.

(** Filling [k] entries from index [j] writes exactly the entries of the
    chunk into the slots [j .. j + k - 1]. *)
Lemma fill_chunk_content tokens i cur n_eval k : forall j arr,
  0 <= i <= INT_MAX - 128 -> 0 <= cur <= INT_MAX - 128 ->
  0 < n_eval <= 128 -> 0 <= j ->
  j + Z.of_nat k <= Z.of_nat (length arr) -> Z.of_nat (length arr) <= 128 ->
  exists arr',
    fill_chunk tokens i cur n_eval k j (mkBatch j (Some arr))
    = Some (mkBatch (j + Z.of_nat k) (Some arr')) /\
    length arr' = length arr /\
    take (Z.to_nat (j + Z.of_nat k)) arr'
    = take (Z.to_nat j) arr
      ++ map (chunk_entry tokens i cur n_eval) (seqZ j (Z.of_nat k)).
Proof.
  induction k as [|k IH]; intros j arr Hi Hcur Hn Hj Hk Hcap.
  - exists arr. simpl. rewrite Z.add_0_r, app_nil_r. auto.
  - cbn [fill_chunk slots n_tokens].
    replace ((0 <=? j) && (j <? Z.of_nat (length arr))) with true
      by (symmetry; apply andb_true_iff; split; lia).
    unfold INT_MAX in *.
    rewrite !int_add_id, int_sub_id
      by (unfold in_int, INT_MIN, INT_MAX; lia).
    fold (chunk_entry tokens i cur n_eval j).
    destruct (IH (j + 1)
                (<[Z.to_nat j := chunk_entry tokens i cur n_eval j]> arr))
      as (arr' & Hfill & Hlen & Htake); auto; try lia;
      rewrite ?length_insert; try lia.
    exists arr'. rewrite Hfill.
    split; [f_equal; f_equal; lia|].
    split; [now rewrite Hlen, length_insert|].
    replace (j + Z.of_nat (S k)) with (j + 1 + Z.of_nat k) by lia.
    rewrite Htake.
    replace (Z.to_nat (j + 1)) with (S (Z.to_nat j)) by lia.
    rewrite take_insert_next by lia.
    rewrite (seqZ_cons j (Z.of_nat (S k))) by lia.
    replace (Z.succ j) with (j + 1) by lia.
    replace (Z.pred (Z.of_nat (S k))) with (Z.of_nat k) by lia.
    now rewrite <- app_assoc.
Qed.

Lemma last_flag_only (n : Z) :
  0 < n ->
  map (fun j => j =? n - 1) (seqZ 0 n)
  = replicate (pred (Z.to_nat n)) false ++ [true].
Proof.
  intros Hn. apply list_eq. intros k. rewrite list_lookup_fmap.
  destruct (decide (k < pred (Z.to_nat n))%nat) as [Hk | Hk].
  - rewrite lookup_seqZ_lt by lia. simpl.
    rewrite lookup_app_l by (rewrite length_replicate; lia).
    rewrite lookup_replicate_2 by lia.
    f_equal. lia.
  - rewrite lookup_app_r by (rewrite length_replicate; lia).
    rewrite length_replicate.
    destruct (decide (k = pred (Z.to_nat n))) as [-> | Hk'].
    + rewrite lookup_seqZ_lt by lia. rewrite Nat.sub_diag.
      cbn -[Nat.pred Z.to_nat Z.eqb]. f_equal. apply Z.eqb_eq. lia.
    + rewrite lookup_seqZ_ge by lia. simpl.
      destruct (k - pred (Z.to_nat n))%nat as [|d] eqn:Hd; [lia|].
      reflexivity.
Qed.

(** The entries of a whole chunk are well formed. *)
Lemma chunk_entries_ok tokens i cur n_eval size :
  0 < n_eval <= size ->
  chunk_ok size (map (chunk_entry tokens i cur n_eval) (seqZ 0 n_eval)).
Proof.
  intros Hn. unfold chunk_ok. rewrite length_map, length_seqZ.
  split; [lia|]. split.
  - rewrite map_map. replace (Init.Nat.pred (Z.to_nat n_eval))
      with (pred (Z.to_nat n_eval)) by reflexivity.
    apply last_flag_only. lia.
  - apply Forall_fmap, Forall_true. intros j. split; reflexivity.
Qed.

Lemma count_if_app (f : Event -> bool) (a b : Trace) :
  count_if f (a ++ b) = (count_if f a + count_if f b)%nat.
Proof.
  induction a as [|e a IH]; simpl; [reflexivity|].
  destruct (f e); now rewrite IH.
Qed.

Lemma decode_batches_app (a b : Trace) :
  decode_batches (a ++ b) = decode_batches a ++ decode_batches b.
Proof. apply omap_app. Qed.

Lemma accepted_entries_from_app (a b : Trace) : forall acc,
  accepted_entries_from acc (a ++ b)
  = accepted_entries_from (accepted_entries_from acc a) b.
Proof.
  induction a as [|e a IH]; intros acc; simpl; [reflexivity|].
  destruct e; auto.
Qed.

(** Tokens and positions of a chunk that starts at prompt index [i] with
    the cursor at [i]. *)
Lemma chunk_placed tokens i n :
  map placed (map (chunk_entry tokens i i n) (seqZ 0 n))
  = map (fun k => (nth (Z.to_nat k) tokens 0, k)) (seqZ i n).
Proof.
  replace (seqZ i n) with (Z.add i <$> seqZ 0 n)
    by (rewrite fmap_add_seqZ; f_equal; lia).
  rewrite map_map. change (Z.add i <$> seqZ 0 n) with (map (Z.add i) (seqZ 0 n)).
  rewrite map_map. reflexivity.
Qed.

(** What the pre-fill loop submits.  Every submission is a well-formed
    chunk; all but possibly the last are accepted, and a rejected one ends
    the loop with a false result; the accepted entries carry the prompt
    tokens from the cursor on, at consecutive positions; the loop neither
    clears the memory nor touches the sampler. *)
Lemma prefill_batches E fuel tokens n_tok : forall i h tr ok h' tr',
  1 <= batch_size h <= 128 ->
  capacity h = Some (Z.to_nat (batch_size h)) ->
  0 <= i -> n_tok <= INT_MAX - 128 ->
  n_cur h = Z.min i n_tok ->
  prefill E fuel tokens n_tok i h tr = Ret (ok, h', tr') ->
  exists evs good bad,
    tr' = tr ++ evs /\
    count_if is_memory_clear evs = 0%nat /\
    rebuilds evs = 0%nat /\ resets evs = 0%nat /\
    count_if is_sample evs = 0%nat /\
    decode_batches evs = map (fun es => (es, 0)) good ++ bad /\
    Forall (chunk_ok (batch_size h)) good /\
    Forall (fun b => chunk_ok (batch_size h) (fst b) /\ snd b <> 0) bad /\
    (if ok then bad = [] else length bad = 1%nat) /\
    n_cur h <= n_cur h' /\
    map placed (concat good)
    = map (fun k => (nth (Z.to_nat k) tokens 0, k))
        (seqZ (n_cur h) (n_cur h' - n_cur h)) /\
    forall acc, accepted_entries_from acc evs = acc ++ concat good.
Proof.
  induction fuel as [|fuel IH]; intros i h tr ok h' tr' Hbs Hcap Hi Hn Hcur H;
    [discriminate|].
  cbn [prefill] in H.
  destruct (Z.ltb_spec i n_tok) as [Hlt | Hge].
  2:{ inversion H; subst. exists [], [], [].
      rewrite app_nil_r, Z.sub_diag. simpl.
      repeat split; auto; try lia. intros acc. now rewrite app_nil_r. }
  assert (Hsub : int_sub n_tok i = n_tok - i)
    by (apply int_sub_id; unfold in_int, INT_MIN, INT_MAX in *; lia).
  rewrite Hsub in H.
  set (n_eval := if n_tok - i >? batch_size h then batch_size h
                 else n_tok - i) in *.
  assert (Heval : 0 < n_eval <= batch_size h /\ n_eval <= n_tok - i).
  { unfold n_eval. destruct (Z.gtb_spec (n_tok - i) (batch_size h)); lia. }
  unfold capacity in Hcap.
  destruct (slots (batch h)) as [arr|] eqn:Hslots; [|discriminate].
  injection Hcap as Hcap.
  assert (Hci : n_cur h = i) by lia.
  destruct (fill_chunk_content tokens i (n_cur h) n_eval (Z.to_nat n_eval)
              0 arr) as (arr' & Hfill & Hlen & Htake);
    try (unfold INT_MAX in *; lia).
  unfold reset_batch_positions in H.
  cbn [set_batch batch n_cur batch_size] in H.
  rewrite Hslots in H.
  replace (0 + Z.of_nat (Z.to_nat n_eval)) with n_eval in * by lia.
  rewrite Hfill in H.
  unfold submitted in H. cbn [slots n_tokens] in H.
  rewrite Htake, take_0, app_nil_l in H.
  replace (Z.of_nat (Z.to_nat n_eval)) with n_eval in H by lia.
  set (es := map (chunk_entry tokens i (n_cur h) n_eval) (seqZ 0 n_eval)) in *.
  assert (Hes : chunk_ok (batch_size h) es)
    by (apply chunk_entries_ok; lia).
  set (log := EvLog (LogPrepareChunk i n_tok)) in *.
  destruct (Z.eqb_spec (llama_decode E (tr ++ [log]) es) 0) as [Hres | Hres];
    cbn [negb] in H.
  - rewrite Hres in H.
    rewrite !int_add_id in H
      by (unfold in_int, INT_MIN, INT_MAX in *; lia).
    apply IH in H; cbn [batch_size n_cur set_n_cur set_batch]; auto;
      try lia.
    2:{ unfold capacity. cbn [batch slots set_n_cur set_batch].
        f_equal. lia. }
    2:{ unfold n_eval.
        destruct (Z.gtb_spec (n_tok - i) (batch_size h)); lia. }
    destruct H as (evs & good & bad & Htr & Hmc & Hrb & Hrs & Hsm & Hdb
                   & Hgood & Hbad & Hok & Hle & Hpl & Hacc).
    cbn [batch_size n_cur set_n_cur set_batch] in *.
    exists ([log; EvDecode es 0] ++ evs), (es :: good), bad.
    split; [rewrite Htr, <- !app_assoc; reflexivity|].
    rewrite count_if_app, rebuilds_app, resets_app, count_if_app,
      decode_batches_app.
    rewrite Hmc, Hrb, Hrs, Hsm, Hdb.
    split; [reflexivity|]. split; [reflexivity|]. split; [reflexivity|].
    split; [reflexivity|]. split; [reflexivity|].
    split; [constructor; auto|]. split; [exact Hbad|]. split; [exact Hok|].
    split; [lia|]. split.
    + cbn [concat]. rewrite map_app, Hpl.
      unfold es. rewrite Hci, chunk_placed.
      replace (n_cur h' - i) with (n_eval + (n_cur h' - (i + n_eval)))
        by lia.
      rewrite seqZ_app by lia. now rewrite map_app.
    + intros acc. rewrite accepted_entries_from_app. simpl.
      rewrite Hacc. cbn [concat]. now rewrite <- app_assoc.
  - inversion H; subst ok h' tr'; clear H.
    exists [log; EvDecode es (llama_decode E (tr ++ [log]) es);
            EvLog (LogPrepareDecodeFailed i)],
      [], [(es, llama_decode E (tr ++ [log]) es)].
    split; [rewrite <- !app_assoc; reflexivity|].
    cbn [set_batch n_cur]. rewrite Z.sub_diag.
    simpl. destruct (llama_decode E (tr ++ [log]) es =? 0) eqn:Hz;
      [apply Z.eqb_eq in Hz; contradiction|].
    repeat split; auto; try lia.
    intros acc. now rewrite app_nil_r.
Qed.

Lemma nth_seqZ_take (l : list llama_token) (n : Z) :
  0 <= n <= Z.of_nat (length l) ->
  map (fun k => nth (Z.to_nat k) l 0) (seqZ 0 n) = take (Z.to_nat n) l.
Proof.
  intros Hn. apply list_eq. intros i.
  change (map ?f ?x) with (f <$> x). rewrite list_lookup_fmap.
  destruct (Z_lt_ge_dec (Z.of_nat i) n) as [Hlt | Hge].
  - rewrite lookup_seqZ_lt, lookup_take_lt by lia. simpl.
    rewrite Z.add_0_l, Nat2Z.id.
    destruct (nth_lookup_or_length l i 0) as [Hl | Hl]; [now rewrite Hl|lia].
  - rewrite lookup_seqZ_ge, lookup_take_ge by lia. reflexivity.
Qed.

Lemma placed_token_pos (l : list BatchEntry) (tokens : list llama_token) n :
  0 <= n <= Z.of_nat (length tokens) ->
  map placed l = map (fun k => (nth (Z.to_nat k) tokens 0, k)) (seqZ 0 n) ->
  map token l = take (Z.to_nat n) tokens /\ map pos l = seqZ 0 n.
Proof.
  intros Hn H. split.
  - rewrite <- (nth_seqZ_take tokens n Hn).
    transitivity (map fst (map placed l)); [now rewrite map_map|].
    rewrite H, map_map. reflexivity.
  - transitivity (map snd (map placed l)); [now rewrite map_map|].
    rewrite H, map_map. apply map_id.
Qed.

(** What one [prepare_prompt] adds to the trace: the memory is cleared
    once, before anything is submitted; the sampler is reset once when the
    call succeeds and a sampler exists, and otherwise left alone; nothing
    is drawn; the accepted chunks carry a prefix of the prompt, all of it
    when the call succeeds, at positions 0, 1, 2, ... *)
Lemma prepare_prompt_batches E h tr prompt ok h' tr' :
  context_ok E -> initialised h ->
  prepare_prompt E h tr prompt = Ret (ok, h', tr') ->
  exists evs good bad n,
    tr' = tr ++ [EvLog LogPrepareClearing; EvMemoryClear] ++ evs /\
    count_if is_memory_clear evs = 0%nat /\
    rebuilds evs = 0%nat /\
    resets evs = (if ok && non_null (smpl h) then 1 else 0)%nat /\
    count_if is_sample evs = 0%nat /\
    decode_batches evs = map (fun es => (es, 0)) good ++ bad /\
    Forall (chunk_ok (batch_size h)) good /\
    Forall (fun b => chunk_ok (batch_size h) (fst b) /\ snd b <> 0) bad /\
    (forall acc, accepted_entries_from acc evs = acc ++ concat good) /\
    0 <= n <= token_count E prompt /\
    map token (concat good) = take (Z.to_nat n) (prompt_tokens E prompt) /\
    map pos (concat good) = seqZ 0 n /\
    (if ok then bad = [] /\ n = token_count E prompt /\ n_cur h' = n
     else (llama_n_ctx E - 128 <= token_count E prompt /\
           good = [] /\ bad = [] /\ n_cur h' = n_cur h)
          \/ (token_count E prompt < llama_n_ctx E - 128 /\
              length bad = 1%nat /\ n_cur h' = n)).
Proof.
  intros HE Hinit H.
  pose proof (context_ok_int E HE) as HC.
  destruct Hinit as (_ & _ & _ & Hbs & Hcap).
  apply prepare_prompt_cases in H. cbv zeta in H.
  rewrite HC in H.
  assert (H128 : int_sub (llama_n_ctx E) 128 = llama_n_ctx E - 128)
    by (apply int_sub_id; unfold context_ok, in_int, INT_MIN, INT_MAX in *;
        lia).
  rewrite H128 in H.
  destruct H as (_ & _ & [(Hlong & -> & -> & ->)
                         | (Hshort & okp & hp & trp & Hpre & Hend)]).
  - exists [EvLog LogPrepareTokenizing;
            EvLog (LogPrepareNTokens (token_count E prompt));
            EvLog (LogPromptTooLong (token_count E prompt) (llama_n_ctx E)
                     128)], [], [], 0.
    unfold prepare_prefix. rewrite <- !app_assoc. simpl.
    split; [reflexivity|].
    do 7 (split; [first [reflexivity | constructor]|]).
    split; [intros acc; now rewrite app_nil_r|].
    split; [unfold token_count; lia|].
    split; [reflexivity|]. split; [reflexivity|].
    left. auto.
  - set (h0 := set_n_cur (set_is_prepared h false) 0) in *.
    assert (Hbs0 : batch_size h0 = batch_size h) by reflexivity.
    assert (Hcur0 : n_cur h0 = 0) by reflexivity.
    assert (HT : 0 <= token_count E prompt)
      by (unfold token_count; lia).
    assert (Hmax : token_count E prompt <= INT_MAX - 128)
      by (unfold context_ok in HE; lia).
    pose proof (prefill_fields _ _ _ _ _ _ _ _ _ _ Hpre)
      as (_ & _ & _ & Hsm & _).
    destruct (prefill_runs E (S (Z.to_nat (token_count E prompt)))
                (prompt_tokens E prompt) (token_count E prompt) 0 h0
                (prepare_prefix E tr prompt))
      as (ok1 & h1 & tr1 & Hrun & Hrng & Hfull & _);
      try (rewrite ?Hbs0, ?Hcur0; auto; lia).
    rewrite Hpre in Hrun. injection Hrun as <- <- <-.
    apply prefill_batches in Hpre;
      try (rewrite ?Hbs0, ?Hcur0; auto; lia).
    destruct Hpre as (evs & good & bad & Htr & Hmc & Hrb & Hrs & Hsa & Hdb
                      & Hgood & Hbad & Hok & Hle & Hpl & Hacc).
    rewrite Hbs0 in Hgood, Hbad. rewrite Hcur0, Z.sub_0_r in Hpl.
    rewrite Hcur0 in Hrng, Hfull, Hle.
    apply placed_token_pos in Hpl; [|fold (token_count E prompt); lia].
    destruct Hpl as [Htok Hpos].
    destruct Hend as [(-> & -> & -> & ->) | (-> & -> & -> & ->)].
    + exists ([EvLog LogPrepareTokenizing;
               EvLog (LogPrepareNTokens (token_count E prompt))] ++ evs),
        good, bad, (n_cur hp).
      split; [rewrite Htr; unfold prepare_prefix;
              rewrite <- !app_assoc; reflexivity|].
      rewrite count_if_app, rebuilds_app, resets_app, count_if_app,
        decode_batches_app, Hmc, Hrb, Hrs, Hsa, Hdb.
      do 7 (split; [first [reflexivity | assumption]|]).
      split; [intros acc; rewrite accepted_entries_from_app; apply Hacc|].
      split; [lia|]. split; [assumption|]. split; [assumption|].
      right. auto.
    + specialize (Hfull eq_refl). subst bad.
      exists ([EvLog LogPrepareTokenizing;
               EvLog (LogPrepareNTokens (token_count E prompt))] ++ evs
              ++ (if non_null (smpl hp) then [EvSamplerReset] else [])
              ++ [EvLog LogPrepareSuccess]),
        good, [], (n_cur hp).
      split.
      { rewrite Htr. unfold prepare_prefix.
        destruct (non_null (smpl hp)); rewrite <- !app_assoc; reflexivity. }
      rewrite !count_if_app, !rebuilds_app, !resets_app,
        !decode_batches_app, Hmc, Hrb, Hrs, Hsa, Hdb.
      cbn [set_session n_cur]. rewrite Hsm.
      change (smpl h0) with (smpl h).
      destruct (non_null (smpl h)); simpl;
        (do 7 (split; [first [reflexivity | assumption
                              | now rewrite ?app_nil_r]|]));
        (split; [intros acc; rewrite !accepted_entries_from_app;
                 simpl; apply Hacc|]);
        (split; [lia|]); (split; [assumption|]); (split; [assumption|]);
        (split; [reflexivity|]); split; lia.
Qed.

(** ** What the context holds *)

(** Events that do not touch the context change nothing of what it
    holds. *)
Lemma quiet_entries (evs : Trace) :
  forallb (fun e => negb (touches_context e)) evs = true ->
  count_if is_memory_clear evs = 0%nat /\
  forall acc, accepted_entries_from acc evs = acc.
Proof.
  induction evs as [|e evs IH]; simpl; [auto|].
  intros H. apply andb_true_iff in H as [He Hevs].
  destruct (IH Hevs) as [Hmc Hacc].
  destruct e; try discriminate; simpl; auto.
Qed.

Lemma piece_log_quiet n id :
  forallb (fun e => negb (touches_context e)) (piece_log n id) = true.
Proof. unfold piece_log. now destruct (n >? 0). Qed.

(** One generation call never clears the memory, and adds to the context
    either nothing, with the cursor unchanged, or one entry at the cursor,
    which then moves on by one. *)
Lemma get_next_token_entries E h tr temp top_p size r out h' tr' :
  get_next_token E h tr temp top_p size = Ret (r, out, h', tr') ->
  in_int (n_cur h) ->
  exists evs,
    tr' = tr ++ evs /\ count_if is_memory_clear evs = 0%nat /\
    ((n_cur h' = n_cur h /\
      forall acc, accepted_entries_from acc evs = acc) \/
     (n_cur h' = n_cur h + 1 /\
      exists id, forall acc,
        accepted_entries_from acc evs = acc ++ [next_entry id h])).
Proof.
  intros H Hint. apply get_next_token_paths in H.
  assert (Hes : forall ok h1 tr1,
            ensure_sampler E h tr temp top_p = (ok, h1, tr1) ->
            n_cur h1 = n_cur h /\
            exists evs0, tr1 = tr ++ evs0 /\
              count_if is_memory_clear evs0 = 0%nat /\
              forall acc, accepted_entries_from acc evs0 = acc).
  { intros ok h1 tr1 Hes.
    pose proof (ensure_sampler_fields _ _ _ _ _ _ _ _ Hes)
      as (_ & _ & _ & _ & Hc & _).
    apply ensure_sampler_trace in Hes as (evs0 & -> & _ & Hq).
    apply quiet_entries in Hq as [Hmc Hacc]. eauto. }
  assert (Hsam : forall h1 tr1 id n written,
            samples E h tr temp top_p size h1 tr1 id n written ->
            n_cur h + 1 <= INT_MAX /\
            n_cur h1 = n_cur h /\
            exists evs0, tr1 = tr ++ evs0 /\
              count_if is_memory_clear evs0 = 0%nat /\
              forall acc, accepted_entries_from acc evs0 = acc).
  { intros h1 tr1 id n written (_ & Hes1 & _ & _ & Hroom & _).
    split; [|eauto].
    pose proof (wrap32_range (llama_n_ctx E)) as Hr.
    pose proof (wrap32_range (wrap32 (llama_n_ctx E) - 4)) as Hr'.
    unfold int_sub in Hroom. unfold in_int in *. lia. }
  pose proof (piece_log_quiet) as Hpl.
  inversion H; subst; clear H.
  - exists []. rewrite app_nil_r. auto.
  - destruct (Hes _ _ _ H1) as (Hc & evs0 & -> & Hmc & Hacc).
    exists (evs0 ++ [EvLog LogSamplerFailed]).
    rewrite <- app_assoc, count_if_app, Hmc.
    split; [reflexivity|]. split; [reflexivity|]. left. split; [exact Hc|].
    intros acc. now rewrite accepted_entries_from_app, Hacc.
  - destruct (Hes _ _ _ H1) as (Hc & evs0 & -> & Hmc & Hacc).
    eexists (evs0 ++ [_]).
    rewrite <- app_assoc, count_if_app, Hmc.
    split; [reflexivity|]. split; [reflexivity|]. left. split; [exact Hc|].
    intros acc. now rewrite accepted_entries_from_app, Hacc.
  - destruct (Hes _ _ _ H1) as (Hc & evs0 & -> & Hmc & Hacc).
    eexists (evs0 ++ [_]).
    rewrite <- app_assoc, count_if_app, Hmc.
    split; [reflexivity|]. split; [reflexivity|]. left. split; [exact Hc|].
    intros acc. now rewrite accepted_entries_from_app, Hacc.
  - destruct (Hsam _ _ _ _ _ H0) as (_ & Hc & evs0 & -> & Hmc & Hacc).
    eexists (evs0 ++ [_; _]).
    rewrite <- app_assoc, count_if_app, Hmc.
    split; [reflexivity|]. split; [reflexivity|]. left. split; [exact Hc|].
    intros acc. now rewrite accepted_entries_from_app, Hacc.
  - destruct (Hsam _ _ _ _ _ H0) as (_ & Hc & evs0 & -> & Hmc & Hacc).
    destruct (quiet_entries _ (Hpl n id)) as [Hmc' Hacc'].
    exists (evs0 ++ [EvSample id] ++ piece_log n id ++ [EvLog LogEOS]).
    rewrite <- app_assoc, !count_if_app, Hmc, Hmc'.
    split; [reflexivity|]. split; [reflexivity|]. left. split; [exact Hc|].
    intros acc. rewrite !accepted_entries_from_app, Hacc. simpl.
    now rewrite Hacc'.
  - destruct (Hsam _ _ _ _ _ H0) as (_ & Hc & evs0 & -> & Hmc & Hacc).
    destruct (quiet_entries _ (Hpl n id)) as [Hmc' Hacc'].
    eexists (evs0 ++ [EvSample id] ++ piece_log n id ++ [_; _]).
    rewrite <- app_assoc, !count_if_app, Hmc, Hmc'.
    split; [reflexivity|]. split; [reflexivity|]. left.
    split; [exact Hc|].
    intros acc. rewrite !accepted_entries_from_app, Hacc. simpl.
    rewrite Hacc'. simpl.
    match goal with
    | |- context [?x =? 0] => destruct (Z.eqb_spec x 0) as [Hz|Hz]
    end; [contradiction|reflexivity].
  - destruct (Hsam _ _ _ _ _ H0) as (Hroom & Hc & evs0 & -> & Hmc & Hacc).
    destruct (quiet_entries _ (Hpl r id)) as [Hmc' Hacc'].
    eexists (evs0 ++ [EvSample id] ++ piece_log r id ++ [_]).
    rewrite <- app_assoc, !count_if_app, Hmc, Hmc'.
    split; [reflexivity|]. split; [reflexivity|]. right.
    split.
    + cbn [set_n_gen set_n_cur n_cur]. apply int_add_id.
      unfold in_int in *. lia.
    + exists id. intros acc. rewrite !accepted_entries_from_app, Hacc. simpl.
      now rewrite Hacc'.
Qed.

(** A run of generation calls on a live handle adds one entry per step of
    the cursor, at consecutive positions from where the cursor stood; each
    is a single entry of sequence 0 that asks for logits. *)
Lemma run_next_entries E p calls : forall w rs w' h,
  reachable E w -> heap w !! p = Some h ->
  run_next E w p calls = Ret (rs, w') ->
  exists h' evs added,
    heap w' !! p = Some h' /\ trace w' = trace w ++ evs /\
    count_if is_memory_clear evs = 0%nat /\
    (forall acc, accepted_entries_from acc evs = acc ++ added) /\
    n_cur h' = n_cur h + Z.of_nat (length added) /\
    map pos added = seqZ (n_cur h) (Z.of_nat (length added)) /\
    Forall (fun e => n_seq_id e = 1 /\ seq_id e = 0 /\ logits e = true)
      added.
Proof.
  induction calls as [|[[temp top_p] size] rest IH]; simpl;
    intros w rs w' h Hw Hh H.
  - inversion H; subst. exists h, [], [].
    rewrite !app_nil_r. simpl. rewrite Z.add_0_r.
    repeat split; auto. intros acc. now rewrite app_nil_r.
  - destruct (wrapper_get_next_token E w p temp top_p size)
      as [[[r out] w1]| |] eqn:Hcall; try discriminate.
    destruct (run_next E w1 p rest) as [[rs1 w2]| |] eqn:Hrest;
      inversion H; subst.
    pose proof (reachable_ok _ _ Hw) as Hok.
    pose proof (live_not_null _ _ _ Hok Hh) as Hp.
    destruct Hok as (_ & Hlive).
    destruct (Hlive p h Hh) as (_ & _ & Hint & _).
    assert (Hw1 : reachable E w1).
    { apply reachable_step with (w := w) (c := CallNext p temp top_p size);
        auto. simpl. now rewrite Hcall. }
    destruct (wrapper_get_next_token_inv _ _ _ _ _ _ _ _ _ _ Hp Hh Hcall)
      as (h1 & Hnext & Hheap & _).
    assert (Hh1 : heap w1 !! p = Some h1)
      by (rewrite Hheap; apply lookup_insert_eq).
    destruct (get_next_token_entries _ _ _ _ _ _ _ _ _ _ Hnext Hint)
      as (evs1 & Htr1 & Hmc1 & Hstep).
    destruct (IH w1 rs1 w' h1 Hw1 Hh1 Hrest)
      as (h' & evs & added & Hh' & Htr & Hmc & Hacc & Hcur & Hpos & Hall).
    destruct Hstep as [(Hc & Hacc1) | (Hc & id & Hacc1)].
    + exists h', (evs1 ++ evs), added.
      split; [exact Hh'|].
      split; [rewrite Htr, Htr1; now rewrite app_assoc|].
      split; [rewrite count_if_app; lia|].
      split; [intros acc; now rewrite accepted_entries_from_app, Hacc1|].
      rewrite <- Hc. auto.
    + exists h', (evs1 ++ evs), (next_entry id h :: added).
      split; [exact Hh'|].
      split; [rewrite Htr, Htr1; now rewrite app_assoc|].
      split; [rewrite count_if_app; lia|].
      split; [intros acc; rewrite accepted_entries_from_app, Hacc1, Hacc;
              now rewrite <- app_assoc|].
      split; [rewrite Hcur, Hc; cbn [length]; lia|].
      split.
      * cbn [map length]. rewrite Hpos, Hc.
        rewrite (seqZ_cons (n_cur h)) by lia.
        cbn [pos next_entry]. do 2 f_equal; lia.
      * constructor; [now cbn|exact Hall].
Qed.

Lemma context_ok_toy : context_ok (toy_engine 256 9).
Proof. unfold context_ok, INT_MAX. simpl. lia. Qed.

(** X3. The pre-fill of [wrapper_prepare_prompt] submits the prompt in
    well-formed chunks: every submission has between one and [batch_size]
    entries of sequence 0, and only its last entry asks for logits.  The
    accepted chunks carry the prompt tokens in order, each once, at
    positions 0, 1, 2, ...; on success they carry the whole prompt and no
    chunk was rejected.  A failed call either submitted nothing, because
    the prompt was too long for the window, or stopped at the first
    rejected chunk. *)
Theorem prepare_submits_prompt_in_chunks E w p h prompt ok w' :
  context_ok E -> reachable E w -> heap w !! p = Some h ->
  wrapper_prepare_prompt E w p prompt = Ret (ok, w') ->
  exists evs good bad,
    trace w' = trace w ++ evs /\
    decode_batches evs = map (fun es => (es, 0)) good ++ bad /\
    Forall (chunk_ok (batch_size h)) good /\
    Forall (fun b => chunk_ok (batch_size h) (fst b) /\ snd b <> 0) bad /\
    map token (concat good)
    = take (length (concat good)) (prompt_tokens E prompt) /\
    map pos (concat good) = seqZ 0 (Z.of_nat (length (concat good))) /\
    (ok = true ->
     bad = [] /\ map token (concat good) = prompt_tokens E prompt) /\
    (ok = false ->
     (llama_n_ctx E - 128 <= token_count E prompt /\
      good = [] /\ bad = [])
     \/ (token_count E prompt < llama_n_ctx E - 128 /\
         length bad = 1%nat)).
Proof.
  intros HE Hw Hh Hcall.
  pose proof (reachable_ok _ _ Hw) as Hok.
  pose proof (live_not_null _ _ _ Hok Hh) as Hp.
  destruct Hok as (_ & Hlive).
  destruct (Hlive p h Hh) as (_ & Hinit & _).
  destruct (wrapper_prepare_prompt_inv _ _ _ _ _ _ _ Hp Hh Hcall)
    as (h' & Hprep & _).
  destruct (prepare_prompt_batches _ _ _ _ _ _ _ HE Hinit Hprep)
    as (evs & good & bad & n & Htr & _ & _ & _ & _ & Hdb & Hgood & Hbad
        & _ & Hn & Htok & Hpos & Hend).
  assert (Hlen : Z.of_nat (length (concat good)) = n).
  { rewrite <- (length_map pos), Hpos, length_seqZ. lia. }
  exists ([EvLog LogPrepareClearing; EvMemoryClear] ++ evs), good, bad.
  split; [exact Htr|]. split; [exact Hdb|].
  split; [exact Hgood|]. split; [exact Hbad|].
  split; [rewrite Htok; f_equal; lia|].
  split; [now rewrite Hlen|].
  split; intros ->.
  - destruct Hend as (-> & -> & _). split; [reflexivity|].
    rewrite Htok. unfold token_count. rewrite Nat2Z.id.
    apply firstn_all.
  - destruct Hend as [(Hlong & -> & -> & _) | (Hshort & Hone & _)]; auto.
Qed.

Lemma prepare_submits_prompt_in_chunks_witness :
  let E := toy_engine 256 9 in
  let w := toy_world E in
  context_ok E /\ reachable E w /\
  heap w !! 1%N = Some (handle_at w 1) /\
  exists w',
    wrapper_prepare_prompt E w 1 (prompt_of_length 5) = Ret (true, w') /\
    exists evs good,
      trace w' = trace w ++ evs /\
      map token (concat good) = prompt_tokens E (prompt_of_length 5) /\
      map pos (concat good) = seqZ 0 (Z.of_nat (length (concat good))).
Proof.
  intros E w.
  assert (Hw : reachable E w)
    by (apply toy_world_reachable; vm_compute; reflexivity).
  assert (Hh : heap w !! 1%N = Some (handle_at w 1))
    by (vm_compute; reflexivity).
  split; [exact context_ok_toy|]. split; [exact Hw|]. split; [exact Hh|].
  destruct (wrapper_prepare_prompt E w 1 (prompt_of_length 5))
    as [[[|] w']| |] eqn:Hcall; [|vm_compute in Hcall; discriminate..].
  exists w'. split; [reflexivity|].
  destruct (prepare_submits_prompt_in_chunks E w 1%N (handle_at w 1)
              (prompt_of_length 5) true w' context_ok_toy Hw Hh Hcall)
    as (evs & good & bad & Htr & _ & _ & _ & _ & Hpos & Hok & _).
  exists evs, good. split; [exact Htr|].
  split; [exact (proj2 (Hok eq_refl))|exact Hpos].
Defined.

(** X4. What the context holds after a successful prepare followed by
    any number of generation calls on the handle: the prompt tokens
    followed by one token per generated token, every entry of sequence 0,
    at positions 0, 1, ..., [n_cur - 1].  The cursor is the next free
    position of the context. *)
Theorem context_holds_prompt_then_generated E w p h prompt w1 calls rs w2 :
  context_ok E -> reachable E w -> heap w !! p = Some h ->
  wrapper_prepare_prompt E w p prompt = Ret (true, w1) ->
  run_next E w1 p calls = Ret (rs, w2) ->
  exists h2 gen,
    heap w2 !! p = Some h2 /\
    map token (accepted_entries (trace w2)) = prompt_tokens E prompt ++ gen /\
    Z.of_nat (length gen) = n_gen h2 /\
    map pos (accepted_entries (trace w2)) = seqZ 0 (n_cur h2) /\
    Forall (fun e => n_seq_id e = 1 /\ seq_id e = 0)
      (accepted_entries (trace w2)).
Proof.
  intros HE Hw Hh Hcall Hrun.
  pose proof (reachable_ok _ _ Hw) as Hok.
  pose proof (live_not_null _ _ _ Hok Hh) as Hp.
  destruct Hok as (_ & Hlive).
  destruct (Hlive p h Hh) as (_ & Hinit & Hint & _).
  destruct (wrapper_prepare_prompt_inv _ _ _ _ _ _ _ Hp Hh Hcall)
    as (h1 & Hprep & Hheap & _).
  assert (Hh1 : heap w1 !! p = Some h1)
    by (rewrite Hheap; apply lookup_insert_eq).
  assert (Hw1 : reachable E w1).
  { apply reachable_step with (w := w) (c := CallPrepare p prompt); auto.
    simpl. now rewrite Hcall. }
  destruct (prepare_prompt_batches _ _ _ _ _ _ _ HE Hinit Hprep)
    as (evs1 & good & bad & n & Htr1 & _ & _ & _ & _ & _ & Hgood & _
        & Hacc1 & Hn & Htok & Hpos & (_ & -> & Hcur1)).
  destruct (prepare_prompt_frame _ _ _ _ _ _ _ Hprep Hint)
    as (_ & _ & _ & _ & _ & _ & _ & _ & _ & _ & Hready).
  destruct (Hready eq_refl) as (Hp1 & Hnp1 & Hg1 & _).
  destruct (run_next_entries _ _ _ _ _ _ _ Hw1 Hh1 Hrun)
    as (h2 & evs2 & added & Hh2 & Htr2 & _ & Hacc2 & Hcur2 & Hpos2 & Hall).
  destruct (run_next_session _ _ _ _ _ _ _ Hw1 Hh1 Hrun)
    as (h2' & Hh2' & Hp2 & Hnp2 & _).
  rewrite Hh2 in Hh2'. injection Hh2' as <-.
  pose proof (run_next_reachable _ _ _ _ _ _ Hw1 Hrun) as Hw2.
  destruct (reachable_ok _ _ Hw2) as (_ & Hlive2).
  destruct (Hlive2 p h2 Hh2) as (_ & _ & _ & _ & _ & Hsum).
  assert (Hheld : accepted_entries (trace w2) = concat good ++ added).
  { unfold accepted_entries. rewrite Htr2, Htr1.
    rewrite !accepted_entries_from_app. simpl. now rewrite Hacc1, Hacc2. }
  exists h2, (map token added).
  split; [exact Hh2|]. rewrite Hheld, !map_app.
  split.
  { rewrite Htok. unfold token_count. rewrite Nat2Z.id.
    now rewrite firstn_all. }
  split; [rewrite length_map; specialize (Hsum ltac:(congruence)); lia|].
  split.
  { rewrite Hpos, Hpos2, Hcur2, Hcur1.
    rewrite (seqZ_app 0) by (unfold token_count; lia).
    reflexivity. }
  apply Forall_app. split.
  - apply Forall_concat.
    eapply Forall_impl; [exact Hgood|]. intros es (_ & _ & Hes). exact Hes.
  - eapply Forall_impl; [exact Hall|]. intros e (H1 & H2 & _). auto.
Qed.

Lemma context_holds_prompt_then_generated_witness :
  let E := toy_engine 256 9 in
  let w := toy_world E in
  let calls := repeat (f_half, f_half, 64) 2 in
  context_ok E /\ reachable E w /\
  heap w !! 1%N = Some (handle_at w 1) /\
  exists w1 rs w2,
    wrapper_prepare_prompt E w 1 (prompt_of_length 5) = Ret (true, w1) /\
    run_next E w1 1 calls = Ret (rs, w2) /\
    exists h2, heap w2 !! 1%N = Some h2 /\
      map pos (accepted_entries (trace w2)) = seqZ 0 (n_cur h2).
Proof.
  intros E w calls.
  assert (Hw : reachable E w)
    by (apply toy_world_reachable; vm_compute; reflexivity).
  assert (Hh : heap w !! 1%N = Some (handle_at w 1))
    by (vm_compute; reflexivity).
  split; [exact context_ok_toy|]. split; [exact Hw|]. split; [exact Hh|].
  destruct (wrapper_prepare_prompt E w 1 (prompt_of_length 5))
    as [[[|] w1]| |] eqn:Hcall; [|vm_compute in Hcall; discriminate..].
  destruct (run_next E w1 1 calls) as [[rs w2]| |] eqn:Hrun.
  2,3: apply (f_equal (fun o => match o with
                               | Ret (_, w1) => run_next E w1 1 calls
                               | _ => Undefined
                               end)) in Hcall;
       cbv beta iota in Hcall; rewrite Hrun in Hcall;
       vm_compute in Hcall; discriminate.
  exists w1, rs, w2. split; [reflexivity|]. split; [exact Hrun|].
  destruct (context_holds_prompt_then_generated E w 1%N (handle_at w 1)
              (prompt_of_length 5) w1 calls rs w2 context_ok_toy Hw Hh
              Hcall Hrun)
    as (h2 & gen & Hh2 & _ & _ & Hpos & _).
  exists h2. split; [exact Hh2|exact Hpos].
Defined.

(** X5. [wrapper_prepare_prompt] on a live handle clears the memory of
    the context exactly once, before anything is submitted, whether it
    then succeeds or fails.  It draws no token and never rebuilds the
    sampling pipeline; it resets the pipeline once when it succeeds and a
    pipeline exists, and not otherwise; the pipeline and the temperature
    and top-p it was built for are those of before the call. *)
Theorem prepare_clears_once_and_keeps_sampler E w p h prompt ok w' :
  context_ok E -> reachable E w -> heap w !! p = Some h ->
  wrapper_prepare_prompt E w p prompt = Ret (ok, w') ->
  exists evs h',
    trace w' = trace w ++ [EvLog LogPrepareClearing; EvMemoryClear] ++ evs /\
    count_if is_memory_clear evs = 0%nat /\
    count_if is_sample evs = 0%nat /\
    rebuilds evs = 0%nat /\
    resets evs = (if ok && non_null (smpl h) then 1 else 0)%nat /\
    heap w' !! p = Some h' /\
    smpl h' = smpl h /\ last_temp h' = last_temp h /\
    last_top_p h' = last_top_p h.
Proof.
  intros HE Hw Hh Hcall.
  pose proof (reachable_ok _ _ Hw) as Hok.
  pose proof (live_not_null _ _ _ Hok Hh) as Hp.
  destruct Hok as (_ & Hlive).
  destruct (Hlive p h Hh) as (_ & Hinit & Hint & _).
  destruct (wrapper_prepare_prompt_inv _ _ _ _ _ _ _ Hp Hh Hcall)
    as (h' & Hprep & Hheap & _).
  destruct (prepare_prompt_batches _ _ _ _ _ _ _ HE Hinit Hprep)
    as (evs & good & bad & n & Htr & Hmc & Hrb & Hrs & Hsa & _).
  destruct (prepare_prompt_frame _ _ _ _ _ _ _ Hprep Hint)
    as (_ & _ & _ & _ & _ & Hs & Ht & Hq & _).
  exists evs, h'.
  split; [exact Htr|]. split; [exact Hmc|]. split; [exact Hsa|].
  split; [exact Hrb|]. split; [exact Hrs|].
  split; [rewrite Hheap; apply lookup_insert_eq|]. auto.
Qed.

Lemma prepare_clears_once_and_keeps_sampler_witness :
  let E := toy_engine 256 9 in
  let w := toy_world E in
  context_ok E /\ reachable E w /\
  heap w !! 1%N = Some (handle_at w 1) /\
  exists w',
    wrapper_prepare_prompt E w 1 (prompt_of_length 5) = Ret (true, w') /\
    exists evs,
      trace w' = trace w ++ [EvLog LogPrepareClearing; EvMemoryClear] ++ evs
      /\ count_if is_memory_clear evs = 0%nat.
Proof.
  intros E w.
  assert (Hw : reachable E w)
    by (apply toy_world_reachable; vm_compute; reflexivity).
  assert (Hh : heap w !! 1%N = Some (handle_at w 1))
    by (vm_compute; reflexivity).
  split; [exact context_ok_toy|]. split; [exact Hw|]. split; [exact Hh|].
  destruct (wrapper_prepare_prompt E w 1 (prompt_of_length 5))
    as [[[|] w']| |] eqn:Hcall; [|vm_compute in Hcall; discriminate..].
  exists w'. split; [reflexivity|].
  destruct (prepare_clears_once_and_keeps_sampler E w 1%N (handle_at w 1)
              (prompt_of_length 5) true w' context_ok_toy Hw Hh Hcall)
    as (evs & h' & Htr & Hmc & _).
  exists evs. split; [exact Htr|exact Hmc].
Defined.

(** ** The context guard *)

(** A ready session keeps its cursor at least 113 positions short of the
    end of the window. *)
Lemma ready_cursor_bound E w p h :
  context_ok E -> reachable E w -> heap w !! p = Some h ->
  is_prepared h = true -> n_cur h <= llama_n_ctx E - 113.
Proof.
  intros HE Hw Hh Hready.
  destruct (reachable_ok _ _ Hw) as (_ & Hlive).
  destruct (Hlive p h Hh) as (_ & _ & _ & Hgen & _ & Hsum).
  destruct (reachable_within _ _ HE Hw p h Hh) as (_ & Hwin).
  destruct (Hwin Hready) as (Hpr & Hmax).
  specialize (Hsum Hready). lia.
Qed.

(** X6. The context-exhaustion guard of [wrapper_get_next_token] never
    fires.  In every world a host can reach, a ready session has its
    cursor at most at [n_ctx - 113], well below the [n_ctx - 4] the guard
    tests for, because the generation limit set by the prepare is reached
    first; so no generation call ends on the context-full line. *)
Theorem context_guard_never_fires E w p h :
  context_ok E -> reachable E w -> heap w !! p = Some h ->
  (is_prepared h = true -> n_cur h <= llama_n_ctx E - 113) /\
  forall temp top_p size r out w' a b,
    wrapper_get_next_token E w p temp top_p size = Ret (r, out, w') ->
    ~ stopped_by (LogContextFull a b) (trace w) (trace w').
Proof.
  intros HE Hw Hh.
  split; [now apply ready_cursor_bound with (w := w) (p := p)|].
  intros temp top_p size r out w' a b Hcall Hstop.
  pose proof (reachable_ok _ _ Hw) as Hok.
  pose proof (live_not_null _ _ _ Hok Hh) as Hp.
  destruct (wrapper_get_next_token_inv _ _ _ _ _ _ _ _ _ _ Hp Hh Hcall)
    as (h' & Hrun & _).
  revert Hstop. generalize (trace w') (trace w) Hrun.
  clear Hrun Hcall w'. intros tr' tr Hrun Hstop.
  apply get_next_token_paths in Hrun.
  destruct Hrun as
    [ Hpr
    | h1 tr1 Hpr Hes
    | h1 tr1 Hpr Hes Hc Hfull
    | h1 tr1 Hpr Hes Hc Hroom Hmaxed
    | h1 tr1 id n written Hs Hn Hsw
    | h1 tr1 id n written Hs Hns Heog
    | h1 tr1 id n written old arr res Hs Hns Heog Hslots Hres Hne
    | h1 tr1 id n written old arr Hs Hns Heog Hslots Hres ];
    try (destruct Hs as (Hpr & Hes & _)).
  1:{ now apply not_stopped_same in Hstop. }
  all: destruct (ensure_sampler_trace _ _ _ _ _ _ _ _ Hes)
      as (evs & Htr & _ & _); subst tr1.
  2:{ pose proof (ready_cursor_bound _ _ _ _ HE Hw Hh Hpr) as Hb.
      rewrite (context_ok_int E HE) in Hfull.
      rewrite int_sub_id in Hfull
        by (unfold context_ok, in_int, INT_MIN, INT_MAX in *; lia).
      lia. }
  all: stop_end Hstop; discriminate.
Qed.

Lemma context_guard_never_fires_witness :
  let E := toy_engine 256 9 in
  let w := toy_world E in
  context_ok E /\ reachable E w /\
  heap w !! 1%N = Some (handle_at w 1) /\
  is_prepared (handle_at w 1) = true /\
  n_cur (handle_at w 1) <= 143.
Proof.
  intros E w.
  assert (Hw : reachable E w)
    by (apply toy_world_reachable; vm_compute; reflexivity).
  assert (Hh : heap w !! 1%N = Some (handle_at w 1))
    by (vm_compute; reflexivity).
  assert (Hp : is_prepared (handle_at w 1) = true)
    by (vm_compute; reflexivity).
  split; [exact context_ok_toy|]. split; [exact Hw|]. split; [exact Hh|].
  split; [exact Hp|].
  exact (proj1 (context_guard_never_fires E w 1%N (handle_at w 1)
                  context_ok_toy Hw Hh) Hp).
Defined.

(** ** The output buffer *)

Lemma c_str_length (buf : string) :
  (String.length (c_str buf) <= String.length buf)%nat.
Proof.
  induction buf as [|c rest IH]; simpl; [lia|].
  destruct (Ascii.eqb c NUL); simpl; lia.
Qed.

(** The text a call leaves in the buffer is a piece that
    [llama_token_to_piece] reported with a positive count. *)
Lemma get_next_token_buffer E h tr temp top_p size r out h' tr' :
  get_next_token E h tr temp top_p size = Ret (r, out, h', tr') ->
  (forall s, out = Some s ->
     exists id, s = c_str (vocab_piece E id) /\
       0 < Z.of_nat (String.length (vocab_piece E id)) <= int_sub size 1) /\
  (0 < r ->
     token_accepted tr tr' /\
     exists id, out = Some (c_str (vocab_piece E id)) /\
       r = Z.of_nat (String.length (vocab_piece E id)) /\
       r <= int_sub size 1) /\
  (out = None -> r <= 0).
Proof.
  intros H. apply get_next_token_paths in H.
  assert (Hshown : forall id n written s,
            llama_token_to_piece E id (int_sub size 1) = (n, written) ->
            0 < n -> shown n written = Some s ->
            s = c_str (vocab_piece E id) /\
            n = Z.of_nat (String.length (vocab_piece E id)) /\
            0 < Z.of_nat (String.length (vocab_piece E id))
              <= int_sub size 1).
  { intros id n written s Hpiece Hn Hs.
    pose proof (llama_token_to_piece_positive E id (int_sub size 1)) as Hpos.
    rewrite Hpiece in Hpos. simpl in Hpos.
    destruct (proj1 Hpos Hn) as [Hlo Hhi].
    rewrite (llama_token_to_piece_fits E id _ Hhi) in Hpiece.
    injection Hpiece as <- <-.
    unfold shown in Hs.
    destruct (Z.gtb_spec (Z.of_nat (String.length (vocab_piece E id))) 0);
      [|lia].
    injection Hs as <-. auto. }
  assert (Hnone : forall n written, n <= 0 -> shown n written = None).
  { intros n written Hn. unfold shown.
    destruct (Z.gtb_spec n 0); [lia|reflexivity]. }
  destruct H as
    [ Hpr
    | h1 tr1 Hpr Hes
    | h1 tr1 Hpr Hes Hc Hfull
    | h1 tr1 Hpr Hes Hc Hroom Hmaxed
    | h1 tr1 id n written Hs Hn Hsw
    | h1 tr1 id n written Hs Hns Heog
    | h1 tr1 id n written old arr res Hs Hns Heog Hslots Hres Hne
    | h1 tr1 id n written old arr Hs Hns Heog Hslots Hres ];
    try (destruct Hs as (Hpr & Hes & _ & _ & _ & _ & _ & Hpiece)).
  1-4: split; [discriminate|split; [lia|lia]].
  - split; [|split; [lia|discriminate]].
    intros s Hs. exists id.
    destruct (Hshown id n written s Hpiece Hn) as (-> & _ & Hfit).
    + unfold shown. destruct (Z.gtb_spec n 0); [exact Hs|lia].
    + auto.
  - split; [|split; [lia|lia]].
    intros s Hs. exists id.
    destruct (Z_lt_ge_dec 0 n) as [Hn | Hn];
      [|rewrite Hnone in Hs by lia; discriminate].
    destruct (Hshown id n written s Hpiece Hn Hs) as (-> & _ & Hfit). auto.
  - split; [|split; [lia|lia]].
    intros s Hs. exists id.
    destruct (Z_lt_ge_dec 0 n) as [Hn | Hn];
      [|rewrite Hnone in Hs by lia; discriminate].
    destruct (Hshown id n written s Hpiece Hn Hs) as (-> & _ & Hfit). auto.
  - split; [|split].
    + intros s Hs. exists id.
      destruct (Z_lt_ge_dec 0 n) as [Hn | Hn];
        [|rewrite Hnone in Hs by lia; discriminate].
      destruct (Hshown id n written s Hpiece Hn Hs) as (-> & _ & Hfit). auto.
    + intros Hn. split.
      * destruct (ensure_sampler_trace _ _ _ _ _ _ _ _ Hes)
          as (evs & -> & _).
        eapply token_accepted_intro;
          [rewrite <- !app_assoc; reflexivity|].
        rewrite !app_assoc. apply last_snoc.
      * exists id.
        destruct (Hshown id n written (c_str written) Hpiece Hn)
          as (Heq & Hr & Hfit).
        { unfold shown. destruct (Z.gtb_spec n 0); [reflexivity|lia]. }
        unfold shown. destruct (Z.gtb_spec n 0); [|lia].
        rewrite Heq. split; [reflexivity|]. split; [exact Hr|lia].
    + intros Hout. unfold shown in Hout.
      destruct (Z.gtb_spec n 0); [discriminate|lia].
Qed.

Lemma c_str_no_nul (buf : string) :
  ~ In NUL (list_ascii_of_string (c_str buf)).
Proof.
  induction buf as [|c rest IH]; simpl; [tauto|].
  destruct (Ascii.eqb_spec c NUL) as [-> | Hc]; simpl; [tauto|].
  intros [H | H]; [now apply Hc | now apply IH].
Qed.

(** X7. What [wrapper_get_next_token] leaves in [out_buf].  Whenever the
    call writes the buffer, the text is a piece of the vocabulary up to
    its first NUL, and together with its terminator it fits in
    [out_buf_size] bytes.  A positive return value is the length of the
    piece written, and is returned only when the token was accepted; a
    call that does not write the buffer returns 0 or less. *)
Theorem buffer_holds_terminated_piece E w p h temp top_p size r out w' :
  reachable E w -> heap w !! p = Some h ->
  INT_MIN < size <= INT_MAX ->
  wrapper_get_next_token E w p temp top_p size = Ret (r, out, w') ->
  (forall s, out = Some s ->
     Z.of_nat (String.length s) + 1 <= size /\
     ~ In NUL (list_ascii_of_string s) /\
     exists id, s = c_str (vocab_piece E id)) /\
  (0 < r ->
     token_accepted (trace w) (trace w') /\ r + 1 <= size /\
     exists s, out = Some s /\ Z.of_nat (String.length s) <= r) /\
  (out = None -> r <= 0).
Proof.
  intros Hw Hh Hsize Hcall.
  pose proof (reachable_ok _ _ Hw) as Hok.
  pose proof (live_not_null _ _ _ Hok Hh) as Hp.
  destruct (wrapper_get_next_token_inv _ _ _ _ _ _ _ _ _ _ Hp Hh Hcall)
    as (h' & Hrun & _).
  destruct (get_next_token_buffer _ _ _ _ _ _ _ _ _ _ Hrun)
    as (Hsome & Hpos & Hnone).
  assert (Hsub : int_sub size 1 = size - 1)
    by (apply int_sub_id; unfold in_int, INT_MIN, INT_MAX in *; lia).
  rewrite Hsub in Hsome, Hpos.
  split; [|split; [|exact Hnone]].
  - intros s Hs. destruct (Hsome s Hs) as (id & -> & Hfit).
    pose proof (c_str_length (vocab_piece E id)) as Hlen.
    split; [lia|]. split; [apply c_str_no_nul|]. eauto.
  - intros Hr. destruct (Hpos Hr) as (Hacc & id & Hout & Heq & Hfit).
    pose proof (c_str_length (vocab_piece E id)) as Hlen.
    split; [exact Hacc|]. split; [lia|].
    exists (c_str (vocab_piece E id)). split; [exact Hout|lia].
Qed.

Lemma buffer_holds_terminated_piece_witness :
  let E := toy_engine 256 9 in
  let w := toy_world E in
  reachable E w /\ heap w !! 1%N = Some (handle_at w 1) /\
  INT_MIN < 64 <= INT_MAX /\
  exists r out w',
    wrapper_get_next_token E w 1 f_half f_half 64 = Ret (r, out, w') /\
    (0 < r -> r + 1 <= 64) /\ (out = None -> r <= 0).
Proof.
  intros E w.
  assert (Hw : reachable E w)
    by (apply toy_world_reachable; vm_compute; reflexivity).
  assert (Hh : heap w !! 1%N = Some (handle_at w 1))
    by (vm_compute; reflexivity).
  assert (Hsize : INT_MIN < 64 <= INT_MAX)
    by (unfold INT_MIN, INT_MAX; lia).
  split; [exact Hw|]. split; [exact Hh|]. split; [exact Hsize|].
  destruct (wrapper_get_next_token E w 1 f_half f_half 64)
    as [[[r out] w']| |] eqn:Hcall; [|vm_compute in Hcall; discriminate..].
  exists r, out, w'. split; [reflexivity|].
  destruct (buffer_holds_terminated_piece E w 1%N (handle_at w 1) f_half
              f_half 64 r out w' Hw Hh Hsize Hcall)
    as (_ & Hpos & Hnone).
  split; [|exact Hnone].
  intros Hr. exact (proj1 (proj2 (Hpos Hr))).
Defined.

(** ** Error codes *)

Lemma ensure_sampler_failed E h tr temp top_p h1 tr1 :
  ensure_sampler E h tr temp top_p = (false, h1, tr1) -> smpl h1 = None.
Proof.
  unfold ensure_sampler. intros H.
  repeat match type of H with
         | context [if ?c then _ else _] => destruct c
         end; inversion H; subst; reflexivity.
Qed.

(** The negative results of [get_next_token] when every piece fits in the
    buffer. *)
Lemma get_next_token_negative E h tr temp top_p size r out h' tr' :
  (forall id, Z.of_nat (String.length (vocab_piece E id)) <= int_sub size 1) ->
  get_next_token E h tr temp top_p size = Ret (r, out, h', tr') ->
  r < 0 ->
  (r = -2 /\ is_prepared h = false /\ h' = h /\ tr' = tr) \/
  (r = -3 /\ is_prepared h = true /\ smpl h' = None /\
   stopped_by LogSamplerFailed tr tr') \/
  (r = -4 /\ is_prepared h = true /\
   exists res, res <> 0 /\ stopped_by (LogDecodeFailed res) tr tr').
Proof.
  intros Hfits H Hr. apply get_next_token_paths in H.
  destruct H as
    [ Hpr
    | h1 tr1 Hpr Hes
    | h1 tr1 Hpr Hes Hc Hfull
    | h1 tr1 Hpr Hes Hc Hroom Hmaxed
    | h1 tr1 id n written Hs Hn Hsw
    | h1 tr1 id n written Hs Hns Heog
    | h1 tr1 id n written old arr res Hs Hns Heog Hslots Hres Hne
    | h1 tr1 id n written old arr Hs Hns Heog Hslots Hres ];
    try (destruct Hs as (Hpr & Hes & _ & _ & _ & _ & _ & Hpiece));
    try lia.
  - left. auto.
  - right. left.
    destruct (ensure_sampler_trace _ _ _ _ _ _ _ _ Hes) as (evs & -> & _).
    split; [reflexivity|]. split; [exact Hpr|].
    split; [now apply ensure_sampler_failed in Hes|].
    exists evs. now rewrite app_assoc.
  - right. right.
    destruct (ensure_sampler_trace _ _ _ _ _ _ _ _ Hes) as (evs & -> & _).
    split; [reflexivity|]. split; [exact Hpr|].
    exists res. split; [exact Hne|].
    eapply stopped_by_intro; [rewrite <- !app_assoc; reflexivity|].
    rewrite !app_assoc.
    change [EvDecode [next_entry id h] res; EvLog (LogDecodeFailed res)]
      with ([EvDecode [next_entry id h] res]
            ++ [EvLog (LogDecodeFailed res)]).
    rewrite app_assoc. apply last_snoc.
  - rewrite (llama_token_to_piece_fits E id _ (Hfits id)) in Hpiece.
    injection Hpiece as <- _. lia.
Qed.

(** X8. With a buffer in which every piece of the vocabulary fits, a
    negative result of [wrapper_get_next_token] on a live handle names
    the failure: -2 when the session is not ready, and then nothing at
    all happened; -3 when the sampling pipeline could not be built, and
    then the handle holds no pipeline; -4 when the engine rejected the
    token.  In each case the cursor and the generated count are those of
    before the call, and no token was accepted. *)
Theorem negative_codes_name_the_failure E w p h temp top_p size r out w' :
  reachable E w -> heap w !! p = Some h ->
  (forall id, Z.of_nat (String.length (vocab_piece E id)) <= int_sub size 1) ->
  wrapper_get_next_token E w p temp top_p size = Ret (r, out, w') ->
  r < 0 ->
  exists h',
    heap w' !! p = Some h' /\
    n_cur h' = n_cur h /\ n_gen h' = n_gen h /\
    is_prepared h' = is_prepared h /\
    ~ token_accepted (trace w) (trace w') /\
    ((r = -2 /\ is_prepared h = false /\ w' = w) \/
     (r = -3 /\ is_prepared h = true /\ smpl h' = None /\
      stopped_by LogSamplerFailed (trace w) (trace w')) \/
     (r = -4 /\ is_prepared h = true /\
      exists res, res <> 0 /\
        stopped_by (LogDecodeFailed res) (trace w) (trace w'))).
Proof.
  intros Hw Hh Hfits Hcall Hr.
  pose proof (reachable_ok _ _ Hw) as Hok.
  pose proof (live_not_null _ _ _ Hok Hh) as Hp.
  destruct (wrapper_get_next_token_counters _ _ _ _ _ _ _ _ _ _ Hok Hh Hcall)
    as (h' & Hh' & Hpr' & _ & _ & Hstep).
  destruct (wrapper_get_next_token_inv _ _ _ _ _ _ _ _ _ _ Hp Hh Hcall)
    as (h'' & Hrun & Hheap & Hnext).
  assert (h'' = h') as ->.
  { rewrite Hheap, lookup_insert_eq in Hh'. now injection Hh'. }
  exists h'. split; [exact Hh'|].
  destruct Hstep as [(Hc & Hg & Hna & _) | (_ & _ & Hacc & _)].
  - split; [exact Hc|]. split; [exact Hg|]. split; [exact Hpr'|].
    split; [exact Hna|].
    destruct (get_next_token_negative _ _ _ _ _ _ _ _ _ _ Hfits Hrun Hr)
      as [(-> & Hnot & -> & Htr) | [Hthree | Hfour]]; auto.
    left. split; [reflexivity|]. split; [exact Hnot|].
    destruct w' as [hp na tr]. simpl in *. subst.
    apply world_insert_same. exact Hh.
  - exfalso.
    destruct (get_next_token_result _ _ _ _ _ _ _ _ _ _ Hrun) as (_ & Hres).
    specialize (Hres Hacc). cbv zeta in Hres.
    injection Hres as -> _.
    rewrite (llama_token_to_piece_fits E _ _ (Hfits _)) in Hr.
    simpl in Hr. lia.
Qed.

Lemma toy_piece_short (id : llama_token) :
  Z.of_nat (String.length (toy_piece id)) <= 12.
Proof.
  unfold toy_piece.
  destruct (id =? 2); [simpl; lia|].
  destruct (id =? 7); [simpl; lia|].
  destruct (id =? 8); simpl; lia.
Qed.

Lemma negative_codes_name_the_failure_witness :
  let E := toy_engine 256 9 in
  let w := world_of (run_calls E empty_world
                       [CallInit "model.gguf" 256 4 true]) in
  reachable E w /\ heap w !! 1%N = Some (handle_at w 1) /\
  (forall id, Z.of_nat (String.length (vocab_piece E id)) <= int_sub 64 1) /\
  wrapper_get_next_token E w 1 f_half f_half 64 = Ret (-2, None, w) /\
  -2 < 0 /\
  is_prepared (handle_at w 1) = false.
Proof.
  intros E w.
  assert (Hw : reachable E w).
  { apply (run_calls_reachable E [CallInit "model.gguf" 256 4 true]
             empty_world w); [constructor|vm_compute; reflexivity]. }
  assert (Hh : heap w !! 1%N = Some (handle_at w 1))
    by (vm_compute; reflexivity).
  assert (Hfits : forall id,
            Z.of_nat (String.length (vocab_piece E id)) <= int_sub 64 1).
  { intros id. pose proof (toy_piece_short id) as Hs.
    change (vocab_piece E id) with (toy_piece id).
    change (int_sub 64 1) with 63. lia. }
  assert (Hcall : wrapper_get_next_token E w 1 f_half f_half 64
                  = Ret (-2, None, w))
    by (vm_compute; reflexivity).
  assert (Hneg : -2 < 0) by lia.
  split; [exact Hw|]. split; [exact Hh|]. split; [exact Hfits|].
  split; [exact Hcall|]. split; [exact Hneg|].
  destruct (negative_codes_name_the_failure E w 1%N (handle_at w 1) f_half
              f_half 64 (-2) None w Hw Hh Hfits Hcall Hneg)
    as (h' & _ & _ & _ & _ & _ & [(_ & Hnot & _) | [(Hr & _) | (Hr & _)]]);
    [exact Hnot | discriminate Hr | discriminate Hr].
Defined.

(** ** The books of the runtime's resources *)

Lemma held_size_insert_new (m : gmap N LlamaHandle) p h :
  m !! p = None -> size (<[p := h]> m) = S (size m).
Proof. apply map_size_insert_None. Qed.

Lemma held_size_delete (m : gmap N LlamaHandle) p h :
  m !! p = Some h -> size m = S (size (delete p m)).
Proof.
  intros Hp. rewrite <- (insert_delete_id m p h) at 1 by exact Hp.
  apply map_size_insert_None, lookup_delete_eq.
Qed.

Lemma held_size_update (m : gmap N LlamaHandle) p h h' :
  m !! p = Some h -> size (<[p := h']> m) = size m.
Proof. intros Hp. apply map_size_insert_Some. eauto. Qed.

Lemma with_sampler_insert_new (m : gmap N LlamaHandle) p h :
  m !! p = None ->
  size (with_sampler (<[p := h]> m))
  = (size (with_sampler m) + held_sampler h)%nat.
Proof.
  intros Hp. unfold with_sampler, held_sampler.
  rewrite map_filter_insert. destruct (non_null (smpl h)) eqn:Hs.
  - rewrite decide_True by exact Hs.
    rewrite map_size_insert_None; [lia|].
    apply map_lookup_filter_None_2. now left.
  - rewrite decide_False by (simpl; congruence).
    rewrite delete_id by exact Hp. lia.
Qed.

Lemma with_sampler_delete (m : gmap N LlamaHandle) p h :
  m !! p = Some h ->
  size (with_sampler m)
  = (size (with_sampler (delete p m)) + held_sampler h)%nat.
Proof.
  intros Hp. rewrite <- (insert_delete_id m p h) at 1 by exact Hp.
  apply with_sampler_insert_new, lookup_delete_eq.
Qed.

Lemma with_sampler_update (m : gmap N LlamaHandle) p h h' :
  m !! p = Some h ->
  (size (with_sampler (<[p := h']> m)) + held_sampler h
   = size (with_sampler m) + held_sampler h')%nat.
Proof.
  intros Hp. rewrite <- insert_delete_eq.
  rewrite with_sampler_insert_new by apply lookup_delete_eq.
  rewrite (with_sampler_delete m p h Hp). lia.
Qed.

(** Events of a session that are no ledger events, or sampler events,
    count for nothing in the books but the sampler's. *)
Lemma session_ledger (evs : Trace) :
  forallb (fun e => is_sampler_event e || negb (is_ledger_event e)) evs
  = true ->
  count_if is_backend_init evs = 0%nat /\
  count_if is_backend_free evs = 0%nat /\
  count_if is_init_failure evs = 0%nat /\
  count_if is_model_loaded evs = 0%nat /\
  count_if is_model_free evs = 0%nat /\
  count_if is_context_created evs = 0%nat /\
  count_if is_context_free evs = 0%nat /\
  count_if is_batch_free evs = 0%nat /\
  count_if is_delete evs = 0%nat.
Proof.
  induction evs as [|e evs IH]; simpl; [repeat split; reflexivity|].
  intros H. apply andb_true_iff in H as [He Hevs].
  specialize (IH Hevs).
  destruct e as [| | | | | | | | | | | | | | | |m]; try discriminate;
    try exact IH.
  destruct m; try discriminate; exact IH.
Qed.

Lemma quiet_ledger (evs : Trace) :
  forallb (fun e => negb (is_ledger_event e)) evs = true ->
  forallb (fun e => is_sampler_event e || negb (is_ledger_event e)) evs
  = true /\
  count_if is_sampler_built evs = 0%nat /\
  count_if is_sampler_free evs = 0%nat.
Proof.
  induction evs as [|e evs IH]; simpl; [repeat split; reflexivity|].
  intros H. apply andb_true_iff in H as [He Hevs].
  destruct (IH Hevs) as (H1 & H2 & H3).
  rewrite He, orb_true_r, H1.
  destruct e; try discriminate; auto.
Qed.

Lemma quiet_app (f : Event -> bool) (a b : Trace) :
  forallb f a = true -> forallb f b = true -> forallb f (a ++ b) = true.
Proof. intros Ha Hb. rewrite forallb_app, Ha, Hb. reflexivity. Qed.

(** The pre-fill loop produces log lines and submissions only. *)
Lemma prefill_quiet E fuel tokens n_tok : forall i h tr ok h' tr',
  prefill E fuel tokens n_tok i h tr = Ret (ok, h', tr') ->
  exists evs, tr' = tr ++ evs /\
    forallb (fun e => negb (is_ledger_event e)) evs = true.
Proof.
  induction fuel as [|fuel IH]; simpl; intros i h tr ok h' tr' H;
    [discriminate|].
  destruct (i <? n_tok).
  2:{ inversion H; subst. exists []. now rewrite app_nil_r. }
  match type of H with
  | context [fill_chunk ?a ?b ?c ?d ?e ?f ?g] =>
      destruct (fill_chunk a b c d e f g) as [b1|] eqn:Hfill
  end; [|discriminate].
  match type of H with
  | context [negb ?c] => destruct c
  end; simpl in H.
  - apply IH in H as (evs & Htr & Hq).
    eexists (_ :: _ :: evs). rewrite Htr, <- !app_assoc.
    split; [reflexivity|]. simpl. exact Hq.
  - inversion H; subst.
    eexists [_; _; _]. rewrite <- !app_assoc. split; reflexivity.
Qed.

Lemma prepare_prompt_quiet E h tr prompt ok h' tr' :
  prepare_prompt E h tr prompt = Ret (ok, h', tr') ->
  exists evs, tr' = tr ++ evs /\
    forallb (fun e => negb (is_ledger_event e)) evs = true.
Proof.
  intros H. apply prepare_prompt_cases in H. cbv zeta in H.
  destruct H as (_ & _ & [(_ & _ & _ & ->)
                         | (_ & okp & hp & trp & Hpre & Hend)]).
  - unfold prepare_prefix. rewrite <- !app_assoc.
    eexists. split; reflexivity.
  - apply prefill_quiet in Hpre as (evs & -> & Hq).
    unfold prepare_prefix in *.
    destruct Hend as [(_ & _ & _ & ->) | (_ & _ & _ & ->)].
    + rewrite <- !app_assoc. eexists. split; [reflexivity|].
      simpl. exact Hq.
    + destruct (non_null (smpl hp)); rewrite <- !app_assoc;
        (eexists; split; [reflexivity|]); simpl;
        apply quiet_app; auto.
Qed.

(** [ensure_sampler] frees what it replaces: the samplers built and the
    one held before add up to the samplers freed and the one held
    after. *)
Lemma ensure_sampler_ledger E h tr temp top_p ok h1 tr1 :
  ensure_sampler E h tr temp top_p = (ok, h1, tr1) ->
  exists evs, tr1 = tr ++ evs /\
    forallb (fun e => is_sampler_event e || negb (is_ledger_event e)) evs
    = true /\
    (count_if is_sampler_built evs + held_sampler h
     = count_if is_sampler_free evs + held_sampler h1)%nat.
Proof.
  unfold ensure_sampler, held_sampler. intros H.
  destruct (non_null (smpl h)) eqn:Hs; cbn [andb] in H;
    repeat match type of H with
           | context [if ?c then _ else _] => destruct c
           end; inversion H; subst; clear H;
    rewrite <- ?app_assoc; cbn [smpl set_sampler non_null];
    rewrite ?Hs;
    (eexists; split; [reflexivity|]); split; reflexivity.
Qed.

Lemma get_next_token_ledger E h tr temp top_p size r out h' tr' :
  get_next_token E h tr temp top_p size = Ret (r, out, h', tr') ->
  exists evs, tr' = tr ++ evs /\
    forallb (fun e => is_sampler_event e || negb (is_ledger_event e)) evs
    = true /\
    (count_if is_sampler_built evs + held_sampler h
     = count_if is_sampler_free evs + held_sampler h')%nat.
Proof.
  intros H. apply get_next_token_paths in H.
  assert (Hpl : forall n id,
            forallb (fun e => is_sampler_event e || negb (is_ledger_event e))
              (piece_log n id) = true)
    by (intros n id; unfold piece_log; now destruct (n >? 0)).
  assert (Hc0 : forall n id,
            count_if is_sampler_built (piece_log n id) = 0%nat /\
            count_if is_sampler_free (piece_log n id) = 0%nat)
    by (intros n id; unfold piece_log; now destruct (n >? 0)).
  destruct H as
    [ Hpr
    | h1 tr1 Hpr Hes
    | h1 tr1 Hpr Hes Hc Hfull
    | h1 tr1 Hpr Hes Hc Hroom Hmaxed
    | h1 tr1 id n written Hs Hn Hsw
    | h1 tr1 id n written Hs Hns Heog
    | h1 tr1 id n written old arr res Hs Hns Heog Hslots Hres Hne
    | h1 tr1 id n written old arr Hs Hns Heog Hslots Hres ];
    try (destruct Hs as (Hpr & Hes & _)).
  1:{ exists []. rewrite app_nil_r. repeat split; reflexivity. }
  all: destruct (ensure_sampler_ledger _ _ _ _ _ _ _ _ Hes)
      as (evs & -> & Hq & Hbal);
    destruct (Hc0 n id) as [Hb0 Hf0] || idtac;
    rewrite <- ?app_assoc;
    (eexists; split; [reflexivity|]);
    rewrite ?forallb_app, ?count_if_app, ?Hq, ?Hpl, ?Hb0, ?Hf0;
    unfold held_sampler in *;
    cbn [smpl set_n_gen set_n_cur set_batch forallb count_if
         is_sampler_event is_ledger_event is_init_failure
         is_sampler_built is_sampler_free negb orb andb];
    (split; [reflexivity|lia]).
Qed.

Lemma balanced_app (a r : Event -> bool) (tr evs : Trace) (n n' : nat) :
  balanced a r tr n ->
  (count_if a evs + n = count_if r evs + n')%nat ->
  balanced a r (tr ++ evs) n'.
Proof. unfold balanced. rewrite !count_if_app. lia. Qed.

(** A call on a live handle that extends the trace by session events and
    keeps the sampler's account keeps the books. *)
Lemma session_balance (w : World) (p : N) (h h' : LlamaHandle) (evs : Trace) :
  resources_balanced w -> heap w !! p = Some h ->
  forallb (fun e => is_sampler_event e || negb (is_ledger_event e)) evs
  = true ->
  (count_if is_sampler_built evs + held_sampler h
   = count_if is_sampler_free evs + held_sampler h')%nat ->
  resources_balanced
    (mkWorld (<[p := h']> (heap w)) (next_addr w) (trace w ++ evs)).
Proof.
  intros (Hm & Hc & Hb & Hd & Hs & Hbk) Hh Hq Hbal.
  destruct (session_ledger _ Hq)
    as (Hbi & Hbf & Hif & Hml & Hmf & Hcc & Hcf & Hbaf & Hdel).
  pose proof (held_size_update (heap w) p h h' Hh) as Hsize.
  pose proof (with_sampler_update (heap w) p h h' Hh) as Hheld.
  unfold resources_balanced. cbn [heap trace]. rewrite Hsize.
  split; [apply balanced_app with (n := size (heap w)); [exact Hm|lia]|].
  split; [apply balanced_app with (n := size (heap w)); [exact Hc|lia]|].
  split; [apply balanced_app with (n := size (heap w)); [exact Hb|lia]|].
  split; [apply balanced_app with (n := size (heap w)); [exact Hd|lia]|].
  split.
  - apply balanced_app with (n := size (with_sampler (heap w)));
      [exact Hs|lia].
  - rewrite !count_if_app. lia.
Qed.

Lemma step_balance E w c w' :
  world_ok w -> resources_balanced w -> step E w c = Ret w' ->
  resources_balanced w'.
Proof.
  intros (Hnext & Hlive) Hbal Hstep.
  destruct c as [path c t m | p text | p prompt | p temp top_p size | p];
    cbn [step] in Hstep.
  - assert (Hfresh : heap w !! next_addr w = None).
    { destruct (heap w !! next_addr w) as [h|] eqn:Hp; [|reflexivity].
      destruct (Hlive _ _ Hp) as (Hr & _). lia. }
    destruct Hbal as (Hm & Hc & Hb & Hd & Hs & Hbk).
    unfold wrapper_init in Hstep.
    destruct (model_load_ok E _ path); cbn [negb] in Hstep;
      [destruct (context_init_ok E _); cbn [negb] in Hstep|];
      cbn [after] in Hstep; inversion Hstep; subst; clear Hstep;
      unfold resources_balanced, balanced in *; cbn [heap trace];
      rewrite ?held_size_insert_new by exact Hfresh;
      rewrite ?with_sampler_insert_new by exact Hfresh;
      rewrite !count_if_app; unfold held_sampler; simpl; lia.
  - unfold wrapper_tokenize in Hstep.
    destruct (N.eqb p null); [inversion Hstep; subst; exact Hbal|].
    destruct (heap w !! p); [|discriminate].
    destruct (tokenize E l text); inversion Hstep; subst. exact Hbal.
  - unfold wrapper_prepare_prompt in Hstep.
    destruct (N.eqb p null); [inversion Hstep; subst; exact Hbal|].
    destruct (heap w !! p) as [h|] eqn:Hp; [|discriminate].
    destruct (prepare_prompt E h (trace w) prompt)
      as [[[ok h'] tr']| |] eqn:Hrun;
      inversion Hstep; subst; clear Hstep.
    destruct (Hlive p h Hp) as (_ & _ & Hint & _).
    destruct (prepare_prompt_frame _ _ _ _ _ _ _ Hrun Hint)
      as (_ & _ & _ & _ & _ & Hsm & _).
    destruct (prepare_prompt_quiet _ _ _ _ _ _ _ Hrun) as (evs & -> & Hq).
    destruct (quiet_ledger _ Hq) as (Hq' & Hb0 & Hf0).
    apply session_balance with (h := h); auto.
    unfold held_sampler. rewrite Hsm, Hb0, Hf0. reflexivity.
  - unfold wrapper_get_next_token in Hstep.
    destruct (N.eqb p null); [inversion Hstep; subst; exact Hbal|].
    destruct (heap w !! p) as [h|] eqn:Hp; [|discriminate].
    destruct (get_next_token E h (trace w) temp top_p size)
      as [[[[r out] h'] tr']| |] eqn:Hrun;
      inversion Hstep; subst; clear Hstep.
    destruct (get_next_token_ledger _ _ _ _ _ _ _ _ _ _ Hrun)
      as (evs & -> & Hq & Hheld).
    now apply session_balance with (h := h).
  - unfold wrapper_free in Hstep.
    destruct (N.eqb p null); [inversion Hstep; subst; exact Hbal|].
    destruct (heap w !! p) as [h|] eqn:Hp; [|discriminate].
    inversion Hstep; subst; clear Hstep.
    destruct (Hlive p h Hp) as (_ & (Hmod & Hctx & _ & _ & Hcap) & _).
    destruct Hbal as (Hm & Hc & Hb & Hd & Hs & Hbk).
    pose proof (held_size_delete _ _ _ Hp) as Hsize.
    pose proof (with_sampler_delete _ _ _ Hp) as Hheld.
    unfold capacity in Hcap.
    unfold resources_balanced, balanced, free_events, held_sampler in *;
      cbn [heap trace].
    rewrite Hmod, Hctx.
    destruct (slots (batch h)); [|discriminate].
    destruct (non_null (smpl h));
      rewrite !count_if_app; simpl; lia.
Qed.

Lemma reachable_balanced E w : reachable E w -> resources_balanced w.
Proof.
  induction 1 as [|w c w' Hw IH Hstep].
  - unfold resources_balanced, balanced, with_sampler. simpl.
    rewrite map_filter_empty, !map_size_empty. repeat split; reflexivity.
  - eapply step_balance; eauto. now apply reachable_ok with (E := E).
Qed.

(** X9. The wrapper keeps the books of the runtime's resources.  In
    every world a host can reach, each model loaded was freed or belongs
    to a live handle, and so for the contexts, the batch arrays and the
    handle objects; each sampling pipeline built was freed or is held by
    a live handle, so that replacing a pipeline or releasing a handle
    leaks none and frees none twice.  The backend is initialised once for
    every live handle, every release and every failed [wrapper_init]: a
    failed [wrapper_init] leaves the backend initialised with no release
    to match.  Once every handle is released, all but the backend's
    account are even. *)
Theorem resources_are_released_or_held E w :
  reachable E w ->
  resources_balanced w /\
  (heap w = ∅ ->
   count_if is_model_loaded (trace w) = count_if is_model_free (trace w) /\
   count_if is_context_created (trace w)
   = count_if is_context_free (trace w) /\
   count_if is_context_created (trace w)
   = count_if is_batch_free (trace w) /\
   count_if is_context_created (trace w) = count_if is_delete (trace w) /\
   count_if is_sampler_built (trace w)
   = count_if is_sampler_free (trace w) /\
   count_if is_backend_init (trace w)
   = (count_if is_backend_free (trace w)
      + count_if is_init_failure (trace w))%nat).
Proof.
  intros Hw. pose proof (reachable_balanced E w Hw) as Hbal.
  split; [exact Hbal|].
  intros Hempty. destruct Hbal as (Hm & Hc & Hb & Hd & Hs & Hbk).
  unfold balanced, with_sampler in *. rewrite Hempty in *.
  rewrite map_filter_empty in Hs. rewrite map_size_empty in *.
  repeat split; lia.
Qed.

Lemma resources_are_released_or_held_witness :
  let E := toy_engine 256 9 in
  let w := toy_world E in
  reachable E w /\
  count_if is_model_loaded (trace w)
  = (count_if is_model_free (trace w) + size (heap w))%nat.
Proof.
  intros E w.
  assert (Hw : reachable E w)
    by (apply toy_world_reachable; vm_compute; reflexivity).
  split; [exact Hw|].
  exact (proj1 (proj1 (resources_are_released_or_held E w Hw))).
Defined.

(** ** The empty prompt *)

Lemma prepare_prompt_empty E h tr prompt :
  context_ok E -> initialised h ->
  token_count E prompt = 0 -> 128 < llama_n_ctx E ->
  prepare_prompt E h tr prompt
  = Ret (true,
         set_session (set_n_cur (set_is_prepared h false) 0) 0 0
           (Z.max 16 (llama_n_ctx E - 128)) true,
         tr ++ [EvLog LogPrepareClearing; EvMemoryClear;
                EvLog LogPrepareTokenizing; EvLog (LogPrepareNTokens 0)]
            ++ (if non_null (smpl h) then [EvSamplerReset] else [])
            ++ [EvLog LogPrepareSuccess]).
Proof.
  intros HE (_ & Hctx & Hvoc & _) HT Hwin.
  rewrite prepare_prompt_eq, Hctx, Hvoc, HT, (context_ok_int E HE).
  cbn [negb orb].
  assert (H128 : int_sub (llama_n_ctx E) 128 = llama_n_ctx E - 128)
    by (apply int_sub_id; unfold context_ok, in_int, INT_MIN, INT_MAX in *;
        lia).
  rewrite H128.
  destruct (Z.geb_spec 0 (llama_n_ctx E - 128)) as [Hge | _]; [lia|].
  cbn [Z.to_nat prefill Z.ltb Z.compare].
  cbn [n_cur set_n_cur set_is_prepared smpl].
  assert (H0 : int_sub (int_sub (llama_n_ctx E) 0) 128 = llama_n_ctx E - 128).
  { rewrite (int_sub_id (llama_n_ctx E) 0)
      by (unfold context_ok, in_int, INT_MIN, INT_MAX in *; lia).
    now rewrite Z.sub_0_r. }
  rewrite H0. unfold prepare_prefix. rewrite HT.
  destruct (non_null (smpl h)); rewrite <- !app_assoc; reflexivity.
Qed.

(** X10. A prompt that tokenises to nothing is accepted, given a window
    of more than 128 positions: [wrapper_prepare_prompt] returns true
    without submitting anything, and leaves a ready session whose cursor
    is 0 over a context that holds no entry.  With a sampling pipeline
    that can be built, the next generation call then draws a token,
    although nothing was decoded since the memory was cleared. *)
Theorem empty_prompt_samples_from_empty_context E w p h prompt :
  context_ok E -> reachable E w -> heap w !! p = Some h ->
  token_count E prompt = 0 -> 128 < llama_n_ctx E ->
  exists w1 h1 evs1,
    wrapper_prepare_prompt E w p prompt = Ret (true, w1) /\
    heap w1 !! p = Some h1 /\ is_prepared h1 = true /\
    n_cur h1 = 0 /\ n_prompt h1 = 0 /\
    trace w1 = trace w ++ evs1 /\ decode_batches evs1 = [] /\
    accepted_entries (trace w1) = [] /\
    (sampler_reliable E ->
     forall temp top_p size r out w2,
       wrapper_get_next_token E w1 p temp top_p size = Ret (r, out, w2) ->
       exists evs2,
         trace w2 = trace w1 ++ evs2 /\ existsb is_sample evs2 = true).
Proof.
  intros HE Hw Hh HT Hwin.
  pose proof (reachable_ok _ _ Hw) as Hok.
  pose proof (live_not_null _ _ _ Hok Hh) as Hp.
  destruct Hok as (_ & Hlive).
  destruct (Hlive p h Hh) as (_ & Hinit & _).
  pose proof (prepare_prompt_empty E h (trace w) prompt HE Hinit HT Hwin)
    as Hprep.
  pose proof (wrapper_prepare_prompt_live E w p h prompt Hp Hh) as Hcall.
  rewrite Hprep in Hcall.
  eexists _, _, _. split; [exact Hcall|]. cbn [heap trace].
  split; [apply lookup_insert_eq|]. split; [reflexivity|].
  split; [reflexivity|]. split; [reflexivity|]. split; [reflexivity|].
  split; [now destruct (non_null (smpl h))|].
  split.
  { unfold accepted_entries. rewrite accepted_entries_from_app.
    now destruct (non_null (smpl h)). }
  intros Hrel temp top_p size r out w2 Hnext.
  match type of Hnext with
  | wrapper_get_next_token _ ?w1 _ _ _ _ = _ =>
      destruct (wrapper_get_next_token_inv E w1 p _ temp top_p size r out w2
                  Hp (lookup_insert_eq _ _ _) Hnext) as (h2 & Hrun & _)
  end.
  cbn [trace] in Hrun.
  apply get_next_token_draws in Hrun; cbn [trace]; auto.
  - now apply ensure_sampler_reliable.
  - cbn [n_cur set_session set_n_cur]. rewrite (context_ok_int E HE).
    rewrite int_sub_id
      by (unfold context_ok, in_int, INT_MIN, INT_MAX in *; lia).
    lia.
  - cbn [n_gen max_new_tokens set_session]. lia.
Qed.

Lemma empty_prompt_samples_from_empty_context_witness :
  let E := toy_engine 256 9 in
  let w := toy_world E in
  context_ok E /\ reachable E w /\
  heap w !! 1%N = Some (handle_at w 1) /\
  token_count E EmptyString = 0 /\ 128 < llama_n_ctx E /\
  exists w1,
    wrapper_prepare_prompt E w 1 EmptyString = Ret (true, w1) /\
    accepted_entries (trace w1) = [].
Proof.
  intros E w.
  assert (Hw : reachable E w)
    by (apply toy_world_reachable; vm_compute; reflexivity).
  assert (Hh : heap w !! 1%N = Some (handle_at w 1))
    by (vm_compute; reflexivity).
  assert (HT : token_count E EmptyString = 0) by reflexivity.
  assert (Hwin : 128 < llama_n_ctx E) by (simpl; lia).
  split; [exact context_ok_toy|]. split; [exact Hw|]. split; [exact Hh|].
  split; [exact HT|]. split; [exact Hwin|].
  destruct (empty_prompt_samples_from_empty_context E w 1%N (handle_at w 1)
              EmptyString context_ok_toy Hw Hh HT Hwin)
    as (w1 & h1 & evs1 & Hcall & _ & _ & _ & _ & _ & _ & Hacc & _).
  exists w1. split; [exact Hcall|exact Hacc].
Defined.
